(** * The streaming OME-Zarr multiscale writer of lazyflow

    A shallow embedding of [lazyflow/utility/io_util/write_ome_zarr.py]:
    the chunk-shape and scale-level planners, the block downsampler, the
    per-block write into the level arrays and the multiscale metadata
    document, with the properties the design document states about them.

    Conventions of the embedding.
    - Python [int] is [Z].
    - Python [float] is an IEEE 754 binary64 number: a finite value, given
      by the rational it denotes, an infinity or NaN.  Conversions and
      divisions round to the nearest float, ties to even ([round_double]).
      The two zeros are not told apart: no operation of the module depends
      on the sign of a zero.
    - An [OrderedDict] is an association list in insertion order.
    - A raised exception is the [Raise] alternative of [result]. *)

From Stdlib Require Import ZArith QArith Qround Qpower Lqa List Ascii String Bool Lia.
From Stdlib Require Import DecimalString DecimalNat.
Import ListNotations.

Local Open Scope string_scope.
Local Open Scope list_scope.
Local Open Scope Z_scope.

(** ** Exceptions *)

Inductive exn : Type :=
| AssertionError
| ValueError
| ZeroDivisionError
| OverflowError
| IndexError
| KeyError
| ArrayNotFoundError
| ContainsArrayError.

Inductive result (A : Type) : Type :=
| Ok (a : A)
| Raise (e : exn).

Arguments Ok {A} a.
Arguments Raise {A} e.

Definition bind {A B : Type} (m : result A) (k : A -> result B) : result B :=
  match m with
  | Ok a => k a
  | Raise e => Raise e
  end.

Notation "x <- m ;; k" := (bind m (fun x => k))
  (at level 61, m at next level, right associativity).

Fixpoint mapM {A B : Type} (f : A -> result B) (l : list A) : result (list B) :=
  match l with
  | [] => Ok []
  | x :: xs => y <- f x ;; ys <- mapM f xs ;; Ok (y :: ys)
  end.

(** ** Ordered dictionaries *)

Module Dict.

Definition t (V : Type) : Type := list (string * V).

Definition keys {V} (d : t V) : list string := map fst d.
Definition values {V} (d : t V) : list V := map snd d.
Definition items {V} (d : t V) : list (string * V) := d.

Fixpoint get {V} (a : string) (d : t V) : option V :=
  match d with
  | [] => None
  | (k, v) :: d' => if String.eqb a k then Some v else get a d'
  end.

(** [a in d] *)
Definition contains {V} (a : string) (d : t V) : bool :=
  match get a d with Some _ => true | None => false end.

(** [d[a]], raising [KeyError] on a missing key. *)
Definition getitem {V} (a : string) (d : t V) : result V :=
  match get a d with Some v => Ok v | None => Raise KeyError end.

(** [d[a] = v]: an existing key keeps its position, a new key is
    appended. *)
Fixpoint set {V} (a : string) (v : V) (d : t V) : t V :=
  match d with
  | [] => [(a, v)]
  | (k, w) :: d' => if String.eqb a k then (k, v) :: d' else (k, w) :: set a v d'
  end.

(** [OrderedDict(pairs)]: the pairs are inserted from left to right. *)
Definition of_pairs {V} (l : list (string * V)) : t V :=
  fold_left (fun d kv => set (fst kv) (snd kv) d) l [].

(** The keys of a dictionary are pairwise distinct. *)
Definition wf {V} (d : t V) : Prop := NoDup (keys d).

End Dict.

Definition ODict {V : Type} : list (string * V) -> Dict.t V := Dict.of_pairs.

(** ** Floats *)

Inductive float : Type :=
| Finite (q : Q)
| Infinity (negative : bool)
| NaN.

(** [2^k] for an integer [k] of either sign. *)
Definition two_power (k : Z) : Q := (2 ^ k)%Q.

(** The binade of a positive rational [x]: the [e] with
    [2^e <= x < 2^(e+1)]. *)
Definition binade (x : Q) : Z :=
  let e0 := Z.log2 (Qnum x) - Z.log2 (Zpos (Qden x)) in
  if Qle_bool (two_power e0) x then e0 else e0 - 1.

(** The nearest integer, a tie going to the even one. *)
Definition round_half_even (t : Q) : Z :=
  let f := Qfloor t in
  match (t - inject_Z f ?= 1 # 2)%Q with
  | Lt => f
  | Gt => f + 1
  | Eq => if Z.even f then f else f + 1
  end.

(** The exponent of the spacing of the floats around a positive [x]: 53
    significant bits, and no spacing below [2^-1074]. *)
Definition quantum (x : Q) : Z := Z.max (binade x - 52) (-1074).

(** The multiple of the spacing nearest to a positive [x]. *)
Definition round_magnitude (x : Q) : Q :=
  let u := quantum x in
  (inject_Z (round_half_even (x / two_power u)) * two_power u)%Q.

(** The float nearest to a rational: round to nearest, ties to even, and
    an infinity from [2^1024] on. *)
Definition round_double (x : Q) : float :=
  match (x ?= 0)%Q with
  | Eq => Finite 0
  | Gt => let y := round_magnitude x in
          if Qle_bool (two_power 1024) y then Infinity false else Finite y
  | Lt => let y := round_magnitude (- x) in
          if Qle_bool (two_power 1024) y then Infinity true else Finite (- y)
  end.

(** The conversion of an integer operand of a float operation, which raises
    [OverflowError] for an integer too large for a float. *)
Definition float_of_int (n : Z) : result float :=
  match round_double (inject_Z n) with
  | Infinity _ => Raise OverflowError
  | x => Ok x
  end.

Definition is_zero (x : float) : bool :=
  match x with
  | Finite q => Qeq_bool q 0
  | _ => false
  end.

Definition is_negative (x : float) : bool :=
  match x with
  | Finite q => negb (Qle_bool 0 q)
  | Infinity s => s
  | NaN => false
  end.

(** [x / y] on floats: a zero divisor raises, everything else follows
    IEEE 754. *)
Definition float_truediv (x y : float) : result float :=
  if is_zero y then Raise ZeroDivisionError
  else Ok match x, y with
          | NaN, _ | _, NaN => NaN
          | Infinity _, Infinity _ => NaN
          | Infinity s, Finite _ => Infinity (xorb s (is_negative y))
          | Finite _, Infinity _ => Finite 0
          | Finite a, Finite b => round_double (a / b)
          end.

(** [n / x] for an integer [n] and a float [x]: the integer is converted
    first. *)
Definition int_truediv_float (n : Z) (x : float) : result float :=
  a <- float_of_int n ;; float_truediv a x.

(** [a / b] on integers: the correctly rounded quotient. *)
Definition int_truediv (a b : Z) : result float :=
  if b =? 0 then Raise ZeroDivisionError
  else match round_double (inject_Z a / inject_Z b) with
       | Infinity _ => Raise OverflowError
       | x => Ok x
       end.

(** [math.ceil(x)] *)
Definition math_ceil (x : float) : result Z :=
  match x with
  | Finite q => Ok (Qceiling q)
  | Infinity _ => Raise OverflowError
  | NaN => Raise ValueError
  end.

(** Truncation towards zero. *)
Definition truncate (q : Q) : Z :=
  if Qle_bool 0 q then Qfloor q else Qceiling q.

(** [int(x)] on a float. *)
Definition int_of_float (x : float) : result Z :=
  match x with
  | Finite q => Ok (truncate q)
  | Infinity _ => Raise OverflowError
  | NaN => Raise ValueError
  end.

(** [x > 0] on a float. *)
Definition float_positive (x : float) : bool :=
  match x with
  | Finite q => negb (Qle_bool q 0)
  | Infinity s => negb s
  | NaN => false
  end.

(** [2.0 ** k] for an integer [k] from 0 to 1023, where the power is
    exact. *)
Definition pow2 (k : Z) : float := Finite (inject_Z (2 ^ k)).

(** The value is one a float can have. *)
Definition is_double (x : float) : bool :=
  match x with
  | Finite q => match round_double q with
                | Finite q' => Qeq_bool q' q
                | _ => false
                end
  | _ => true
  end.

(** The integer converts to a float. *)
Definition fits_float (n : Z) : bool :=
  match float_of_int n with
  | Ok _ => true
  | Raise _ => false
  end.

(** ** Types of the module *)

Definition Shape : Type := list Z.
Definition TaggedShape : Type := Dict.t Z.
Definition OrderedScaling : Type := Dict.t float.

Definition SPATIAL_AXES : list string := ["z"; "y"; "x"].

(** [a in SPATIAL_AXES] *)
Definition in_axes (a : string) (l : list string) : bool :=
  existsb (String.eqb a) l.

Record ImageMetadata : Type := mkImageMetadata {
  path : string;
  scale : OrderedScaling;
  translation : Dict.t float
}.

(** ** Integers of numpy *)

(** The value of a 64-bit signed integer after wrap-around, numpy's default
    integer type. *)
Definition wrap64 (z : Z) : Z := (z + 2 ^ 63) mod 2 ^ 64 - 2 ^ 63.

(** [numpy.prod] of a sequence of integers that all lie in the range of
    [int64], as the extents of arrays do: numpy then multiplies in [int64];
    the empty product is 1. *)
Definition numpy_prod (l : list Z) : Z := wrap64 (fold_left Z.mul l 1).

(** [max(l)], which raises [ValueError] on an empty sequence. *)
Definition py_max (l : list Z) : result Z :=
  match l with
  | [] => Raise ValueError
  | x :: xs => Ok (fold_left Z.max xs x)
  end.

(** ** The scale-level planner *)

Definition _round_like_scaling_method (value : float) : result Z :=
  math_ceil value.

Definition _scale_tagged_shape (original_tagged_shape : TaggedShape)
    (scaling : OrderedScaling) : result TaggedShape :=
  if forallb float_positive (Dict.values scaling) then
    l <- mapM (fun '(a, s) =>
                 match Dict.get a scaling with
                 | Some f =>
                     q <- int_truediv_float s f ;;
                     n <- _round_like_scaling_method q ;;
                     Ok (a, n)
                 | None => Ok (a, s)
                 end)
              (Dict.items original_tagged_shape) ;;
    Ok (ODict l)
  else Raise AssertionError.

Definition _is_less_than_4_chunks (new_shape : TaggedShape) (chunk_shape : Shape) : bool :=
  let spatial_shape :=
    map snd (filter (fun '(a, _) => in_axes a SPATIAL_AXES) (Dict.items new_shape)) in
  numpy_prod spatial_shape <? wrap64 (4 * numpy_prod chunk_shape).

Definition _reduces_any_axis_to_singleton (new_shape original_shape : Shape) : bool :=
  existsb (fun '(new, orig) => (new <=? 1) && (1 <? orig)) (combine new_shape original_shape).

Definition sanity_limit : nat := 20.

(** The scaling computed in iteration [i] of the loop. *)
Definition new_scaling (original_tagged_shape : TaggedShape) (i : nat)
  : result OrderedScaling :=
  l <- mapM (fun a =>
               if in_axes a SPATIAL_AXES then
                 n <- Dict.getitem a original_tagged_shape ;;
                 Ok (if 1 <? n then (a, pow2 (Z.of_nat i + 1)) else (a, Finite 1))
               else Ok (a, Finite 1))
            (Dict.keys original_tagged_shape) ;;
  Ok (ODict l).

(** The condition of the [break]; [or] and [and] evaluate their right
    operand only when the left one does not decide. *)
Definition exit_condition (original_tagged_shape new_shape : TaggedShape)
    (chunk_shape : Shape) (min_length : option Z) : result bool :=
  if _is_less_than_4_chunks new_shape chunk_shape then Ok true
  else if _reduces_any_axis_to_singleton (Dict.values new_shape)
                                         (Dict.values original_tagged_shape)
  then Ok true
  else match min_length with
       | None => Ok false
       | Some m =>
           if m =? 0 then Ok false
           else largest <- py_max (Dict.values new_shape) ;; Ok (largest <? m)
       end.

(** The [for] loop over the remaining values of [i]; [scalings] is the
    list built so far. *)
Fixpoint scalings_loop (original_tagged_shape : TaggedShape) (chunk_shape : Shape)
    (min_length : option Z) (range : list nat) (scalings : list OrderedScaling)
  : result (list OrderedScaling) :=
  match range with
  | [] => Ok scalings
  | i :: range' =>
      if Nat.eqb i sanity_limit then Raise ValueError
      else
        sc <- new_scaling original_tagged_shape i ;;
        new_shape <- _scale_tagged_shape original_tagged_shape sc ;;
        stop <- exit_condition original_tagged_shape new_shape chunk_shape min_length ;;
        if stop then Ok scalings
        else scalings_loop original_tagged_shape chunk_shape min_length range'
               (scalings ++ [sc])
  end.

Definition _get_scalings (original_tagged_shape : TaggedShape) (chunk_shape : Shape)
    (min_length : option Z) : result (list OrderedScaling) :=
  if Nat.eqb (List.length chunk_shape) (List.length original_tagged_shape) then
    let original_scale :=
      ODict (map (fun a => (a, Finite 1)) (Dict.keys original_tagged_shape)) in
    scalings_loop original_tagged_shape chunk_shape min_length
      (seq 0 sanity_limit) [original_scale]
  else Raise AssertionError.

(** ** Arrays and basic slicing *)

(** An n-dimensional array as numpy presents it: a shape and an element for
    every index vector inside the shape.  A basic slice is a view of its
    base array, that is, another shape and a map of indices. *)
Record ndarray (A : Type) : Type := mkArray {
  arr_shape : Shape;
  arr_at : list Z -> A
}.

Arguments mkArray {A} arr_shape arr_at.
Arguments arr_shape {A} n.
Arguments arr_at {A} n idx.

(** The index vector [p] lies inside [shape]. *)
Definition in_shape (shape : Shape) (p : list Z) : bool :=
  Nat.eqb (List.length p) (List.length shape)
  && forallb (fun '(i, n) => (0 <=? i) && (i <? n)) (combine p shape).

(** [slice(start, None, step).indices(n)]: the first index, the bound and
    the step; a zero step raises [ValueError]. *)
Definition slice_first (start step n : Z) : Z :=
  if 0 <? step then
    if start <? 0 then Z.max (start + n) 0 else Z.min start n
  else
    if start <? 0 then Z.max (start + n) (-1) else Z.min start (n - 1).

Definition slice_indices (start step n : Z) : result (Z * Z * Z) :=
  if step =? 0 then Raise ValueError
  else Ok (slice_first start step n, if 0 <? step then n else -1, step).

(** [len(range(lo, hi, step))] for a non-zero step. *)
Definition range_len (lo hi step : Z) : Z :=
  if 0 <? step then
    if lo <? hi then (hi - lo - 1) / step + 1 else 0
  else
    if hi <? lo then (lo - hi - 1) / (- step) + 1 else 0.

(** [data[slicing]] for a tuple of slices [slice(start, None, step)], given
    as pairs [(start, step)]: one slice per leading axis, the remaining axes
    are taken whole; more slices than axes raise [IndexError]. *)
Fixpoint view_shape (slicing : list (Z * Z)) (shape : Shape) : result Shape :=
  match slicing, shape with
  | [], _ => Ok shape
  | _ :: _, [] => Raise IndexError
  | (start, step) :: slicing', n :: shape' =>
      ind <- slice_indices start step n ;;
      rest <- view_shape slicing' shape' ;;
      let '(lo, hi, st) := ind in
      Ok (range_len lo hi st :: rest)
  end.

Fixpoint view_index (slicing : list (Z * Z)) (shape : Shape) (idx : list Z) : list Z :=
  match slicing, shape, idx with
  | (start, step) :: slicing', n :: shape', i :: idx' =>
      (slice_first start step n + i * step) :: view_index slicing' shape' idx'
  | _, _, _ => idx
  end.

Definition getitem_slices {A} (data : ndarray A) (slicing : list (Z * Z))
  : result (ndarray A) :=
  shape <- view_shape slicing (arr_shape data) ;;
  Ok (mkArray shape (fun idx => arr_at data (view_index slicing (arr_shape data) idx))).

(** ** The block downsampler *)

(** A region of interest: the start and the stop coordinates, half-open. *)
Definition ROI : Type := (list Z * list Z)%type.

(** [a % b] on integers, which raises on a zero divisor. *)
Definition py_mod (a b : Z) : result Z :=
  if b =? 0 then Raise ZeroDivisionError else Ok (a mod b).

Definition block_start_crops (starts scaling_int : list Z) : result (list Z) :=
  mapM (fun '(start, scale) =>
          m <- py_mod start scale ;;
          Ok (if 0 <? m then scale - m else 0))
       (combine starts scaling_int).

Definition scaled_coords (coords scaling_int : list Z) : result (list Z) :=
  mapM (fun '(c, scale) =>
          q <- int_truediv c scale ;;
          _round_like_scaling_method q)
       (combine coords scaling_int).

Definition _apply_scaling_method {A} (data : ndarray A) (current_block_roi : ROI)
    (scaling : OrderedScaling) : result (ndarray A * ROI) :=
  scaling_int <- mapM int_of_float (Dict.values scaling) ;;
  let starts := fst current_block_roi in
  crops <- block_start_crops starts scaling_int ;;
  let crop_and_downsample_slicing := combine crops scaling_int in
  scaled_starts <- scaled_coords starts scaling_int ;;
  scaled_stops <- scaled_coords (snd current_block_roi) scaling_int ;;
  let scaled_roi := (scaled_starts, scaled_stops) in
  scaled_data <- getitem_slices data crop_and_downsample_slicing ;;
  Ok (scaled_data, scaled_roi).

(** ** Blocks, level arrays and the per-block write *)

(** The index vector [p] lies inside the region [roi]. *)
Definition in_roi (p : list Z) (roi : ROI) : bool :=
  Nat.eqb (List.length p) (List.length (fst roi))
  && Nat.eqb (List.length p) (List.length (snd roi))
  && forallb (fun '(i, (a, b)) => (a <=? i) && (i <? b))
       (combine p (combine (fst roi) (snd roi))).

(** The extent of a region along every axis. *)
Definition roi_extent (roi : ROI) : Shape :=
  map (fun '(a, b) => b - a) (combine (fst roi) (snd roi)).

(** The region has one start and one stop per axis of [shape] and lies
    inside it. *)
Definition roi_within (shape : Shape) (roi : ROI) : bool :=
  Nat.eqb (List.length (fst roi)) (List.length shape)
  && Nat.eqb (List.length (snd roi)) (List.length shape)
  && forallb (fun '(n, (a, b)) => (0 <=? a) && (a <=? b) && (b <=? n))
       (combine shape (combine (fst roi) (snd roi))).

(** Modelled from the spec: the source provider (lazyflow's request
    streamer, not part of this module) delivers for a region of the level-0
    domain the data of the source array in that region, indexed from zero. *)
Definition block_of {A} (whole : ndarray A) (roi : ROI) : ndarray A :=
  mkArray (roi_extent roi)
    (fun idx => arr_at whole (map (fun '(a, i) => a + i) (combine (fst roi) idx))).

(** A level array of the store; a cell that was never written holds
    [None], as after [zarr.creation.empty]. *)
Record zarray (A : Type) : Type := mkZarray {
  z_shape : Shape;
  z_at : list Z -> option A
}.

Arguments mkZarray {A} z_shape z_at.
Arguments z_shape {A} z.
Arguments z_at {A} z idx.

Definition zarr_empty {A} (shape : Shape) : zarray A :=
  mkZarray shape (fun _ => None).

Definition shape_eqb (s1 s2 : Shape) : bool :=
  Nat.eqb (List.length s1) (List.length s2)
  && forallb (fun '(a, b) => a =? b) (combine s1 s2).

(** Modelled from the spec: the storage sink (zarr, with lazyflow's
    [roiToSlice], neither part of this module) writes a data block to an
    axis-aligned region of a level array; the region must lie inside the
    array and have the shape of the data, else the write fails. *)
Definition zarr_setitem {A} (z : zarray A) (roi : ROI) (data : ndarray A)
  : result (zarray A) :=
  if roi_within (z_shape z) roi && shape_eqb (arr_shape data) (roi_extent roi) then
    Ok (mkZarray (z_shape z)
          (fun idx =>
             if in_roi idx roi
             then Some (arr_at data (map (fun '(i, a) => i - a) (combine idx (fst roi))))
             else z_at z idx))
  else Raise ValueError.

(** The body of [scale_and_write_block] for one level above the first:
    the block is downsampled and written at the region it maps to. *)
Definition scale_and_write {A} (scaling : OrderedScaling) (z : zarray A)
    (roi : ROI) (data : ndarray A) : result (zarray A) :=
  sd <- _apply_scaling_method data roi scaling ;;
  zarr_setitem z (snd sd) (fst sd).

(** The blocks of the source array [whole] at the regions [rois] are
    delivered one after the other and written to the level array. *)
Fixpoint write_blocks {A} (scaling : OrderedScaling) (whole : ndarray A)
    (rois : list ROI) (z : zarray A) : result (zarray A) :=
  match rois with
  | [] => Ok z
  | roi :: rois' =>
      z' <- scale_and_write scaling z roi (block_of whole roi) ;;
      write_blocks scaling whole rois' z'
  end.

(** ** The chunk-shape planner *)

(** The element types of a source slot, with [dtype().nbytes]. *)
Inductive dtype : Type :=
| uint8 | int8 | uint16 | int16 | uint32 | int32 | float32
| uint64 | int64 | float64.

Definition nbytes (d : dtype) : Z :=
  match d with
  | uint8 | int8 => 1
  | uint16 | int16 => 2
  | uint32 | int32 | float32 => 4
  | uint64 | int64 | float64 => 8
  end.

(** What the planner reads of a slot: [meta.dtype] and
    [meta.getTaggedShape()], which builds a fresh dictionary on every
    call. *)
Record Slot : Type := mkSlot {
  meta_dtype : dtype;
  getTaggedShape : TaggedShape
}.

(** Modelled from the spec: [lazyflow.roi.determineBlockShape] is not among
    the sources.  The design document gives its contract: one chunk extent
    per axis, never exceeding that axis's own extent, never below 1, and no
    error conditions. *)
Definition determineBlockShape_spec (f : list Z -> Q -> list Z) : Prop :=
  forall (max_shape : list Z) (target : Q),
    Forall (fun m => 1 <= m) max_shape ->
    Forall2 (fun r m => 1 <= r <= m) (f max_shape target) max_shape.

(** Modelled from the spec: one planner that meets the contract, which
    gives every axis the target volume clamped between 1 and the extent of
    the axis. *)
Definition clamp_block_shape (max_shape : list Z) (target : Q) : list Z :=
  map (fun m => Z.min m (Z.max 1 (Qfloor target))) max_shape.

Section ChunkShape.

Variable determineBlockShape : list Z -> Q -> list Z.

Definition _get_chunk_shape (image_source_slot : Slot) : Shape :=
  let dtype_bytes := nbytes (meta_dtype image_source_slot) in
  let tagged_maxshape := getTaggedShape image_source_slot in
  let tagged_maxshape := Dict.set "t" 1 tagged_maxshape in
  let tagged_maxshape := Dict.set "c" 1 tagged_maxshape in
  determineBlockShape (Dict.values tagged_maxshape)
    (512000 / inject_Z dtype_bytes)%Q.

End ChunkShape.

(** ** The metadata writer *)

Record Signature : Type := mkSignature {
  sig_name : string;
  sig_version : string;
  ome_zarr_exporter_version : Z
}.

Record AxisEntry : Type := mkAxisEntry {
  axis_name : string;
  axis_type : string
}.

Record Transformation : Type := mkTransformation {
  tr_type : string;
  tr_scale : list float
}.

Record Dataset : Type := mkDataset {
  ds_path : string;
  coordinateTransformations : list Transformation
}.

Record Multiscale : Type := mkMultiscale {
  _creator : Signature;
  version : string;
  axes : list AxisEntry;
  datasets : list Dataset;
  name : option string
}.

(** The attributes set on one level array. *)
Record ArrayAttrs : Type := mkArrayAttrs {
  attr_axistags : list string;
  attr_display_mode : option string;
  attr_drange : option (Q * Q)
}.

(** What the writer leaves in the store: the [multiscales] attribute of the
    root group and the attributes of the level arrays, by path. *)
Record StoreAttrs : Type := mkStoreAttrs {
  multiscales : list Multiscale;
  array_attrs : list (string * ArrayAttrs)
}.

(** The [ilastik_meta] dictionary; [axistags] is the sequence of the tags'
    keys. *)
Record IlastikMeta : Type := mkIlastikMeta {
  axistags : list string;
  display_mode : option string;
  drange : option (Q * Q)
}.

(** The two parts [PathComponents] splits an export path into. *)
Record PathComponents : Type := mkPathComponents {
  externalPath : string;
  internalPath : option string
}.

(** [s.lstrip("/")] *)
Fixpoint lstrip_slash (s : string) : string :=
  match s with
  | String "/"%char s' => lstrip_slash s'
  | _ => s
  end.

(** Truth value of an optional string: [None] and the empty string are
    false. *)
Definition truthy (s : option string) : bool :=
  match s with
  | Some (String _ _) => true
  | _ => false
  end.

Definition axis_types : Dict.t string :=
  [("t", "time"); ("c", "channel"); ("z", "space"); ("y", "space"); ("x", "space")].

Section Metadata.

Variable ilastik_version : string.

(** The calls into the store, which is not part of this module; each
    returns or raises.  [zarr_group external_path] is
    [FSStore(external_path, mode="w", ...)] followed by
    [zarr.group(store, overwrite=False)], and
    [zarr_Array external_path path] is [zarr.Array(store, path=path)], which
    opens an array the store must hold. *)
Variable zarr_group : string -> result unit.
Variable zarr_Array : string -> string -> result unit.

Definition _write_ome_zarr_and_ilastik_metadata (pc : PathComponents)
    (multiscale_metadata : list ImageMetadata) (ilastik_meta : IlastikMeta)
  : result StoreAttrs :=
  let multiscale_name :=
    if truthy (internalPath pc) then option_map lstrip_slash (internalPath pc)
    else None in
  let ilastik_signature := mkSignature "ilastik" ilastik_version 1 in
  axes_ <- mapM (fun key =>
                   ty <- Dict.getitem key axis_types ;;
                   Ok (mkAxisEntry key ty))
                (axistags ilastik_meta) ;;
  datasets_ <- mapM (fun image =>
                       sc <- mapM (fun key => Dict.getitem key (scale image))
                                  (axistags ilastik_meta) ;;
                       Ok (mkDataset (path image) [mkTransformation "scale" sc]))
                    multiscale_metadata ;;
  let ome_zarr_multiscale_meta :=
    mkMultiscale ilastik_signature "0.4" axes_ datasets_
      (if truthy multiscale_name then multiscale_name else None) in
  root <- zarr_group (externalPath pc) ;;
  attrs <- mapM (fun image =>
                   za <- zarr_Array (externalPath pc) (path image) ;;
                   Ok (path image,
                       mkArrayAttrs (axistags ilastik_meta)
                         (if truthy (display_mode ilastik_meta)
                          then display_mode ilastik_meta else None)
                         (drange ilastik_meta)))
                multiscale_metadata ;;
  Ok (mkStoreAttrs [ome_zarr_multiscale_meta] attrs).

End Metadata.

(** ** Notions of the design document *)

(** The ceiling of the quotient [a / s]. *)
Definition ceil_div (a s : Z) : Z := Qceiling (inject_Z a / inject_Z s).

(** The scale of level [i]: every spatial axis whose original extent
    exceeds 1 gets factor 2^i, all other axes stay 1.0. *)
Definition level_scaling (original_tagged_shape : TaggedShape) (i : Z) : OrderedScaling :=
  map (fun '(a, n) =>
         (a, if in_axes a SPATIAL_AXES && (1 <? n) then pow2 i else Finite 1))
      original_tagged_shape.

(** The all-ones scale of level 0. *)
Definition all_ones (original_tagged_shape : TaggedShape) : OrderedScaling :=
  map (fun '(a, _) => (a, Finite 1)) original_tagged_shape.

(** Downsampling the whole array at once: decimate by stride, which keeps
    the samples at the positions 0, s, 2s, ... of every axis and so
    [ceil (n / s)] of them. *)
Definition scale_index (q ss : list Z) : list Z :=
  map (fun '(i, s) => i * s) (combine q ss).

Definition decimate {A} (whole : ndarray A) (ss : list Z) : ndarray A :=
  mkArray (map (fun '(n, s) => ceil_div n s) (combine (arr_shape whole) ss))
    (fun q => arr_at whole (scale_index q ss)).

(** The regions [blocks] partition the domain of [shape]: each lies inside
    it and every point of it belongs to exactly one of them. *)
Definition is_partition (shape : Shape) (blocks : list ROI) : Prop :=
  Forall (fun roi => roi_within shape roi = true) blocks
  /\ forall p, in_shape shape p = true ->
       List.length (filter (in_roi p) blocks) = 1%nat.

(** The region a block region maps to at integer scales [ss]. *)
Definition target_roi (ss : list Z) (roi : ROI) : ROI :=
  (map (fun '(a, s) => ceil_div a s) (combine (fst roi) ss),
   map (fun '(b, s) => ceil_div b s) (combine (snd roi) ss)).

(** The integer factor of an axis at level [k]. *)
Definition level_factor (k : Z) (an : string * Z) : Z :=
  if in_axes (fst an) SPATIAL_AXES && (1 <? snd an) then 2 ^ k else 1.

(** The shape of level [k]: the extents of the original shape divided by
    the factors of the level, rounded up. *)
Definition level_shape (shape : TaggedShape) (k : Z) : TaggedShape :=
  map (fun an => (fst an, ceil_div (snd an) (level_factor k an))) shape.

(** ** The export coordinator *)

(** [str(i)] for a non-negative integer. *)
Definition str_of_nat (i : nat) : string :=
  NilEmpty.string_of_uint (Nat.to_uint i).

(** The path of level [i]: [f"{internal_path}/s{i}"] when there is a
    non-empty internal path, else [f"s{i}"]. *)
Definition scale_path (internal_path : option string) (i : nat) : string :=
  match internal_path with
  | Some p => if truthy internal_path
              then (p ++ "/s" ++ str_of_nat i)%string
              else ("s" ++ str_of_nat i)%string
  | None => ("s" ++ str_of_nat i)%string
  end.

(** [l[i]] and [l[i] = x] on a list. *)
Definition list_getitem {X : Type} (l : list X) (i : nat) : result X :=
  match nth_error l i with
  | Some x => Ok x
  | None => Raise IndexError
  end.

Fixpoint list_setitem {X : Type} (l : list X) (i : nat) (x : X) : list X :=
  match l, i with
  | [], _ => []
  | _ :: l', O => x :: l'
  | y :: l', S i' => y :: list_setitem l' i' x
  end.

(** The first loop of [_compute_and_write_scales], from index [i] on: one
    empty array of the scaled shape and one metadata record per scaling. *)
Fixpoint create_levels {A : Type} (internal_path : option string)
    (tagged_shape : TaggedShape) (i : nat) (scalings : list OrderedScaling)
  : result (list (zarray A) * list ImageMetadata) :=
  match scalings with
  | [] => Ok ([], [])
  | scaling :: scalings' =>
      scaled_shape <- _scale_tagged_shape tagged_shape scaling ;;
      rest <- create_levels internal_path tagged_shape (S i) scalings' ;;
      Ok (zarr_empty (Dict.values scaled_shape) :: fst rest,
          mkImageMetadata (scale_path internal_path i) scaling [] :: snd rest)
  end.

(** The loop of [scale_and_write_block] from index [i_] on.  Writing into
    [zarrays_[i_]] changes that array of the store; the list holds the
    arrays' contents. *)
Fixpoint scale_and_write_levels {A : Type} (i_ : nat)
    (scalings_ : list OrderedScaling) (zarrays_ : list (zarray A))
    (roi : ROI) (data : ndarray A) : result (list (zarray A)) :=
  match scalings_ with
  | [] => Ok zarrays_
  | scaling_ :: scalings' =>
      sd <- (if (0 <? i_)%nat
             then _apply_scaling_method data roi scaling_
             else Ok (data, roi)) ;;
      z <- list_getitem zarrays_ i_ ;;
      z' <- zarr_setitem z (snd sd) (fst sd) ;;
      scale_and_write_levels (S i_) scalings' (list_setitem zarrays_ i_ z') roi data
  end.

Definition scale_and_write_block {A : Type} (scalings_ : list OrderedScaling)
    (zarrays_ : list (zarray A)) (roi : ROI) (data : ndarray A)
  : result (list (zarray A)) :=
  scale_and_write_levels 0 scalings_ zarrays_ roi data.

(** Modelled from the spec: the request streamer (not part of this module)
    delivers the blocks of the source array at the regions [rois], one after
    the other, to the subscribed [scale_and_write_block]. *)
Fixpoint stream_blocks {A : Type} (scalings : list OrderedScaling)
    (zarrays : list (zarray A)) (whole : ndarray A) (rois : list ROI)
  : result (list (zarray A)) :=
  match rois with
  | [] => Ok zarrays
  | roi :: rois' =>
      zarrays' <- scale_and_write_block scalings zarrays roi (block_of whole roi) ;;
      stream_blocks scalings zarrays' whole rois'
  end.

Section Coordinator.

Variable determineBlockShape : list Z -> Q -> list Z.

(** [whole] is the data of the slot and [blocks] the regions the streamer
    splits it into; the result is the contents of the level arrays in the
    store and the returned metadata. *)
Definition _compute_and_write_scales {A : Type} (pc : PathComponents)
    (image_source_slot : Slot) (whole : ndarray A) (blocks : list ROI)
    (min_length : option Z) : result (list (zarray A) * list ImageMetadata) :=
  let internal_path :=
    if truthy (internalPath pc) then option_map lstrip_slash (internalPath pc)
    else None in
  let chunk_shape := _get_chunk_shape determineBlockShape image_source_slot in
  scalings <- _get_scalings (getTaggedShape image_source_slot) chunk_shape min_length ;;
  created <- create_levels internal_path (getTaggedShape image_source_slot) 0 scalings ;;
  zarrays <- stream_blocks scalings (fst created) whole blocks ;;
  Ok (zarrays, snd created).

End Coordinator.

(** The integer factors the downsampler reads off a scaling with finite
    factors; a factor that is not finite has none, and 0 stands in its
    place. *)
Definition int_scaling (scaling : OrderedScaling) : list Z :=
  map (fun f => match f with Finite q => truncate q | _ => 0 end)
      (Dict.values scaling).

(** ** The N5 sequence reader

    The static methods of [OpStreamingN5SequenceReaderS] and the choice of
    the stacking axis in its [setupOutputs].  Strings are sequences of code
    points below 256. *)

Module N5.

(** The exceptions these methods can end in. *)
Inductive error : Type :=
| WrongFileTypeError
| NotTheSameFileError
| NoInternalPlaceholderError
| ExternalPlaceholderError
| NameError
| AttributeError
| AssertionError
| IndexError.

Inductive outcome (X : Type) : Type :=
| Done (x : X)
| Fail (e : error).

Arguments Done {X} x.
Arguments Fail {X} e.

(** What the methods read of a [PathComponents] object. *)
Record PathComponents : Type := mkPathComponents {
  externalPath : string;
  internalPath : option string;
  extension : option string
}.

(** [c.isspace()] for a code point below 256. *)
Definition is_space (c : ascii) : bool :=
  let n := nat_of_ascii c in
  ((9 <=? n) && (n <=? 13) || (28 <=? n) && (n <=? 32)
   || Nat.eqb n 133 || Nat.eqb n 160)%nat.

Fixpoint lstrip (s : string) : string :=
  match s with
  | String c s' => if is_space c then lstrip s' else s
  | EmptyString => EmptyString
  end.

Fixpoint rstrip (s : string) : string :=
  match s with
  | EmptyString => EmptyString
  | String c s' =>
      match rstrip s' with
      | EmptyString => if is_space c then EmptyString else String c EmptyString
      | r => String c r
      end
  end.

(** [s.strip()] *)
Definition strip (s : string) : string := rstrip (lstrip s).

(** [s.split(sep)] for a separator of one character. *)
Fixpoint split (sep : ascii) (s : string) : list string :=
  match s with
  | EmptyString => [EmptyString]
  | String c s' =>
      if Ascii.eqb c sep then EmptyString :: split sep s'
      else match split sep s' with
           | x :: xs => String c x :: xs
           | [] => [String c EmptyString]
           end
  end.

(** [c in s] for a character [c]. *)
Fixpoint char_in (c : ascii) (s : string) : bool :=
  match s with
  | EmptyString => false
  | String d s' => Ascii.eqb c d || char_in c s'
  end.

(** [a in l] for a list of strings. *)
Definition str_in (a : string) (l : list string) : bool :=
  existsb (String.eqb a) l.

(** [sorted(l)] on strings, which Python orders by code points. *)
Fixpoint insert_sorted (x : string) (l : list string) : list string :=
  match l with
  | [] => [x]
  | y :: l' => if String.leb x y then x :: l else y :: insert_sorted x l'
  end.

Definition sorted (l : list string) : list string :=
  fold_right insert_sorted [] l.

Section Reader.

(** [os.path.pathsep], the constructor of [PathComponents] and the constant
    [OpStreamingN5Reader.N5EXTS]; none of them is defined in this module. *)
Variable pathsep : ascii.
Variable PathComponents_of : string -> PathComponents.
Variable N5EXTS : list string.

(** [raise OpStreamingN5SequenceReaderS.WrongFileTypeError(globString)].
    The constructor of the exception calls
    [super(OpStreamingHd5SequenceReaderS.WrongFileTypeError, self)], and the
    module binds no name [OpStreamingHd5SequenceReaderS]: the call ends in
    [NameError] before the exception object exists. *)
Definition raise_WrongFileTypeError {X : Type} (globString : string) : outcome X :=
  Fail NameError.

(** [p.extension in N5EXTS] *)
Definition extension_known (p : PathComponents) : bool :=
  match extension p with
  | Some e => str_in e N5EXTS
  | None => false
  end.

Definition checkGlobString (globString : string) : outcome unit :=
  let pathStrings := split pathsep globString in
  let pathComponents := map (fun p => PathComponents_of (strip p)) pathStrings in
  if (0 <? List.length pathComponents)%nat then
    if negb (forallb extension_known pathComponents)
    then raise_WrongFileTypeError globString
    else
      match pathComponents with
      | [p0] =>
          match internalPath p0 with
          | None => Fail NoInternalPlaceholderError
          | Some ip =>
              if negb (char_in "*" ip) then Fail NoInternalPlaceholderError
              else if char_in "*" (externalPath p0) then Fail ExternalPlaceholderError
              else Done tt
          end
      | p0 :: rest =>
          let sameExternal :=
            forallb (fun x => String.eqb (externalPath p0) (externalPath x)) rest in
          if negb sameExternal then Fail NotTheSameFileError
          else if char_in "*" (externalPath p0) then Fail ExternalPlaceholderError
          else Done tt
      | [] => Fail IndexError
      end
  else Fail AssertionError.

(** [globHdf5N5(n5File, pattern)] for the opened file; not defined in this
    module. *)
Variable globHdf5N5 : string -> list string.

(** The loop of [expandGlobStrings] over the remaining glob strings;
    [internalPath.lstrip] of a missing internal path is an
    [AttributeError]. *)
Fixpoint expand_loop (globs : list string) (ret : list string)
  : outcome (list string) :=
  match globs with
  | [] => Done ret
  | globString :: globs' =>
      let s := strip globString in
      let components := PathComponents_of s in
      match internalPath components with
      | None => Fail AttributeError
      | Some ip => expand_loop globs' (ret ++ sorted (globHdf5N5 (lstrip_slash ip)))
      end
  end.

Definition expandGlobStrings (globStrings : string) : outcome (list string) :=
  expand_loop (split pathsep globStrings) [].

End Reader.

(** The loop [for new_axis in 'tzc0'] of [setupOutputs]: the value of
    [new_axis] when the loop is left. *)
Fixpoint axis_loop (candidates slice_axes : list string) (new_axis : string) : string :=
  match candidates with
  | [] => new_axis
  | c :: candidates' =>
      if negb (str_in c slice_axes) then c
      else axis_loop candidates' slice_axes c
  end.

(** The axis [setupOutputs] stacks the volumes along, from the value of the
    [SequenceAxis] slot, if it is ready, and the axis keys of the first
    volume. *)
Definition choose_new_axis (sequence_axis : option string) (slice_axes : list string)
  : outcome string :=
  match sequence_axis with
  | Some new_axis =>
      match new_axis with
      | String c EmptyString =>
          if char_in c "tzyxc" then Done new_axis else Fail AssertionError
      | _ => Fail AssertionError
      end
  | None =>
      let new_axis := axis_loop ["t"; "z"; "c"; "0"] slice_axes EmptyString in
      if String.eqb new_axis "0" then
        match slice_axes with
        | a :: _ => Done a
        | [] => Fail IndexError
        end
      else Done new_axis
  end.

End N5.

(** ** Auxiliary notions of the proofs *)

(** The extent [_scale_tagged_shape] computes for an axis of extent [s] and
    factor [f]. *)
Definition scaled_extent (s : Z) (f : float) : result Z :=
  q <- int_truediv_float s f ;; _round_like_scaling_method q.

(** The float factor of an axis at level [k]. *)
Definition level_float (k : Z) (an : string * Z) : float :=
  if in_axes (fst an) SPATIAL_AXES && (1 <? snd an) then pow2 k else Finite 1.

(** The shape the planner computes for level [k] when every extent converts
    to a float. *)
Definition planned_extent (k : Z) (an : string * Z) : Z :=
  match scaled_extent (snd an) (level_float k an) with
  | Ok n => n
  | Raise _ => 0
  end.

Definition planned_shape (shape : TaggedShape) (k : Z) : TaggedShape :=
  map (fun an => (fst an, planned_extent k an)) shape.

(** A number is representable when rounding leaves it unchanged. *)
Definition representable (d : Q) : Prop := (round_magnitude d == d)%Q.

(** Two floats of the same value. *)
Definition float_eq (x y : float) : Prop :=
  match x, y with
  | Finite a, Finite b => (a == b)%Q
  | Infinity s, Infinity s' => s = s'
  | NaN, NaN => True
  | _, _ => False
  end.

(** Coordinates moved by [k] steps of the sampling grid along every axis. *)
Definition shift_coords (coords ks ss : list Z) : list Z :=
  map (fun '(c, (k, s)) => c + k * s) (combine coords (combine ks ss)).

(** The crop of a block start: the distance to the next position of the
    sampling grid. *)
Definition crop_of (start scale : Z) : Z :=
  if 0 <? start mod scale then scale - start mod scale else 0.

(** The shape of the view [data[c1::s1, ..., cn::sn]] for positive steps. *)
Definition sliced_shape (slicing : list (Z * Z)) (shape : Shape) : Shape :=
  map (fun '((c, s), n) => range_len (slice_first c s n) n s)
      (combine slicing shape).

(** The slicing the downsampler applies to a block that starts at
    [starts]. *)
Definition block_slicing (starts ss : list Z) : list (Z * Z) :=
  combine (map (fun '(a, s) => crop_of a s) (combine starts ss)) ss.

(** The index vector [idx] names a sample the slicing keeps. *)
Definition on_block_grid (slicing : list (Z * Z)) (shape : Shape) (idx : list Z) : bool :=
  Nat.eqb (List.length idx) (List.length shape)
  && forallb (fun '(i, ((c, s), n)) => (0 <=? i) && (c + i * s <? n))
       (combine idx (combine slicing shape)).

(** What [d[a] = v] does to one entry. *)
Definition upd {V : Type} (a : string) (v : V) (kw : string * V) : string * V :=
  if String.eqb a (fst kw) then (fst kw, v) else kw.

(** The extent the planner hands on for an axis: 1 for t and c. *)
Definition forced_extent (an : string * Z) : Z :=
  if String.eqb "c" (fst an) || String.eqb "t" (fst an) then 1 else snd an.

Ltac bool_cases :=
  repeat match goal with
         | |- context [?x <=? ?y] => destruct (Z.leb_spec x y)
         | |- context [?x <? ?y] => destruct (Z.ltb_spec x y)
         end;
  simpl; try reflexivity; exfalso.

(** The origin of an array of the given shape. *)
Definition origin (shape : Shape) : list Z := map (fun _ => 0) shape.

(** One pass of the loop body of [scale_and_write_block] on the array of
    level [i_]. *)
Definition level_step {A : Type} (i_ : nat) (scaling_ : OrderedScaling)
    (z : zarray A) (roi : ROI) (data : ndarray A) : result (zarray A) :=
  sd <- (if (0 <? i_)%nat
         then _apply_scaling_method data roi scaling_
         else Ok (data, roi)) ;;
  zarr_setitem z (snd sd) (fst sd).

(** What a scaling must satisfy for the write of a block at a level. *)
Definition level_ready {A : Type} (whole : ndarray A) (k : nat)
    (sc : OrderedScaling) : Prop :=
  mapM int_of_float (Dict.values sc) = Ok (int_scaling sc)
  /\ Forall (fun s => 0 < s) (int_scaling sc)
  /\ Forall (fun s => s <= 2 ^ 1074) (int_scaling sc)
  /\ (k = 0%nat -> Forall (fun s => s = 1) (int_scaling sc))
  /\ List.length (arr_shape whole) = List.length (int_scaling sc).

(** The internal path the coordinator derives from the export path. *)
Definition internal_path_of (pc : PathComponents) : option string :=
  if truthy (internalPath pc) then option_map lstrip_slash (internalPath pc)
  else None.

(** The entry of [axes] for a tag and the scale vector of an image. *)
Definition axis_entry (key : string) : AxisEntry :=
  mkAxisEntry key (match Dict.get key axis_types with Some ty => ty | None => "" end).

Definition scale_vector (tags : list string) (image : ImageMetadata) : list float :=
  map (fun key => match Dict.get key (scale image) with Some f => f | None => Finite 0 end)
      tags.

(** ** Inputs of the scenarios *)

(** An 8 x 8 image in the axis order the exporter uses, with 4 x 4 chunks. *)
Definition scenario1_shape : TaggedShape :=
  [("t", 1); ("c", 1); ("z", 1); ("y", 8); ("x", 8)].

Definition scenario1_chunks : Shape := [1; 1; 1; 4; 4].

(** A single row of 2^20 * 2048000 samples with the 512000-sample chunks
    the chunk planner derives for one-byte elements. *)
Definition long_row_shape : TaggedShape :=
  [("t", 1); ("c", 1); ("z", 1); ("y", 1); ("x", 2147483648000)].

Definition long_row_chunks : Shape := [1; 1; 1; 1; 512000].

(** A row of [n] samples, each holding its own position. *)
Definition ramp (n : Z) : ndarray Z := mkArray [n] (fun idx => hd 0 idx).

(** Two adjacent blocks of a row of 20 samples, split at 10. *)
Definition scenario3_blocks : list ROI := [([0], [10]); ([10], [20])].

Definition x_scaling (f : float) : OrderedScaling := [("x", f)].

(** Metadata of a two-level export in the axis order t, c, z, y, x. *)
Definition tczyx : list string := ["t"; "c"; "z"; "y"; "x"].

Definition two_levels : list ImageMetadata :=
  [mkImageMetadata "s0" (all_ones scenario1_shape) [];
   mkImageMetadata "s1" (level_scaling scenario1_shape 1) []].

(** The slot of an 8 x 8 image of bytes. *)
Definition scenario1_slot : Slot := mkSlot uint8 scenario1_shape.

(** Modelled from the spec: a second planner that meets the contract of
    [determineBlockShape], with chunks of one sample. *)
Definition unit_block_shape (max_shape : list Z) (target : Q) : list Z :=
  map (fun _ => 1) max_shape.

(** A row of 20 samples in the axis order t, c, x, and its two halves. *)
Definition row_slot : Slot := mkSlot uint8 [("t", 1); ("c", 1); ("x", 20)].

Definition row_data : ndarray Z := mkArray [1; 1; 20] (fun idx => nth 2 idx 0).

Definition row_blocks : list ROI :=
  [([0; 0; 0], [1; 1; 10]); ([0; 0; 10], [1; 1; 20])].

(** A parser for the example paths: the external path ends with the first
    [.n5], the rest, if any, is the internal path. *)
Fixpoint split_n5 (s : string) : option (string * string) :=
  match s with
  | EmptyString => None
  | String c s' =>
      if String.prefix ".n5" s
      then Some (".n5", String.substring 3 (String.length s - 3) s)
      else match split_n5 s' with
           | Some (e, i) => Some (String c e, i)
           | None => None
           end
  end.

Definition example_parse (s : string) : N5.PathComponents :=
  match split_n5 s with
  | Some (e, EmptyString) => N5.mkPathComponents e None (Some ".n5")
  | Some (e, i) => N5.mkPathComponents e (Some i) (Some ".n5")
  | None => N5.mkPathComponents s None None
  end.

(** * Properties *)

(** ** Floats *)

Lemma two_power_pos (k : Z) : (0 < two_power k)%Q.
Proof. apply Qpower_0_lt. reflexivity. Qed.

Lemma two_power_add (a b : Z) : (two_power (a + b) == two_power a * two_power b)%Q.
Proof. apply Qpower_plus. discriminate. Qed.

Lemma two_power_lt (a b : Z) : a < b -> (two_power a < two_power b)%Q.
Proof. intros H. apply Qpower_lt_compat_l; [exact H | reflexivity]. Qed.

Lemma two_power_le (a b : Z) : a <= b -> (two_power a <= two_power b)%Q.
Proof. intros H. apply Qpower_le_compat_l; [exact H | discriminate]. Qed.

Lemma two_power_lt_inv (a b : Z) : (two_power a < two_power b)%Q -> a < b.
Proof. intros H. apply (Qpower_lt_compat_l_inv 2); [exact H | reflexivity]. Qed.

Lemma two_power_Z (k : Z) : 0 <= k -> (two_power k == inject_Z (2 ^ k))%Q.
Proof. intros H. unfold two_power. rewrite Zpower_Qpower by exact H. reflexivity. Qed.

Lemma two_power_0 : (two_power 0 == 1)%Q.
Proof. reflexivity. Qed.

Lemma two_power_succ (k : Z) : (two_power (k + 1) == 2 * two_power k)%Q.
Proof. rewrite two_power_add. change (two_power 1) with 2%Q. ring. Qed.

Lemma two_power_opp (k : Z) : (two_power (- k) == / two_power k)%Q.
Proof. apply Qpower_opp. Qed.

Lemma two_power_div (x : Q) (k : Z) : (x / two_power k == x * two_power (- k))%Q.
Proof. rewrite two_power_opp. reflexivity. Qed.

(** The binade of a positive number. *)
Lemma Q_as_quotient (x : Q) : (x * inject_Z (Zpos (Qden x)) == inject_Z (Qnum x))%Q.
Proof.
  destruct x as [n d]. unfold Qeq, Qmult, inject_Z. simpl. rewrite Pos.mul_1_r. ring.
Qed.

Lemma binade_spec (x : Q) :
  (0 < x)%Q -> (two_power (binade x) <= x /\ x < two_power (binade x + 1))%Q.
Proof.
  intros Hx.
  pose proof (Q_as_quotient x) as Hq.
  set (n := Qnum x) in *. set (d := Zpos (Qden x)) in *.
  assert (Hn : 0 < n).
  { unfold n. destruct x as [xn xd]. unfold Qlt in Hx. simpl in *. lia. }
  assert (Hd : 0 < d) by (unfold d; lia).
  pose proof (Z.log2_spec n Hn) as [Hn1 Hn2].
  pose proof (Z.log2_spec d Hd) as [Hd1 Hd2].
  pose proof (Z.log2_nonneg n) as Ln. pose proof (Z.log2_nonneg d) as Ld.
  set (L := Z.log2 n) in *. set (M := Z.log2 d) in *.
  assert (HnQ1 : (two_power L <= inject_Z n)%Q).
  { rewrite two_power_Z by exact Ln. rewrite <- Zle_Qle. exact Hn1. }
  assert (HnQ2 : (inject_Z n < two_power (L + 1))%Q).
  { rewrite two_power_Z by lia. rewrite <- Zlt_Qlt. replace (L + 1) with (Z.succ L) by lia. exact Hn2. }
  assert (HdQ1 : (two_power M <= inject_Z d)%Q).
  { rewrite two_power_Z by exact Ld. rewrite <- Zle_Qle. exact Hd1. }
  assert (HdQ2 : (inject_Z d < two_power (M + 1))%Q).
  { rewrite two_power_Z by lia. rewrite <- Zlt_Qlt. replace (M + 1) with (Z.succ M) by lia. exact Hd2. }
  assert (Hup : (x < two_power (L - M + 1))%Q).
  { assert (E : (two_power (L + 1) == two_power (L - M + 1) * two_power M)%Q).
    { rewrite <- two_power_add. replace (L - M + 1 + M) with (L + 1) by lia. reflexivity. }
    pose proof (two_power_pos M). pose proof (two_power_pos (L - M + 1)).
    assert (x * two_power M < two_power (L - M + 1) * two_power M)%Q by nra.
    nra. }
  assert (Hlo : (two_power (L - M - 1) < x)%Q).
  { assert (E : (two_power L == two_power (L - M - 1) * two_power (M + 1))%Q).
    { rewrite <- two_power_add. replace (L - M - 1 + (M + 1)) with L by lia. reflexivity. }
    pose proof (two_power_pos (M + 1)). pose proof (two_power_pos (L - M - 1)).
    assert (two_power (L - M - 1) * two_power (M + 1) < x * two_power (M + 1))%Q by nra.
    nra. }
  unfold binade. fold n d L M.
  destruct (Qle_bool (two_power (L - M)) x) eqn:Hb.
  - apply Qle_bool_iff in Hb. split; assumption.
  - assert (Hlt : (x < two_power (L - M))%Q).
    { apply Qnot_le_lt. intros H. apply Qle_bool_iff in H. congruence. }
    replace (L - M - 1 + 1) with (L - M) by lia. split; [apply Qlt_le_weak; exact Hlo | exact Hlt].
Qed.

Lemma binade_unique (x : Q) (k : Z) :
  (two_power k <= x)%Q -> (x < two_power (k + 1))%Q -> binade x = k.
Proof.
  intros H1 H2.
  assert (Hx : (0 < x)%Q) by (pose proof (two_power_pos k); lra).
  destruct (binade_spec x Hx) as [B1 B2].
  assert (binade x < k + 1) by (apply two_power_lt_inv; lra).
  assert (k < binade x + 1) by (apply two_power_lt_inv; lra).
  lia.
Qed.

Lemma binade_mono (x y : Q) : (0 < x)%Q -> (x <= y)%Q -> binade x <= binade y.
Proof.
  intros Hx Hxy.
  destruct (binade_spec x Hx) as [B1 B2].
  destruct (binade_spec y ltac:(lra)) as [C1 C2].
  assert (binade x < binade y + 1) by (apply two_power_lt_inv; lra).
  lia.
Qed.

Lemma binade_comp (x y : Q) : (0 < x)%Q -> (x == y)%Q -> binade x = binade y.
Proof.
  intros Hx Hxy. destruct (binade_spec x Hx) as [B1 B2].
  symmetry. apply binade_unique; lra.
Qed.

Lemma round_half_even_cases (t : Q) :
  let f := Qfloor t in
  (inject_Z f <= t)%Q /\ (t < inject_Z f + 1)%Q
  /\ ((round_half_even t = f /\ (t - inject_Z f <= 1 # 2)%Q)
      \/ (round_half_even t = f + 1 /\ (1 # 2 <= t - inject_Z f)%Q)).
Proof.
  intros f. pose proof (Qfloor_le t) as H1. pose proof (Qlt_floor t) as H2.
  fold f in H1, H2. rewrite inject_Z_plus in H2. change (inject_Z 1) with 1%Q in H2.
  split; [exact H1|]. split; [exact H2|].
  unfold round_half_even. fold f.
  destruct (t - inject_Z f ?= 1 # 2)%Q eqn:C.
  - rewrite <- Qeq_alt in C. destruct (Z.even f); [left | right]; split; try reflexivity; lra.
  - rewrite <- Qlt_alt in C. left. split; [reflexivity | lra].
  - rewrite <- Qgt_alt in C. right. split; [reflexivity | lra].
Qed.

Lemma inject_Z_lt_add1 (a b : Z) : (inject_Z a < inject_Z b + 1)%Q -> a <= b.
Proof.
  intros H. assert (H' : (inject_Z a < inject_Z (b + 1))%Q).
  { rewrite inject_Z_plus. exact H. }
  rewrite <- Zlt_Qlt in H'. lia.
Qed.

Lemma round_half_even_ge (t : Q) (k : Z) : (inject_Z k <= t)%Q -> k <= round_half_even t.
Proof.
  intros H. destruct (round_half_even_cases t) as [H1 [H2 Hc]].
  assert (k <= Qfloor t) by (apply inject_Z_lt_add1; lra).
  destruct Hc as [[-> _]|[-> _]]; lia.
Qed.

Lemma round_half_even_le (t : Q) (k : Z) : (t <= inject_Z k)%Q -> round_half_even t <= k.
Proof.
  intros H. destruct (round_half_even_cases t) as [H1 [H2 Hc]].
  assert (Hf : Qfloor t <= k) by (rewrite Zle_Qle; lra).
  destruct Hc as [[-> _]|[-> Hh]]; [lia|].
  assert (Hlt : (inject_Z (Qfloor t) < inject_Z k)%Q) by lra.
  rewrite <- Zlt_Qlt in Hlt. lia.
Qed.

Lemma round_half_even_up (t : Q) (k : Z) :
  (inject_Z k + (1 # 2) < t)%Q -> k + 1 <= round_half_even t.
Proof.
  intros H. destruct (round_half_even_cases t) as [H1 [H2 Hc]].
  assert (k <= Qfloor t) by (apply inject_Z_lt_add1; lra).
  destruct Hc as [[-> Hh]|[-> _]]; [|lia].
  assert (Hlt : (inject_Z k < inject_Z (Qfloor t))%Q) by lra.
  rewrite <- Zlt_Qlt in Hlt. lia.
Qed.

Lemma round_half_even_down (t : Q) (k : Z) :
  (t < inject_Z k - (1 # 2))%Q -> round_half_even t <= k - 1.
Proof.
  intros H. destruct (round_half_even_cases t) as [H1 [H2 Hc]].
  assert (Hf : (inject_Z (Qfloor t) < inject_Z k)%Q) by lra.
  rewrite <- Zlt_Qlt in Hf.
  destruct Hc as [[-> _]|[-> Hh]]; [lia|].
  assert (Hlt : (inject_Z (Qfloor t) + 1 < inject_Z k)%Q) by lra.
  assert (Hlt' : (inject_Z (Qfloor t + 1) < inject_Z k)%Q) by (rewrite inject_Z_plus; exact Hlt).
  rewrite <- Zlt_Qlt in Hlt'. lia.
Qed.

Lemma round_half_even_Z (t : Q) (k : Z) : (t == inject_Z k)%Q -> round_half_even t = k.
Proof.
  intros H. apply Z.le_antisymm.
  - apply round_half_even_le. lra.
  - apply round_half_even_ge. lra.
Qed.

Lemma round_half_even_comp (t t' : Q) : (t == t')%Q -> round_half_even t = round_half_even t'.
Proof.
  intros H. unfold round_half_even.
  assert (Hf : Qfloor t = Qfloor t') by (apply Qfloor_comp; exact H).
  assert (Hc : (t - inject_Z (Qfloor t) ?= 1 # 2)%Q = (t' - inject_Z (Qfloor t') ?= 1 # 2)%Q).
  { apply Qcompare_comp; [|reflexivity]. rewrite Hf, H. reflexivity. }
  rewrite Hc, Hf. reflexivity.
Qed.

(** ** Rounding a positive number *)

Lemma quantum_spec (x : Q) : quantum x = binade x - 52 \/ (quantum x = -1074 /\ binade x - 52 < -1074).
Proof. unfold quantum. lia. Qed.

Lemma quantum_mono (x y : Q) : (0 < x)%Q -> (x <= y)%Q -> quantum x <= quantum y.
Proof.
  intros Hx Hxy. pose proof (binade_mono x y Hx Hxy). unfold quantum. lia.
Qed.

Lemma quantum_comp (x y : Q) : (0 < x)%Q -> (x == y)%Q -> quantum x = quantum y.
Proof. intros Hx Hxy. unfold quantum. rewrite (binade_comp x y Hx Hxy). reflexivity. Qed.

(** The scaled value [x / 2^u] lies below [2^53]. *)
Lemma scaled_below (x : Q) :
  (0 < x)%Q -> (x / two_power (quantum x) < inject_Z (2 ^ 53))%Q.
Proof.
  intros Hx. destruct (binade_spec x Hx) as [B1 B2].
  set (u := quantum x). pose proof (two_power_pos u) as Hu.
  apply Qlt_shift_div_r; [exact Hu|].
  rewrite <- two_power_Z by lia. rewrite <- two_power_add.
  assert (binade x + 1 <= 53 + u) by (unfold u, quantum; lia).
  pose proof (two_power_le _ _ H). lra.
Qed.

Lemma scaled_above (x : Q) :
  (0 < x)%Q -> quantum x = binade x - 52 ->
  (inject_Z (2 ^ 52) <= x / two_power (quantum x))%Q.
Proof.
  intros Hx Hq. destruct (binade_spec x Hx) as [B1 B2].
  pose proof (two_power_pos (quantum x)) as Hu.
  apply Qle_shift_div_l; [exact Hu|].
  rewrite <- two_power_Z by lia. rewrite <- two_power_add.
  rewrite Hq. replace (52 + (binade x - 52)) with (binade x) by lia. exact B1.
Qed.

Lemma round_magnitude_comp (x y : Q) :
  (0 < x)%Q -> (x == y)%Q -> (round_magnitude x == round_magnitude y)%Q.
Proof.
  intros Hx Hxy. unfold round_magnitude.
  rewrite (quantum_comp x y Hx Hxy).
  rewrite (round_half_even_comp (x / two_power (quantum y)) (y / two_power (quantum y))).
  - reflexivity.
  - rewrite Hxy. reflexivity.
Qed.

Lemma round_magnitude_nonneg (x : Q) : (0 < x)%Q -> (0 <= round_magnitude x)%Q.
Proof.
  intros Hx. unfold round_magnitude.
  pose proof (two_power_pos (quantum x)) as Hu.
  assert (0 <= round_half_even (x / two_power (quantum x))).
  { apply round_half_even_ge. apply Qle_shift_div_l; [exact Hu|].
    change (inject_Z 0) with 0%Q. lra. }
  apply Qmult_le_0_compat; [|lra].
  change 0%Q with (inject_Z 0). rewrite <- Zle_Qle. exact H.
Qed.

Lemma Qdiv_le_compat (a b c : Q) : (0 < c)%Q -> (a <= b)%Q -> (a / c <= b / c)%Q.
Proof.
  intros Hc Hab. unfold Qdiv. apply Qmult_le_compat_r; [exact Hab|].
  apply Qlt_le_weak, Qinv_lt_0_compat. exact Hc.
Qed.

Lemma representable_scaled (d : Q) :
  (0 < d)%Q -> representable d ->
  (d / two_power (quantum d) == inject_Z (round_half_even (d / two_power (quantum d))))%Q.
Proof.
  intros Hd Hr. unfold representable, round_magnitude in Hr.
  pose proof (two_power_pos (quantum d)) as Hu.
  set (m := round_half_even (d / two_power (quantum d))) in *.
  apply Qeq_sym. apply Qeq_sym in Hr.
  rewrite Hr at 1. field. lra.
Qed.

(** Rounding is monotone across representable numbers. *)
Lemma round_magnitude_upper (x d : Q) :
  (0 < x)%Q -> (x <= d)%Q -> representable d -> (round_magnitude x <= d)%Q.
Proof.
  intros Hx Hxd Hr.
  assert (Hd : (0 < d)%Q) by lra.
  pose proof (representable_scaled d Hd Hr) as Hm.
  set (md := round_half_even (d / two_power (quantum d))) in *.
  pose proof (quantum_mono x d Hx Hxd) as Hq.
  pose proof (two_power_pos (quantum x)) as Hux.
  pose proof (two_power_pos (quantum d)) as Hud.
  unfold round_magnitude.
  set (m := round_half_even (x / two_power (quantum x))).
  destruct (Z.eq_dec (quantum x) (quantum d)) as [E|NE].
  - assert (Hle : m <= md).
    { apply round_half_even_le. rewrite <- Hm. rewrite E.
      apply Qdiv_le_compat; assumption. }
    rewrite Zle_Qle in Hle.
    assert (Hd' : (d == inject_Z md * two_power (quantum x))%Q).
    { rewrite E, <- Hm. field. lra. }
    rewrite Hd'. nra.
  - assert (Hm53 : m <= 2 ^ 53).
    { apply round_half_even_le. apply Qlt_le_weak. apply scaled_below. exact Hx. }
    rewrite Zle_Qle in Hm53.
    destruct (binade_spec d Hd) as [D1 D2].
    assert (Hqd : quantum x + 53 <= binade d) by (unfold quantum in *; lia).
    pose proof (two_power_le _ _ Hqd) as Hp.
    rewrite two_power_add in Hp. rewrite (two_power_Z 53) in Hp by lia.
    nra.
Qed.

Lemma round_magnitude_lower (x d : Q) :
  (0 < d)%Q -> (d <= x)%Q -> representable d -> (d <= round_magnitude x)%Q.
Proof.
  intros Hd Hdx Hr.
  assert (Hx : (0 < x)%Q) by lra.
  pose proof (representable_scaled d Hd Hr) as Hm.
  set (md := round_half_even (d / two_power (quantum d))) in *.
  pose proof (quantum_mono d x Hd Hdx) as Hq.
  pose proof (two_power_pos (quantum x)) as Hux.
  pose proof (two_power_pos (quantum d)) as Hud.
  unfold round_magnitude.
  set (m := round_half_even (x / two_power (quantum x))).
  destruct (Z.eq_dec (quantum x) (quantum d)) as [E|NE].
  - assert (Hle : md <= m).
    { apply round_half_even_ge. rewrite <- Hm. rewrite E.
      apply Qdiv_le_compat; assumption. }
    rewrite Zle_Qle in Hle.
    assert (Hd' : (d == inject_Z md * two_power (quantum x))%Q).
    { rewrite E, <- Hm. field. lra. }
    rewrite Hd'. nra.
  - assert (Hqx : quantum x = binade x - 52) by (unfold quantum in *; lia).
    assert (Hm52 : 2 ^ 52 <= m).
    { apply round_half_even_ge. apply scaled_above; assumption. }
    rewrite Zle_Qle in Hm52.
    destruct (binade_spec d Hd) as [D1 D2].
    assert (Hqd : binade d + 1 <= 52 + quantum x) by (unfold quantum in *; lia).
    pose proof (two_power_le _ _ Hqd) as Hp.
    rewrite (two_power_add 52 (quantum x)) in Hp. rewrite (two_power_Z 52) in Hp by lia.
    nra.
Qed.

Lemma two_power_cancel (u : Z) : (two_power (- u) * two_power u == 1)%Q.
Proof. rewrite <- two_power_add. replace (- u + u) with 0 by lia. reflexivity. Qed.

(** A multiple [m * 2^u] of the quantum of its own binade is representable. *)
Lemma representable_grid (m u : Z) :
  0 < m ->
  quantum (inject_Z m * two_power u) = u ->
  representable (inject_Z m * two_power u).
Proof.
  intros Hm Hq. unfold representable, round_magnitude. rewrite Hq.
  pose proof (two_power_pos u) as Hu.
  rewrite (round_half_even_Z _ m); [reflexivity|].
  field. lra.
Qed.

Lemma quantum_of_binade (x : Q) (e : Z) :
  (two_power e <= x)%Q -> (x < two_power (e + 1))%Q -> quantum x = Z.max (e - 52) (-1074).
Proof. intros H1 H2. unfold quantum. rewrite (binade_unique x e H1 H2). reflexivity. Qed.

Lemma representable_Z (n : Z) : 0 < n <= 2 ^ 53 -> representable (inject_Z n).
Proof.
  intros [Hn0 Hn].
  assert (Hx : (0 < inject_Z n)%Q) by (change 0%Q with (inject_Z 0); rewrite <- Zlt_Qlt; exact Hn0).
  destruct (binade_spec _ Hx) as [B1 B2].
  set (e := binade (inject_Z n)) in *.
  assert (He0 : 0 <= e).
  { assert (0 < e + 1); [|lia]. apply two_power_lt_inv.
    assert (1 <= inject_Z n)%Q by (change 1%Q with (inject_Z 1); rewrite <- Zle_Qle; lia).
    change (two_power 0) with 1%Q. lra. }
  assert (He : e <= 53).
  { assert (e < 54); [|lia]. apply two_power_lt_inv.
    assert (inject_Z n < two_power 54)%Q.
    { rewrite two_power_Z by lia. rewrite <- Zlt_Qlt. lia. }
    lra. }
  destruct (Z.eq_dec e 53) as [E|NE].
  - assert (Hn53 : n = 2 ^ 53).
    { rewrite E in B1. rewrite two_power_Z in B1 by lia. rewrite <- Zle_Qle in B1. lia. }
    subst n.
    assert (Hg : (inject_Z (2 ^ 53) == inject_Z (2 ^ 52) * two_power 1)%Q) by reflexivity.
    unfold representable. rewrite (round_magnitude_comp _ _ Hx Hg), Hg.
    apply representable_grid; [lia|]. vm_compute. reflexivity.
  - set (k := 52 - e).
    assert (Hg : (inject_Z n == inject_Z (n * 2 ^ k) * two_power (- k))%Q).
    { rewrite inject_Z_mult, <- two_power_Z by (unfold k; lia).
      rewrite <- Qmult_assoc. rewrite <- two_power_add.
      replace (k + - k) with 0 by lia. change (two_power 0) with 1%Q. ring. }
    unfold representable. rewrite (round_magnitude_comp _ _ Hx Hg), Hg.
    apply representable_grid.
    + apply Z.mul_pos_pos; [exact Hn0 | apply Z.pow_pos_nonneg; unfold k; lia].
    + rewrite <- (quantum_comp _ _ Hx Hg). unfold quantum. fold e. unfold k. lia.
Qed.

(** Rounding gives a representable number. *)
Lemma round_magnitude_representable (x : Q) :
  (0 < x)%Q -> (0 < round_magnitude x)%Q -> representable (round_magnitude x).
Proof.
  intros Hx Hy. unfold round_magnitude in *.
  destruct (binade_spec x Hx) as [B1 B2].
  set (e := binade x) in *. set (u := quantum x) in *.
  pose proof (two_power_pos u) as Hu.
  set (m := round_half_even (x / two_power u)) in *.
  assert (Hm0 : 0 < m).
  { rewrite Zlt_Qlt. change (inject_Z 0) with 0%Q. nra. }
  assert (Hm53 : m <= 2 ^ 53).
  { apply round_half_even_le. apply Qlt_le_weak. apply scaled_below. exact Hx. }
  destruct (quantum_spec x) as [Hq|[Hq Hlow]]; fold u e in Hq.
  - assert (Hm52 : 2 ^ 52 <= m).
    { apply round_half_even_ge. apply scaled_above; assumption. }
    destruct (Z.eq_dec m (2 ^ 53)) as [E|NE].
    + assert (Hg : (inject_Z m * two_power u == inject_Z (2 ^ 52) * two_power (u + 1))%Q).
      { rewrite E, two_power_succ. change (inject_Z (2 ^ 53)) with (2 * inject_Z (2 ^ 52))%Q. ring. }
      unfold representable.
      rewrite (round_magnitude_comp _ _ Hy Hg), Hg.
      apply representable_grid; [lia|].
      rewrite (quantum_of_binade _ (e + 1)).
      * assert (-1074 <= u) by (unfold u, quantum; lia). lia.
      * rewrite <- (two_power_Z 52) by lia. rewrite <- two_power_add.
        replace (52 + (u + 1)) with (e + 1) by lia. apply Qle_refl.
      * rewrite <- (two_power_Z 52) by lia. rewrite <- two_power_add.
        apply two_power_lt. lia.
    + apply representable_grid; [exact Hm0|].
      rewrite (quantum_of_binade _ e).
      * assert (-1074 <= u) by (unfold u, quantum; lia). lia.
      * assert (E : (two_power e == inject_Z (2 ^ 52) * two_power u)%Q).
        { rewrite <- two_power_Z by lia. rewrite <- two_power_add.
          replace (52 + u) with e by lia. reflexivity. }
        rewrite E. rewrite Zle_Qle in Hm52. nra.
      * assert (E : (two_power (e + 1) == inject_Z (2 ^ 53) * two_power u)%Q).
        { rewrite <- two_power_Z by lia. rewrite <- two_power_add.
          replace (53 + u) with (e + 1) by lia. reflexivity. }
        rewrite E. assert (Hlt : m < 2 ^ 53) by lia. rewrite Zlt_Qlt in Hlt. nra.
  - fold e in Hlow.
    assert (Hm52 : m <= 2 ^ 52).
    { apply round_half_even_le.
      apply Qle_shift_div_r; [exact Hu|].
      rewrite <- two_power_Z by lia. rewrite <- two_power_add.
      assert (Hle : e + 1 <= 52 + u) by lia.
      pose proof (two_power_le _ _ Hle). lra. }
    apply representable_grid; [exact Hm0|].
    set (y := (inject_Z m * two_power u)%Q) in *.
    destruct (binade_spec y Hy) as [C1 C2].
    assert (Hb : binade y < -1021).
    { apply two_power_lt_inv.
      assert (Hyle : (y <= two_power (-1022))%Q).
      { unfold y. assert (E : (two_power (-1022) == inject_Z (2 ^ 52) * two_power u)%Q).
        { rewrite <- two_power_Z by lia. rewrite <- two_power_add. rewrite Hq. reflexivity. }
        rewrite E. rewrite Zle_Qle in Hm52. nra. }
      pose proof (two_power_lt (-1022) (-1021) ltac:(lia)). lra. }
    unfold quantum. lia.
Qed.

(** Rounding the quotient of two integers does not cross an integer. *)
Lemma round_magnitude_quotient (a s : Z) :
  0 < a <= 2 ^ 53 -> 0 < s <= 2 ^ 1074 ->
  let x := (inject_Z a / inject_Z s)%Q in
  Qfloor (round_magnitude x) = Qfloor x /\ Qceiling (round_magnitude x) = Qceiling x.
Proof.
  intros [Ha0 Ha] [Hs0 Hs] x.
  assert (HsQ : (0 < inject_Z s)%Q) by (change 0%Q with (inject_Z 0); rewrite <- Zlt_Qlt; exact Hs0).
  assert (HaQ : (0 < inject_Z a)%Q) by (change 0%Q with (inject_Z 0); rewrite <- Zlt_Qlt; exact Ha0).
  assert (Hxs : (x * inject_Z s == inject_Z a)%Q) by (unfold x; field; lra).
  assert (Hx : (0 < x)%Q) by nra.
  set (f := Qfloor x).
  pose proof (Qfloor_le x) as F1. pose proof (Qlt_floor x) as F2. fold f in F1, F2.
  rewrite inject_Z_plus in F2. change (inject_Z 1) with 1%Q in F2.
  assert (Hf0 : 0 <= f).
  { apply inject_Z_lt_add1. change (inject_Z 0) with 0%Q. lra. }
  destruct (Qeq_dec x (inject_Z f)) as [Hint|Hnint].
  - (* an integer quotient is representable *)
    assert (Hfpos : 0 < f).
    { rewrite Zlt_Qlt. change (inject_Z 0) with 0%Q. lra. }
    assert (Hfle : f <= 2 ^ 53).
    { assert (Hfa : (inject_Z f <= inject_Z a)%Q).
      { assert (1 <= inject_Z s)%Q by (change 1%Q with (inject_Z 1); rewrite <- Zle_Qle; lia).
        nra. }
      rewrite <- Zle_Qle in Hfa. lia. }
    pose proof (representable_Z f (conj Hfpos Hfle)) as Hr.
    assert (E : (round_magnitude x == x)%Q).
    { rewrite (round_magnitude_comp _ _ Hx Hint). rewrite Hint. exact Hr. }
    rewrite E. split; reflexivity.
  - assert (Flt : (inject_Z f < x)%Q).
    { destruct (Qlt_le_dec (inject_Z f) x) as [H|H]; [exact H|].
      exfalso. apply Hnint. lra. }
    (* integer versions of the bounds *)
    assert (Hlo : f * s + 1 <= a).
    { assert (H : (inject_Z (f * s) < inject_Z a)%Q) by (rewrite inject_Z_mult; nra).
      rewrite <- Zlt_Qlt in H. lia. }
    assert (Hhi : a + 1 <= (f + 1) * s).
    { assert (H : (inject_Z a < inject_Z ((f + 1) * s))%Q).
      { rewrite inject_Z_mult, inject_Z_plus. change (inject_Z 1) with 1%Q. nra. }
      rewrite <- Zlt_Qlt in H. lia. }
    assert (Hs2 : 2 <= s) by nia.
    destruct (binade_spec x Hx) as [B1 B2].
    set (e := binade x) in *.
    assert (He : e <= 52).
    { assert (e < 53); [|lia]. apply two_power_lt_inv.
      assert (x * 2 <= inject_Z (2 ^ 53))%Q.
      { assert (H2 : (2 <= inject_Z s)%Q) by (change 2%Q with (inject_Z 2); rewrite <- Zle_Qle; lia).
        rewrite Zle_Qle in Ha. nra. }
      rewrite <- two_power_Z in H by lia.
      assert (two_power 53 == 2 * two_power 52)%Q by reflexivity.
      pose proof (two_power_lt 52 53 ltac:(lia)). lra. }
    set (u := quantum x).
    assert (Hu0 : u <= 0) by (unfold u, quantum; fold e; lia).
    pose proof (two_power_pos u) as Hu.
    pose proof (two_power_pos (- u)) as HK.
    pose proof (two_power_cancel u) as HKu.
    set (K := two_power (- u)) in *. set (p := two_power u) in *.
    assert (HKZ : (K == inject_Z (2 ^ (- u)))%Q) by (apply two_power_Z; lia).
    set (t := (x / p)%Q).
    assert (Ht : (t == x * K)%Q) by (unfold t, p, K; apply two_power_div).
    unfold round_magnitude. fold u p t.
    set (m := round_half_even t).
    assert (Hgoal : (inject_Z f < inject_Z m * p)%Q /\ (inject_Z m * p < inject_Z f + 1)%Q).
    { destruct (Qeq_dec t (inject_Z (Qfloor t))) as [Htint|Htn].
      - (* the scaled quotient is an integer: no rounding *)
        assert (Em : m = Qfloor t) by (apply round_half_even_Z; exact Htint).
        assert (E : (inject_Z m * p == x)%Q).
        { rewrite Em, <- Htint, Ht. rewrite <- Qmult_assoc. fold K p in HKu. rewrite HKu. ring. }
        rewrite E. split; lra.
      - (* the factor is below twice the number of quanta per unit *)
        assert (HsK : (inject_Z s < 2 * K)%Q).
        { destruct (quantum_spec x) as [Hq|[Hq Hlow]]; fold u e in Hq.
          - destruct (Qlt_le_dec (inject_Z s) (2 * K)) as [H|H]; [exact H|]. exfalso.
            assert (EK : (two_power e * (2 * K) == inject_Z (2 ^ 53))%Q).
            { assert (E3 : (two_power (e + 1 + - u)
                            == two_power e * two_power 1 * two_power (- u))%Q)
                by (rewrite !two_power_add; reflexivity).
              replace (e + 1 + - u) with 53 in E3 by lia.
              rewrite <- (two_power_Z 53) by lia. rewrite E3.
              unfold K. change (two_power 1) with 2%Q. ring. }
            pose proof (two_power_pos e) as HE.
            rewrite Zle_Qle in Ha.
            assert (Exe : (x == two_power e)%Q) by nra.
            apply Htn.
            assert (Et : (t == inject_Z (2 ^ 52))%Q).
            { rewrite Ht, Exe. unfold K. rewrite <- two_power_add.
              rewrite <- two_power_Z by lia. replace (e + - u) with 52 by lia. reflexivity. }
            rewrite (Qfloor_comp _ _ Et), Qfloor_Z. exact Et.
          - rewrite Zle_Qle in Hs. rewrite <- two_power_Z in Hs by lia.
            unfold K. rewrite Hq. change (- -1074) with 1074.
            pose proof (two_power_pos 1074). lra. }
        assert (HloQ : (inject_Z f * inject_Z s + 1 <= inject_Z a)%Q).
        { rewrite Zle_Qle in Hlo. rewrite inject_Z_plus, inject_Z_mult in Hlo. exact Hlo. }
        assert (HhiQ : (inject_Z a + 1 <= (inject_Z f + 1) * inject_Z s)%Q).
        { rewrite Zle_Qle in Hhi. rewrite inject_Z_mult, !inject_Z_plus in Hhi. exact Hhi. }
        assert (Hup : f * 2 ^ (- u) + 1 <= m).
        { apply round_half_even_up. rewrite inject_Z_mult, <- HKZ, Ht.
          assert ((x - inject_Z f) * inject_Z s >= 1)%Q by nra.
          assert ((x - inject_Z f) * K * inject_Z s >= K)%Q by nra.
          nra. }
        assert (Hdown : m + 1 <= (f + 1) * 2 ^ (- u)).
        { assert (m <= (f + 1) * 2 ^ (- u) - 1); [|lia].
          apply round_half_even_down. rewrite inject_Z_mult, inject_Z_plus, <- HKZ, Ht.
          change (inject_Z 1) with 1%Q.
          assert ((inject_Z f + 1 - x) * inject_Z s >= 1)%Q by nra.
          assert ((inject_Z f + 1 - x) * K * inject_Z s >= K)%Q by nra.
          nra. }
        rewrite Zle_Qle in Hup, Hdown.
        rewrite inject_Z_plus, inject_Z_mult, <- HKZ in Hup.
        rewrite inject_Z_plus, inject_Z_mult, inject_Z_plus, <- HKZ in Hdown.
        change (inject_Z 1) with 1%Q in *.
        fold K p in HKu.
        assert (P1 : ((inject_Z f * K + 1) * p <= inject_Z m * p)%Q)
          by (apply Qmult_le_compat_r; lra).
        assert (P2 : ((inject_Z m + 1) * p <= (inject_Z f + 1) * K * p)%Q)
          by (apply Qmult_le_compat_r; lra).
        assert (E1 : ((inject_Z f * K + 1) * p == inject_Z f * (K * p) + p)%Q) by ring.
        assert (E2 : ((inject_Z f + 1) * K * p == (inject_Z f + 1) * (K * p))%Q) by ring.
        rewrite HKu in E1, E2. split; lra. }
    destruct Hgoal as [G1 G2].
    set (y := (inject_Z m * p)%Q) in *.
    assert (Ffl : Qfloor y = f).
    { apply Z.le_antisymm.
      - apply inject_Z_lt_add1. pose proof (Qfloor_le y). lra.
      - rewrite <- (Qfloor_Z f). apply Qfloor_resp_le. lra. }
    assert (Fce : Qceiling y = f + 1).
    { apply Z.le_antisymm.
      - rewrite <- (Qceiling_Z (f + 1)). apply Qceiling_resp_le.
        rewrite inject_Z_plus. change (inject_Z 1) with 1%Q. lra.
      - pose proof (Qle_ceiling y) as Hc.
        assert (Hlt : (inject_Z f < inject_Z (Qceiling y))%Q) by lra.
        rewrite <- Zlt_Qlt in Hlt. lia. }
    assert (Fcx : Qceiling x = f + 1).
    { apply Z.le_antisymm.
      - rewrite <- (Qceiling_Z (f + 1)). apply Qceiling_resp_le.
        rewrite inject_Z_plus. change (inject_Z 1) with 1%Q. lra.
      - pose proof (Qle_ceiling x) as Hc.
        assert (Hlt : (inject_Z f < inject_Z (Qceiling x))%Q) by lra.
        rewrite <- Zlt_Qlt in Hlt. lia. }
    split; [exact Ffl | rewrite Fce, Fcx; reflexivity].
Qed.

Lemma Qle_bool_false (x y : Q) : Qle_bool x y = false <-> (y < x)%Q.
Proof.
  split; intros H.
  - apply Qnot_le_lt. intros Hle. apply Qle_bool_iff in Hle. congruence.
  - destruct (Qle_bool x y) eqn:Hb; [|reflexivity].
    apply Qle_bool_iff in Hb. exfalso. exact (Qlt_not_le _ _ H Hb).
Qed.

Lemma round_double_cases (x : Q) :
  ((x == 0)%Q /\ round_double x = Finite 0)
  \/ ((0 < x)%Q
      /\ round_double x
         = if Qle_bool (two_power 1024) (round_magnitude x)
           then Infinity false else Finite (round_magnitude x))
  \/ ((x < 0)%Q
      /\ round_double x
         = if Qle_bool (two_power 1024) (round_magnitude (- x))
           then Infinity true else Finite (- round_magnitude (- x))).
Proof.
  unfold round_double. destruct (x ?= 0)%Q eqn:C.
  - left. rewrite <- Qeq_alt in C. split; [exact C | reflexivity].
  - right. right. rewrite <- Qlt_alt in C. split; [exact C | reflexivity].
  - right. left. rewrite <- Qgt_alt in C. split; [exact C | reflexivity].
Qed.

Lemma round_double_not_NaN (x : Q) : round_double x <> NaN.
Proof.
  destruct (round_double_cases x) as [[_ ->]|[[_ ->]|[_ ->]]]; try discriminate;
    destruct (Qle_bool _ _); discriminate.
Qed.

(** Integers up to 2^53 are floats. *)
Lemma round_double_Z (n : Z) :
  - 2 ^ 53 <= n <= 2 ^ 53 ->
  exists y, round_double (inject_Z n) = Finite y /\ (y == inject_Z n)%Q.
Proof.
  intros Hn.
  assert (Hbig : (inject_Z (2 ^ 53) < two_power 1024)%Q) by reflexivity.
  destruct (round_double_cases (inject_Z n)) as [[H0 ->]|[[Hp ->]|[Hm ->]]].
  - exists 0%Q. split; [reflexivity | symmetry; exact H0].
  - assert (Hn0 : 0 < n) by (rewrite Zlt_Qlt; exact Hp).
    pose proof (representable_Z n ltac:(lia)) as Hr. unfold representable in Hr.
    assert (Hle : (inject_Z n <= inject_Z (2 ^ 53))%Q) by (rewrite <- Zle_Qle; lia).
    replace (Qle_bool _ _) with false by (symmetry; apply Qle_bool_false; lra).
    eexists. split; [reflexivity | exact Hr].
  - assert (Hn0 : n < 0) by (rewrite Zlt_Qlt; exact Hm).
    pose proof (representable_Z (- n) ltac:(lia)) as Hr. unfold representable in Hr.
    assert (E : (- inject_Z n == inject_Z (- n))%Q) by (rewrite inject_Z_opp; reflexivity).
    assert (Hpos : (0 < - inject_Z n)%Q) by lra.
    pose proof (round_magnitude_comp _ _ Hpos E) as Hc.
    assert (Hle : (inject_Z (- n) <= inject_Z (2 ^ 53))%Q) by (rewrite <- Zle_Qle; lia).
    replace (Qle_bool _ _) with false by (symmetry; apply Qle_bool_false; lra).
    eexists. split; [reflexivity|]. lra.
Qed.

(** The ceiling of the float quotient of two integers is the ceiling of
    their quotient, for a dividend up to 2^53. *)
Lemma round_double_quotient (a s : Z) :
  - 2 ^ 53 <= a <= 2 ^ 53 -> 0 < s <= 2 ^ 1074 ->
  exists y, round_double (inject_Z a / inject_Z s) = Finite y
            /\ Qceiling y = ceil_div a s.
Proof.
  intros Ha Hs. unfold ceil_div.
  set (x := (inject_Z a / inject_Z s)%Q).
  assert (HsQ : (0 < inject_Z s)%Q) by (change 0%Q with (inject_Z 0); rewrite <- Zlt_Qlt; lia).
  assert (Hxs : (x * inject_Z s == inject_Z a)%Q) by (unfold x; field; lra).
  assert (Hbig : (inject_Z (2 ^ 53) < two_power 1024)%Q) by reflexivity.
  destruct (round_double_cases x) as [[H0 ->]|[[Hp ->]|[Hm ->]]].
  - exists 0%Q. split; [reflexivity|]. symmetry. apply Qceiling_comp. exact H0.
  - assert (Ha0 : 0 < a).
    { rewrite Zlt_Qlt. change (inject_Z 0) with 0%Q. nra. }
    destruct (round_magnitude_quotient a s ltac:(lia) Hs) as [_ Hc]. fold x in Hc.
    assert (Hfin : (round_magnitude x <= inject_Z (2 ^ 53))%Q).
    { pose proof (Qle_ceiling (round_magnitude x)) as H1. rewrite Hc in H1.
      assert (H2 : Qceiling x <= 2 ^ 53).
      { rewrite <- (Qceiling_Z (2 ^ 53)). apply Qceiling_resp_le.
        assert (1 <= inject_Z s)%Q by (change 1%Q with (inject_Z 1); rewrite <- Zle_Qle; lia).
        assert (inject_Z a <= inject_Z (2 ^ 53))%Q by (rewrite <- Zle_Qle; lia).
        nra. }
      rewrite Zle_Qle in H2. lra. }
    replace (Qle_bool _ _) with false by (symmetry; apply Qle_bool_false; lra).
    eexists. split; [reflexivity | exact Hc].
  - assert (Ha0 : a < 0).
    { rewrite Zlt_Qlt. change (inject_Z 0) with 0%Q. nra. }
    destruct (round_magnitude_quotient (- a) s ltac:(lia) Hs) as [Hf _].
    assert (E : (- x == inject_Z (- a) / inject_Z s)%Q).
    { unfold x. rewrite inject_Z_opp. field. lra. }
    assert (Hpos : (0 < - x)%Q) by lra.
    pose proof (round_magnitude_comp _ _ Hpos E) as Hc.
    rewrite <- (Qfloor_comp _ _ Hc), <- (Qfloor_comp _ _ E) in Hf.
    assert (Hfin : (round_magnitude (- x) < inject_Z (2 ^ 53) + 1)%Q).
    { pose proof (Qlt_floor (round_magnitude (- x))) as H1. rewrite Hf in H1.
      rewrite inject_Z_plus in H1. change (inject_Z 1) with 1%Q in H1.
      assert (H2 : Qfloor (- x) <= 2 ^ 53).
      { rewrite <- (Qfloor_Z (2 ^ 53)). apply Qfloor_resp_le.
        assert (1 <= inject_Z s)%Q by (change 1%Q with (inject_Z 1); rewrite <- Zle_Qle; lia).
        assert (- inject_Z a <= inject_Z (2 ^ 53))%Q.
        { rewrite <- inject_Z_opp, <- Zle_Qle. lia. }
        nra. }
      rewrite Zle_Qle in H2. lra. }
    assert (Hbig' : (inject_Z (2 ^ 53) + 1 < two_power 1024)%Q) by reflexivity.
    replace (Qle_bool _ _) with false by (symmetry; apply Qle_bool_false; lra).
    eexists. split; [reflexivity|].
    unfold Qceiling. f_equal.
    rewrite (Qfloor_comp (- - round_magnitude (- x)) (round_magnitude (- x)))
      by apply Qopp_involutive.
    exact Hf.
Qed.

(** Rounding a number that is no larger in magnitude than a float gives a
    float. *)
Lemma round_double_shrink (x0 y0 x : Q) :
  round_double x0 = Finite y0 ->
  ((0 <= x)%Q /\ (x <= y0)%Q) \/ ((y0 <= x)%Q /\ (x <= 0)%Q) ->
  exists y, round_double x = Finite y.
Proof.
  intros H0 Hx.
  assert (Hzero : (x == 0)%Q -> exists y, round_double x = Finite y).
  { intros Hz. destruct (round_double_cases x) as [[_ ->]|[[Hp _]|[Hm _]]];
      [eexists; reflexivity | lra | lra]. }
  destruct (Qeq_dec x 0) as [Hz|Hnz]; [exact (Hzero Hz)|].
  destruct (round_double_cases x0) as [[Hz0 E0]|[[Hp0 E0]|[Hm0 E0]]];
    rewrite E0 in H0.
  - inversion H0; subst y0. exfalso. apply Hnz. lra.
  - destruct (Qle_bool (two_power 1024) (round_magnitude x0)) eqn:Hb; [discriminate|].
    inversion H0; subst y0. clear H0.
    apply Qle_bool_false in Hb.
    pose proof (round_magnitude_nonneg x0 Hp0) as Hnn.
    assert (Hxp : (0 < x)%Q).
    { destruct (Qlt_le_dec 0 x) as [|Hle']; [assumption|].
      exfalso. apply Hnz. destruct Hx as [[H1 H2]|[H1 H2]]; lra. }
    assert (Hle : (x <= round_magnitude x0)%Q) by (destruct Hx as [[H1 H2]|[H1 H2]]; lra).
    assert (Hy0 : (0 < round_magnitude x0)%Q) by lra.
    pose proof (round_magnitude_upper x _ Hxp Hle
                  (round_magnitude_representable x0 Hp0 Hy0)) as Hup.
    destruct (round_double_cases x) as [[_ ->]|[[_ ->]|[Hm _]]]; [eauto| |lra].
    replace (Qle_bool _ _) with false by (symmetry; apply Qle_bool_false; lra).
    eauto.
  - destruct (Qle_bool (two_power 1024) (round_magnitude (- x0))) eqn:Hb; [discriminate|].
    inversion H0; subst y0. clear H0.
    apply Qle_bool_false in Hb.
    assert (Hp0 : (0 < - x0)%Q) by lra.
    pose proof (round_magnitude_nonneg (- x0) Hp0) as Hnn.
    assert (Hxp : (0 < - x)%Q).
    { destruct (Qlt_le_dec x 0) as [|Hle']; [lra|].
      exfalso. apply Hnz. destruct Hx as [[H1 H2]|[H1 H2]]; lra. }
    assert (Hle : (- x <= round_magnitude (- x0))%Q)
      by (destruct Hx as [[H1 H2]|[H1 H2]]; lra).
    assert (Hy0 : (0 < round_magnitude (- x0))%Q) by lra.
    pose proof (round_magnitude_upper (- x) _ Hxp Hle
                  (round_magnitude_representable (- x0) Hp0 Hy0)) as Hup.
    destruct (round_double_cases x) as [[_ ->]|[[Hp _]|[_ ->]]]; [eauto|lra|].
    replace (Qle_bool _ _) with false by (symmetry; apply Qle_bool_false; lra).
    eauto.
Qed.

(** Rounding does not fall below a representable number that the argument
    reaches. *)
Lemma round_double_ge (x d y : Q) :
  (0 < d)%Q -> representable d -> (d <= x)%Q ->
  round_double x = Finite y -> (d <= y)%Q.
Proof.
  intros Hd Hr Hdx H.
  destruct (round_double_cases x) as [[Hz _]|[[Hp E]|[Hm _]]]; [lra| |lra].
  rewrite E in H. destruct (Qle_bool _ _); [discriminate|].
  inversion H; subst y. apply round_magnitude_lower; assumption.
Qed.

Lemma round_double_le (x d y : Q) :
  (0 < x)%Q -> representable d -> (x <= d)%Q ->
  round_double x = Finite y -> (0 <= y)%Q /\ (y <= d)%Q.
Proof.
  intros Hx Hr Hxd H.
  destruct (round_double_cases x) as [[Hz _]|[[Hp E]|[Hm _]]]; [lra| |lra].
  rewrite E in H. destruct (Qle_bool _ _); [discriminate|].
  inversion H; subst y. split.
  - apply round_magnitude_nonneg. exact Hx.
  - apply round_magnitude_upper; assumption.
Qed.

(** A positive number that is not below the smallest positive float does
    not round to zero. *)
Lemma round_magnitude_pos (x : Q) :
  (two_power (-1074) <= x)%Q -> (0 < round_magnitude x)%Q.
Proof.
  intros Hx. pose proof (two_power_pos (-1074)) as H0.
  assert (Hxp : (0 < x)%Q) by lra.
  unfold round_magnitude. set (u := quantum x).
  pose proof (two_power_pos u) as Hu.
  assert (Hm : 1 <= round_half_even (x / two_power u)).
  { apply round_half_even_ge. change (inject_Z 1) with 1%Q.
    apply Qle_shift_div_l; [exact Hu|]. rewrite Qmult_1_l.
    destruct (quantum_spec x) as [Hq|[Hq _]]; fold u in Hq.
    - destruct (binade_spec x Hxp) as [B1 _].
      assert (Hle : u <= binade x) by lia.
      pose proof (two_power_le _ _ Hle). lra.
    - rewrite Hq. exact Hx. }
  rewrite Zle_Qle in Hm. change (inject_Z 1) with 1%Q in Hm. nra.
Qed.

(** What rounding returns is a float. *)
Lemma round_double_is_double (x y : Q) :
  round_double x = Finite y -> is_double (Finite y) = true.
Proof.
  intros H. unfold is_double.
  assert (Hzero : forall z, (z == 0)%Q ->
            match round_double z with Finite q' => Qeq_bool q' z | _ => false end = true).
  { intros z Hz. destruct (round_double_cases z) as [[_ ->]|[[Hp _]|[Hm _]]]; [|lra|lra].
    apply Qeq_bool_iff. symmetry. exact Hz. }
  destruct (round_double_cases x) as [[Hz E]|[[Hp E]|[Hm E]]]; rewrite E in H.
  - inversion H; subst y. apply Hzero. reflexivity.
  - destruct (Qle_bool (two_power 1024) (round_magnitude x)) eqn:Hb; [discriminate|].
    inversion H; subst y. clear H. apply Qle_bool_false in Hb.
    pose proof (round_magnitude_nonneg x Hp) as Hnn.
    destruct (Qeq_dec (round_magnitude x) 0) as [Hz|Hnz]; [apply Hzero; exact Hz|].
    assert (Hy : (0 < round_magnitude x)%Q).
    { destruct (Qlt_le_dec 0 (round_magnitude x)); [assumption|]. exfalso. apply Hnz. lra. }
    pose proof (round_magnitude_representable x Hp Hy) as Hr. unfold representable in Hr.
    destruct (round_double_cases (round_magnitude x)) as [[Hz' _]|[[_ ->]|[Hm' _]]];
      [lra| |lra].
    replace (Qle_bool _ _) with false by (symmetry; apply Qle_bool_false; lra).
    apply Qeq_bool_iff. exact Hr.
  - destruct (Qle_bool (two_power 1024) (round_magnitude (- x))) eqn:Hb; [discriminate|].
    inversion H; subst y. clear H. apply Qle_bool_false in Hb.
    assert (Hp : (0 < - x)%Q) by lra.
    pose proof (round_magnitude_nonneg (- x) Hp) as Hnn.
    destruct (Qeq_dec (round_magnitude (- x)) 0) as [Hz|Hnz].
    { apply Hzero. lra. }
    assert (Hy : (0 < round_magnitude (- x))%Q).
    { destruct (Qlt_le_dec 0 (round_magnitude (- x))); [assumption|]. exfalso. apply Hnz. lra. }
    pose proof (round_magnitude_representable (- x) Hp Hy) as Hr. unfold representable in Hr.
    set (r := round_magnitude (- x)) in *.
    destruct (round_double_cases (- r)) as [[Hz' _]|[[Hp' _]|[_ ->]]]; [lra|lra|].
    assert (Hc : (round_magnitude (- - r) == round_magnitude r)%Q).
    { apply round_magnitude_comp; [lra | apply Qopp_involutive]. }
    replace (Qle_bool _ _) with false by (symmetry; apply Qle_bool_false; lra).
    apply Qeq_bool_iff. lra.
Qed.

(** A float lies below 2^1024 in magnitude. *)
Lemma is_double_bound (q : Q) :
  is_double (Finite q) = true -> (- two_power 1024 < q)%Q /\ (q < two_power 1024)%Q.
Proof.
  unfold is_double. intros H.
  pose proof (two_power_pos 1024) as Hbig.
  destruct (round_double_cases q) as [[Hz E]|[[Hp E]|[Hm E]]]; rewrite E in H.
  - lra.
  - destruct (Qle_bool (two_power 1024) (round_magnitude q)) eqn:Hb; [discriminate|].
    apply Qle_bool_false in Hb. apply Qeq_bool_iff in H. lra.
  - destruct (Qle_bool (two_power 1024) (round_magnitude (- q))) eqn:Hb; [discriminate|].
    apply Qle_bool_false in Hb. apply Qeq_bool_iff in H. lra.
Qed.

(** Rounding respects equality of rationals. *)
Lemma round_double_comp (x x' : Q) :
  (x == x')%Q -> float_eq (round_double x) (round_double x').
Proof.
  intros H.
  destruct (round_double_cases x) as [[Hz ->]|[[Hp ->]|[Hm ->]]];
    destruct (round_double_cases x') as [[Hz' ->]|[[Hp' ->]|[Hm' ->]]]; try lra.
  - reflexivity.
  - pose proof (round_magnitude_comp x x' Hp H) as Hc.
    rewrite (Qleb_comp _ _ (Qeq_refl (two_power 1024)) _ _ Hc).
    destruct (Qle_bool _ _); simpl; [reflexivity | exact Hc].
  - assert (Hn : (- x == - x')%Q) by lra.
    pose proof (round_magnitude_comp (- x) (- x') ltac:(lra) Hn) as Hc.
    rewrite (Qleb_comp _ _ (Qeq_refl (two_power 1024)) _ _ Hc).
    destruct (Qle_bool _ _); simpl; [reflexivity | lra].
Qed.

(** ** Float operations of the module *)

Lemma float_of_int_finite (n : Z) (x : float) :
  float_of_int n = Ok x -> exists y, x = Finite y /\ round_double (inject_Z n) = Finite y.
Proof.
  unfold float_of_int. intros H.
  pose proof (round_double_not_NaN (inject_Z n)) as Hn.
  destruct (round_double (inject_Z n)) as [y|s|]; [|discriminate|contradiction].
  inversion H; subst x. exists y. split; reflexivity.
Qed.

Lemma fits_float_ok (n : Z) :
  fits_float n = true -> exists y, float_of_int n = Ok (Finite y).
Proof.
  unfold fits_float. intros H.
  destruct (float_of_int n) as [x|e] eqn:E; [|discriminate].
  destruct (float_of_int_finite n x E) as [y [-> _]]. exists y. reflexivity.
Qed.

Lemma fits_float_raise (n : Z) :
  fits_float n = false -> float_of_int n = Raise OverflowError.
Proof.
  unfold fits_float, float_of_int.
  destruct (round_double (inject_Z n)); try discriminate. reflexivity.
Qed.

Lemma float_of_int_small (n : Z) :
  - 2 ^ 53 <= n <= 2 ^ 53 ->
  exists y, float_of_int n = Ok (Finite y) /\ (y == inject_Z n)%Q.
Proof.
  intros Hn. destruct (round_double_Z n Hn) as [y [Hy Heq]].
  exists y. unfold float_of_int. rewrite Hy. split; [reflexivity | exact Heq].
Qed.

Lemma fits_float_small (n : Z) : - 2 ^ 53 <= n <= 2 ^ 53 -> fits_float n = true.
Proof.
  intros Hn. destruct (float_of_int_small n Hn) as [y [Hy _]].
  unfold fits_float. rewrite Hy. reflexivity.
Qed.

Lemma pow2_not_zero (k : Z) : 0 <= k -> is_zero (pow2 k) = false.
Proof.
  intros Hk. unfold is_zero, pow2.
  destruct (Qeq_bool (inject_Z (2 ^ k)) 0) eqn:E; [|reflexivity].
  apply Qeq_bool_iff in E. exfalso.
  assert (H : 0 < 2 ^ k) by (apply Z.pow_pos_nonneg; lia).
  rewrite Zlt_Qlt in H. change (inject_Z 0) with 0%Q in H. lra.
Qed.

Lemma pow2_ge_1 (k : Z) : 0 <= k -> (1 <= inject_Z (2 ^ k))%Q.
Proof.
  intros Hk. assert (H : 1 <= 2 ^ k) by (pose proof (Z.pow_pos_nonneg 2 k); lia).
  rewrite Zle_Qle in H. exact H.
Qed.

(** [_scale_tagged_shape] computes an extent for every extent that converts
    to a float, at every level. *)
Lemma scaled_extent_returns (n k : Z) :
  fits_float n = true -> 0 <= k -> exists n', scaled_extent n (pow2 k) = Ok n'.
Proof.
  intros Hfit Hk. destruct (fits_float_ok n Hfit) as [y0 Hy0].
  destruct (float_of_int_finite n _ Hy0) as [y [Hy Hr]]. inversion Hy; subst y.
  unfold scaled_extent, int_truediv_float. rewrite Hy0. cbn [bind].
  unfold float_truediv. rewrite (pow2_not_zero k Hk). unfold pow2. cbn [bind].
  pose proof (pow2_ge_1 k Hk) as Hp.
  destruct (round_double_shrink (inject_Z n) y0 (y0 / inject_Z (2 ^ k)) Hr) as [y Hfin].
  { destruct (Qlt_le_dec y0 0) as [Hneg|Hpos].
    - right. split.
      + apply Qle_shift_div_l; [lra|]. nra.
      + apply Qle_shift_div_r; [lra|]. lra.
    - left. split.
      + apply Qle_shift_div_l; [lra|]. lra.
      + apply Qle_shift_div_r; [lra|]. nra. }
  rewrite Hfin. eexists. reflexivity.
Qed.

(** For an extent up to 2^53 it computes the ceiling of the quotient. *)
Lemma scaled_extent_exact (n k : Z) :
  - 2 ^ 53 <= n <= 2 ^ 53 -> 0 <= k <= 1074 ->
  scaled_extent n (pow2 k) = Ok (ceil_div n (2 ^ k)).
Proof.
  intros Hn Hk. destruct (float_of_int_small n Hn) as [y0 [Hy0 Heq]].
  unfold scaled_extent, int_truediv_float. rewrite Hy0. cbn [bind].
  unfold float_truediv. rewrite (pow2_not_zero k) by lia. unfold pow2. cbn [bind].
  pose proof (pow2_ge_1 k ltac:(lia)) as Hp.
  assert (Hs : 0 < 2 ^ k <= 2 ^ 1074).
  { split; [apply Z.pow_pos_nonneg; lia | apply Z.pow_le_mono_r; lia]. }
  destruct (round_double_quotient n (2 ^ k) Hn Hs) as [y [Hy Hc]].
  assert (E : (y0 / inject_Z (2 ^ k) == inject_Z n / inject_Z (2 ^ k))%Q)
    by (rewrite Heq; reflexivity).
  pose proof (round_double_comp _ _ E) as Hfe. rewrite Hy in Hfe.
  destruct (round_double (y0 / inject_Z (2 ^ k))) as [y'|s|]; try contradiction.
  cbn [float_eq] in Hfe. cbn [_round_like_scaling_method math_ceil].
  unfold _round_like_scaling_method, math_ceil.
  rewrite (Qceiling_comp _ _ Hfe). rewrite Hc. reflexivity.
Qed.

Lemma scaled_extent_fits (n : Z) (f : float) (n' : Z) :
  scaled_extent n f = Ok n' -> fits_float n = true.
Proof.
  unfold scaled_extent, int_truediv_float, fits_float.
  destruct (float_of_int n); [reflexivity | discriminate].
Qed.

Lemma scaled_extent_overflow (n : Z) (f : float) :
  fits_float n = false -> scaled_extent n f = Raise OverflowError.
Proof.
  intros H. unfold scaled_extent, int_truediv_float.
  rewrite (fits_float_raise n H). reflexivity.
Qed.

(** At the factor 1.0 an extent above 1 stays above 1, whatever its size. *)
Lemma scaled_extent_one_lower (n n' : Z) :
  1 < n -> scaled_extent n (Finite 1) = Ok n' -> 1 < n'.
Proof.
  intros Hn H. unfold scaled_extent, int_truediv_float in H.
  destruct (float_of_int n) as [x|e] eqn:E; [|discriminate]. cbn [bind] in H.
  destruct (float_of_int_finite n x E) as [y0 [-> Hr]].
  assert (H2 : representable 2) by (apply (representable_Z 2); lia).
  assert (Hy0 : (2 <= y0)%Q).
  { apply (round_double_ge (inject_Z n) 2 y0); [reflexivity | exact H2 | | exact Hr].
    change 2%Q with (inject_Z 2). rewrite <- Zle_Qle. lia. }
  unfold float_truediv in H. cbn [is_zero] in H.
  change (Qeq_bool 1 0) with false in H. cbn [bind] in H.
  destruct (round_double (y0 / 1)) as [y|s|] eqn:Ey; try discriminate.
  assert (Hy : (2 <= y)%Q).
  { apply (round_double_ge (y0 / 1) 2 y); [reflexivity | exact H2 | | exact Ey].
    unfold Qdiv. change (/ 1)%Q with 1%Q. lra. }
  unfold _round_like_scaling_method, math_ceil in H. inversion H; subst n'.
  pose proof (Qle_ceiling y) as Hc.
  assert (Hlt : (inject_Z 1 < inject_Z (Qceiling y))%Q)
    by (change (inject_Z 1) with 1%Q; lra).
  rewrite <- Zlt_Qlt in Hlt. exact Hlt.
Qed.

(** Rounding does not cross a representable number from below. *)
Lemma round_double_upper (x d y : Q) :
  (0 < d)%Q -> representable d -> (x <= d)%Q ->
  round_double x = Finite y -> (y <= d)%Q.
Proof.
  intros Hd Hrep Hx Hy.
  destruct (round_double_cases x) as [[H0 E]|[[Hpos E]|[Hneg E]]].
  - rewrite E in Hy. inversion Hy; subst y. lra.
  - apply (round_double_le x d y Hpos Hrep Hx Hy).
  - rewrite E in Hy.
    destruct (Qle_bool (two_power 1024) (round_magnitude (- x))); [discriminate|].
    inversion Hy; subst y.
    pose proof (round_magnitude_nonneg (- x) ltac:(lra)). lra.
Qed.

(** An extent that stays above 1 at the factor [2^k] is longer than
    [2^k]. *)
Lemma scaled_extent_pow2_lower (n k n' : Z) :
  0 <= k <= 53 -> scaled_extent n (pow2 k) = Ok n' -> 1 < n' -> 2 ^ k < n.
Proof.
  intros Hk H Hn'. unfold scaled_extent, int_truediv_float in H.
  destruct (float_of_int n) as [x|e] eqn:E; [|discriminate]. cbn [bind] in H.
  destruct (float_of_int_finite n x E) as [y0 [-> Hr]].
  unfold float_truediv in H. rewrite (pow2_not_zero k) in H by lia.
  unfold pow2 in H. cbn [bind] in H.
  destruct (round_double (y0 / inject_Z (2 ^ k))) as [y|sg|] eqn:Ey; try discriminate.
  unfold _round_like_scaling_method, math_ceil in H. inversion H; subst n'.
  destruct (Z.lt_ge_cases (2 ^ k) n) as [Hlt|Hge]; [exact Hlt|]. exfalso.
  assert (Hp : 0 < 2 ^ k <= 2 ^ 53).
  { split; [apply Z.pow_pos_nonneg; lia | apply Z.pow_le_mono_r; lia]. }
  assert (Hd : (0 < inject_Z (2 ^ k))%Q).
  { change 0%Q with (inject_Z 0). rewrite <- Zlt_Qlt. lia. }
  assert (Hy0 : (y0 <= inject_Z (2 ^ k))%Q).
  { apply (round_double_upper (inject_Z n) _ y0 Hd (representable_Z _ Hp)); [|exact Hr].
    rewrite <- Zle_Qle. exact Hge. }
  assert (Hy : (y <= 1)%Q).
  { apply (round_double_upper (y0 / inject_Z (2 ^ k)) 1 y); [reflexivity | | | exact Ey].
    - apply (representable_Z 1). lia.
    - apply Qle_shift_div_r; [exact Hd | lra]. }
  pose proof (Qceiling_resp_le y 1 Hy) as Hc.
  change 1%Q with (inject_Z 1) in Hc. rewrite Qceiling_Z in Hc. lia.
Qed.

(** At a finite factor of at least 1 an extent between 1 and 2^53 stays
    between 1 and itself. *)
Lemma scaled_extent_within (n : Z) (q : Q) :
  1 <= n <= 2 ^ 53 -> is_double (Finite q) = true -> (1 <= q)%Q ->
  exists n', scaled_extent n (Finite q) = Ok n' /\ 1 <= n' <= n.
Proof.
  intros Hn Hd Hq.
  assert (H53 : 0 < 2 ^ 53) by (apply Z.pow_pos_nonneg; lia).
  destruct (float_of_int_small n ltac:(lia)) as [y0 [Hy0 Heq]].
  destruct (float_of_int_finite n _ Hy0) as [y1 [Hy1 Hr]]. inversion Hy1; subst y1.
  assert (Hn1 : (1 <= inject_Z n)%Q).
  { change 1%Q with (inject_Z 1). rewrite <- Zle_Qle. lia. }
  unfold scaled_extent, int_truediv_float. rewrite Hy0. cbn [bind].
  unfold float_truediv, is_zero.
  replace (Qeq_bool q 0) with false.
  2:{ symmetry. apply not_true_is_false. intros E. apply Qeq_bool_iff in E. lra. }
  cbn [bind].
  assert (Hx0 : (0 <= y0 / q)%Q) by (apply Qle_shift_div_l; lra).
  assert (Hx1 : (y0 / q <= y0)%Q) by (apply Qle_shift_div_r; [lra | nra]).
  destruct (round_double_shrink (inject_Z n) y0 (y0 / q) Hr) as [y Hy];
    [left; split; assumption|].
  rewrite Hy. unfold _round_like_scaling_method, math_ceil.
  eexists. split; [reflexivity|]. split.
  - destruct (is_double_bound q Hd) as [_ Hqmax].
    assert (Hlow : (two_power (-1074) <= y0 / q)%Q).
    { apply Qle_shift_div_l; [lra|].
      pose proof (two_power_add (-1074) 1024) as Ha.
      pose proof (two_power_le (-1074 + 1024) 0 ltac:(lia)) as Hb.
      pose proof two_power_0 as H0. pose proof (two_power_pos (-1074)) as Hp.
      assert (two_power (-1074) * q <= two_power (-1074) * two_power 1024)%Q
        by (apply Qmult_le_l; [exact Hp | lra]).
      lra. }
    assert (Hpos : (0 < y)%Q).
    { destruct (round_double_cases (y0 / q)) as [[H0 E]|[[Hp E]|[Hneg E]]].
      - pose proof (two_power_pos (-1074)). lra.
      - rewrite E in Hy.
        destruct (Qle_bool (two_power 1024) (round_magnitude (y0 / q)));
          [discriminate|].
        inversion Hy; subst y. apply round_magnitude_pos. exact Hlow.
      - lra. }
    pose proof (Qle_ceiling y) as Hc.
    assert (Hlt : (inject_Z 0 < inject_Z (Qceiling y))%Q)
      by (change (inject_Z 0) with 0%Q; lra).
    rewrite <- Zlt_Qlt in Hlt. lia.
  - assert (Hup : (y <= inject_Z n)%Q).
    { apply (round_double_upper (y0 / q) (inject_Z n) y); [lra | | lra | exact Hy].
      apply representable_Z. lia. }
    pose proof (Qceiling_resp_le y (inject_Z n) Hup) as Hc.
    rewrite Qceiling_Z in Hc. exact Hc.
Qed.

(** A division by a positive float gives a float or an infinity, so a
    scaled extent is an integer or the call raises [OverflowError]. *)
Lemma scaled_extent_ok_or_overflow (n : Z) (f : float) :
  float_positive f = true ->
  (exists n', scaled_extent n f = Ok n') \/ scaled_extent n f = Raise OverflowError.
Proof.
  intros Hf. unfold scaled_extent, int_truediv_float.
  destruct (float_of_int n) as [x|e] eqn:E.
  - destruct (float_of_int_finite n x E) as [y0 [-> _]]. cbn [bind].
    unfold float_truediv.
    assert (Hz : is_zero f = false).
    { destruct f as [q|sg|]; try reflexivity. cbn [float_positive is_zero] in *.
      apply negb_true_iff in Hf. apply Qle_bool_false in Hf.
      apply not_true_is_false. intros E0. apply Qeq_bool_iff in E0. lra. }
    rewrite Hz. cbn [bind].
    destruct f as [q|sg|]; [| |discriminate].
    + pose proof (round_double_not_NaN (y0 / q)) as Hn.
      destruct (round_double (y0 / q)) as [y|sg|]; [| |contradiction].
      * left. eexists. reflexivity.
      * right. reflexivity.
    + left. eexists. reflexivity.
  - right. unfold float_of_int in E.
    destruct (round_double (inject_Z n)); try discriminate. inversion E. reflexivity.
Qed.

(** The division and rounding of a coordinate by the downsampler: the
    ceiling of the quotient, for a coordinate up to 2^53. *)
Lemma scaled_coord_exact (c s : Z) :
  - 2 ^ 53 <= c <= 2 ^ 53 -> 0 < s <= 2 ^ 1074 ->
  (q <- int_truediv c s ;; _round_like_scaling_method q) = Ok (ceil_div c s).
Proof.
  intros Hc Hs. unfold int_truediv.
  replace (s =? 0) with false by (symmetry; apply Z.eqb_neq; lia).
  destruct (round_double_quotient c s Hc Hs) as [y [Hy Hceil]].
  rewrite Hy. cbn [bind]. unfold _round_like_scaling_method, math_ceil.
  rewrite Hceil. reflexivity.
Qed.

(** The integer a float truncates to lies below 2^1024. *)
Lemma truncate_double_bound (q : Q) :
  is_double (Finite q) = true -> truncate q <= 2 ^ 1074.
Proof.
  intros H. destruct (is_double_bound q H) as [_ Hq].
  assert (Hle : (inject_Z (truncate q) < inject_Z (2 ^ 1024))%Q).
  { rewrite <- (two_power_Z 1024) by lia. unfold truncate.
    destruct (Qle_bool 0 q) eqn:E.
    - pose proof (Qfloor_le q). lra.
    - apply Qle_bool_false in E. pose proof (Qceiling_lt q) as Hc.
      assert (Hc0 : Qceiling q <= 0).
      { rewrite <- (Qceiling_Z 0). apply Qceiling_resp_le. change (inject_Z 0) with 0%Q. lra. }
      rewrite Zle_Qle in Hc0. change (inject_Z 0) with 0%Q in Hc0.
      pose proof (two_power_pos 1024). lra. }
  rewrite <- Zlt_Qlt in Hle.
  assert (2 ^ 1024 <= 2 ^ 1074) by (apply Z.pow_le_mono_r; lia). lia.
Qed.

(** ** The error monad and dictionaries *)

Lemma mapM_ok_map {A B : Type} (f : A -> result B) (g : A -> B) (l : list A) :
  (forall x, In x l -> f x = Ok (g x)) -> mapM f l = Ok (map g l).
Proof.
  induction l as [|x l IH]; simpl; intros H.
  - reflexivity.
  - rewrite (H x) by (left; reflexivity). simpl.
    rewrite IH by (intros y Hy; apply H; right; exact Hy).
    reflexivity.
Qed.

(** A comprehension raises the exception of its first failing element. *)
Lemma mapM_raise {X Y : Type} (f : X -> result Y) (e : exn) (l : list X) :
  (forall x, In x l -> (exists y, f x = Ok y) \/ f x = Raise e) ->
  (exists x, In x l /\ f x = Raise e) ->
  mapM f l = Raise e.
Proof.
  induction l as [|x l IH]; intros Hall [x0 [Hin Hx0]].
  - contradiction.
  - cbn [mapM]. destruct (Hall x (or_introl eq_refl)) as [[y Hy]|Hr].
    + rewrite Hy. cbn [bind]. destruct Hin as [->|Hin]; [congruence|].
      rewrite IH; [reflexivity | | exists x0; split; assumption].
      intros x' Hx'. apply Hall. right. exact Hx'.
    + rewrite Hr. reflexivity.
Qed.

Lemma mapM_ok_or_raise {X Y : Type} (f : X -> result Y) (e : exn) (l : list X) :
  (forall x, In x l -> (exists y, f x = Ok y) \/ f x = Raise e) ->
  (exists ys, mapM f l = Ok ys) \/ mapM f l = Raise e.
Proof.
  induction l as [|x l IH]; intros Hall.
  - left. eexists. reflexivity.
  - cbn [mapM]. destruct (Hall x (or_introl eq_refl)) as [[y Hy]|Hr].
    + rewrite Hy. cbn [bind].
      destruct IH as [[ys Hys]|Hr].
      * intros z Hz. apply Hall. right. exact Hz.
      * rewrite Hys. left. eexists. reflexivity.
      * rewrite Hr. right. reflexivity.
    + rewrite Hr. right. reflexivity.
Qed.

Lemma set_fresh {V : Type} (a : string) (v : V) (d : Dict.t V) :
  ~ In a (Dict.keys d) -> Dict.set a v d = d ++ [(a, v)].
Proof.
  induction d as [|[k w] d IH]; simpl; intros H.
  - reflexivity.
  - destruct (String.eqb_spec a k) as [->|Hne].
    + exfalso. apply H. left. reflexivity.
    + rewrite IH by (intros Hin; apply H; right; exact Hin). reflexivity.
Qed.

Lemma of_pairs_acc {V : Type} (l acc : list (string * V)) :
  NoDup (map fst (acc ++ l)) ->
  fold_left (fun d kv => Dict.set (fst kv) (snd kv) d) l acc = acc ++ l.
Proof.
  revert acc. induction l as [|[k v] l IH]; intros acc H; simpl.
  - rewrite app_nil_r. reflexivity.
  - rewrite set_fresh.
    + rewrite IH; rewrite <- app_assoc; [reflexivity | exact H].
    + rewrite map_app in H. simpl in H. apply NoDup_remove_2 in H.
      intros Hin. apply H. apply in_or_app. left. exact Hin.
Qed.

Lemma ODict_wf {V : Type} (l : list (string * V)) :
  NoDup (map fst l) -> ODict l = l.
Proof.
  intros H. unfold ODict, Dict.of_pairs. rewrite of_pairs_acc; [reflexivity | exact H].
Qed.

Lemma get_in_keys {V : Type} (d : Dict.t V) (a : string) :
  In a (Dict.keys d) -> exists v, Dict.get a d = Some v.
Proof.
  induction d as [|[k w] d IH]; simpl; intros H.
  - contradiction.
  - destruct (String.eqb_spec a k) as [->|Hne].
    + exists w. reflexivity.
    + destruct H as [H|H]; [congruence | apply IH; exact H].
Qed.

Lemma get_wf_in {V : Type} (d : Dict.t V) (a : string) (v : V) :
  Dict.wf d -> In (a, v) d -> Dict.get a d = Some v.
Proof.
  unfold Dict.wf, Dict.keys.
  induction d as [|[k w] d IH]; simpl; intros Hwf Hin.
  - contradiction.
  - inversion Hwf as [|? ? Hnotin Hwf']; subst.
    destruct Hin as [Heq|Hin].
    + inversion Heq; subst. rewrite String.eqb_refl. reflexivity.
    + destruct (String.eqb_spec a k) as [->|Hne].
      * exfalso. apply Hnotin. apply (in_map fst) in Hin. exact Hin.
      * apply IH; assumption.
Qed.

(** ** The scale-level planner *)

Lemma level_scaling_keys (shape : TaggedShape) (i : Z) :
  map fst (level_scaling shape i) = map fst shape.
Proof.
  unfold level_scaling. rewrite map_map. apply map_ext.
  intros [a n]. reflexivity.
Qed.

Lemma all_ones_level_0 (shape : TaggedShape) :
  all_ones shape = level_scaling shape 0.
Proof.
  unfold all_ones, level_scaling. apply map_ext. intros [a n].
  destruct (in_axes a SPATIAL_AXES && (1 <? n)); reflexivity.
Qed.

Lemma original_scale_all_ones (shape : TaggedShape) :
  Dict.wf shape ->
  ODict (map (fun a => (a, Finite 1)) (Dict.keys shape)) = all_ones shape.
Proof.
  intros Hwf. rewrite ODict_wf.
  - unfold Dict.keys, all_ones. rewrite map_map. apply map_ext.
    intros [a n]. reflexivity.
  - rewrite map_map. simpl. rewrite map_id. exact Hwf.
Qed.

Lemma new_scaling_level (shape : TaggedShape) (i : nat) :
  Dict.wf shape ->
  new_scaling shape i = Ok (level_scaling shape (Z.of_nat i + 1)).
Proof.
  intros Hwf. unfold new_scaling.
  set (g := fun a : string =>
              match Dict.get a shape with
              | Some n => (a, if in_axes a SPATIAL_AXES && (1 <? n)
                              then pow2 (Z.of_nat i + 1) else Finite 1)
              | None => (a, Finite 1)
              end).
  rewrite (mapM_ok_map _ g).
  - simpl. f_equal.
    assert (Hmap : map g (Dict.keys shape) = level_scaling shape (Z.of_nat i + 1)).
    { unfold Dict.keys, level_scaling. rewrite map_map.
      apply map_ext_in. intros [a n] Hin. unfold g. simpl.
      rewrite (get_wf_in shape a n Hwf Hin). reflexivity. }
    rewrite Hmap. apply ODict_wf. rewrite level_scaling_keys. exact Hwf.
  - intros a Hin. unfold g, Dict.getitem.
    destruct (get_in_keys shape a Hin) as [n Hn]. rewrite Hn.
    destruct (in_axes a SPATIAL_AXES); simpl; [|reflexivity].
    destruct (1 <? n); reflexivity.
Qed.

Lemma pow2_positive (k : Z) : 0 <= k -> float_positive (pow2 k) = true.
Proof.
  intros Hk. unfold float_positive, pow2, Qle_bool. simpl.
  assert (0 < 2 ^ k) by (apply Z.pow_pos_nonneg; lia).
  destruct (Z.leb_spec (2 ^ k * 1) 0); [lia | reflexivity].
Qed.

Lemma level_scaling_positive (shape : TaggedShape) (k : Z) :
  0 <= k -> forallb float_positive (Dict.values (level_scaling shape k)) = true.
Proof.
  intros Hk. apply forallb_forall. intros f Hin.
  unfold Dict.values, level_scaling in Hin. rewrite map_map in Hin.
  apply in_map_iff in Hin. destruct Hin as [[a n] [Hf _]]. cbn [snd] in Hf. subst f.
  destruct (in_axes a SPATIAL_AXES && (1 <? n)); [apply pow2_positive; exact Hk | reflexivity].
Qed.

Lemma get_level_scaling (shape : TaggedShape) (i : Z) (a : string) :
  Dict.get a (level_scaling shape i)
  = option_map (fun n => if in_axes a SPATIAL_AXES && (1 <? n) then pow2 i else Finite 1)
      (Dict.get a shape).
Proof.
  induction shape as [|[k n] shape IH]; simpl.
  - reflexivity.
  - destruct (String.eqb_spec a k) as [->|Hne]; [reflexivity | exact IH].
Qed.

Lemma get_level_float (shape : TaggedShape) (k : Z) (a : string) (n : Z) :
  Dict.wf shape -> In (a, n) shape ->
  Dict.get a (level_scaling shape k) = Some (level_float k (a, n)).
Proof.
  intros Hwf Hin. rewrite get_level_scaling, (get_wf_in shape a n Hwf Hin).
  reflexivity.
Qed.

Lemma level_float_pow2 (k : Z) (an : string * Z) :
  exists j, (j = k \/ j = 0) /\ level_float k an = pow2 j /\ level_factor k an = 2 ^ j.
Proof.
  unfold level_float, level_factor.
  destruct (in_axes (fst an) SPATIAL_AXES && (1 <? snd an)).
  - exists k. repeat split. left. reflexivity.
  - exists 0. repeat split. right. reflexivity.
Qed.

Lemma scaled_item (a : string) (n : Z) (f : float) :
  (q <- int_truediv_float n f ;; m <- _round_like_scaling_method q ;; Ok (a, m))
  = (m <- scaled_extent n f ;; Ok (a, m)).
Proof.
  unfold scaled_extent. destruct (int_truediv_float n f); reflexivity.
Qed.

Lemma planned_extent_ok (k : Z) (an : string * Z) :
  0 <= k -> fits_float (snd an) = true ->
  scaled_extent (snd an) (level_float k an) = Ok (planned_extent k an).
Proof.
  intros Hk Hfit. unfold planned_extent.
  destruct (level_float_pow2 k an) as [j [Hj [-> _]]].
  destruct (scaled_extent_returns (snd an) j Hfit) as [n' Hn']; [lia|].
  rewrite Hn'. reflexivity.
Qed.

(** The planner computes a shape for every level when every extent converts
    to a float. *)
Lemma scale_tagged_shape_planned (shape : TaggedShape) (k : Z) :
  Dict.wf shape -> 0 <= k ->
  Forall (fun n => fits_float n = true) (Dict.values shape) ->
  _scale_tagged_shape shape (level_scaling shape k) = Ok (planned_shape shape k).
Proof.
  intros Hwf Hk Hfit. unfold _scale_tagged_shape.
  rewrite level_scaling_positive by exact Hk.
  rewrite (mapM_ok_map _ (fun an => (fst an, planned_extent k an))).
  - cbn [bind]. f_equal. unfold planned_shape. apply ODict_wf. rewrite map_map.
    cbn [fst]. exact Hwf.
  - intros [a n] Hin. unfold Dict.items in Hin.
    rewrite (get_level_float shape k a n Hwf Hin), scaled_item.
    rewrite Forall_forall in Hfit.
    assert (Hn : fits_float n = true)
      by (apply Hfit; apply (in_map snd) in Hin; exact Hin).
    pose proof (planned_extent_ok k (a, n) Hk Hn) as Hp. cbn [snd] in Hp.
    rewrite Hp. reflexivity.
Qed.

(** It raises [OverflowError] when some extent does not. *)
Lemma scale_tagged_shape_overflow (shape : TaggedShape) (k : Z) :
  Dict.wf shape -> 0 <= k ->
  ~ Forall (fun n => fits_float n = true) (Dict.values shape) ->
  _scale_tagged_shape shape (level_scaling shape k) = Raise OverflowError.
Proof.
  intros Hwf Hk Hfit. unfold _scale_tagged_shape.
  rewrite level_scaling_positive by exact Hk.
  rewrite (mapM_raise _ OverflowError); [reflexivity | |].
  - intros [a n] Hin. unfold Dict.items in Hin.
    rewrite (get_level_float shape k a n Hwf Hin), scaled_item.
    destruct (fits_float n) eqn:E.
    + left. pose proof (planned_extent_ok k (a, n) Hk E) as Hp. cbn [snd] in Hp.
      rewrite Hp. eexists. reflexivity.
    + right. rewrite (scaled_extent_overflow n _ E). reflexivity.
  - apply neg_Forall_Exists_neg in Hfit.
    + apply Exists_exists in Hfit. destruct Hfit as [n [Hin Hn]].
      apply in_map_iff in Hin. destruct Hin as [[a n'] [Heq Hin]].
      cbn [snd] in Heq. subst n'. exists (a, n). split; [exact Hin|].
      rewrite (get_level_float shape k a n Hwf Hin), scaled_item.
      rewrite scaled_extent_overflow; [reflexivity|].
      destruct (fits_float n); [exfalso; apply Hn; reflexivity | reflexivity].
    + intros n. destruct (fits_float n); [left; reflexivity | right; discriminate].
Qed.

(** For extents up to 2^53 the planned shape is the shape of the level. *)
Lemma planned_shape_level (shape : TaggedShape) (k : Z) :
  0 <= k <= 1074 ->
  Forall (fun n => - 2 ^ 53 <= n <= 2 ^ 53) (Dict.values shape) ->
  planned_shape shape k = level_shape shape k.
Proof.
  intros Hk Hb. unfold planned_shape, level_shape. apply map_ext_in.
  intros [a n] Hin. f_equal. unfold planned_extent. cbn [fst snd].
  rewrite Forall_forall in Hb.
  assert (Hn : - 2 ^ 53 <= n <= 2 ^ 53)
    by (apply Hb; apply (in_map snd) in Hin; exact Hin).
  destruct (level_float_pow2 k (a, n)) as [j [Hj [-> ->]]].
  rewrite (scaled_extent_exact n j Hn) by lia. reflexivity.
Qed.

Lemma small_extents_fit (l : list Z) :
  Forall (fun n => - 2 ^ 53 <= n <= 2 ^ 53) l ->
  Forall (fun n => fits_float n = true) l.
Proof.
  intros H. eapply Forall_impl; [|exact H]. intros n Hn. apply fits_float_small. exact Hn.
Qed.

Lemma scale_tagged_shape_level (shape : TaggedShape) (k : Z) :
  Dict.wf shape -> 0 <= k <= 1074 ->
  Forall (fun n => - 2 ^ 53 <= n <= 2 ^ 53) (Dict.values shape) ->
  _scale_tagged_shape shape (level_scaling shape k) = Ok (level_shape shape k).
Proof.
  intros Hwf Hk Hb.
  rewrite (scale_tagged_shape_planned shape k Hwf) by (try lia; apply small_extents_fit; exact Hb).
  rewrite (planned_shape_level shape k Hk Hb). reflexivity.
Qed.

Lemma exit_condition_total (shape : TaggedShape) (chunk_shape : Shape)
    (min_length : option Z) (k : Z) :
  List.length chunk_shape = List.length shape ->
  exists b, exit_condition shape (planned_shape shape k) chunk_shape min_length = Ok b.
Proof.
  intros Hlen. unfold exit_condition.
  destruct (_is_less_than_4_chunks (planned_shape shape k) chunk_shape) eqn:H4; [eauto|].
  destruct (_reduces_any_axis_to_singleton _ _); [eauto|].
  destruct min_length as [m|]; [|eauto].
  destruct (m =? 0); [eauto|].
  destruct shape as [|[a s] shape].
  - destruct chunk_shape; [|discriminate]. vm_compute in H4. discriminate.
  - unfold planned_shape. simpl. eauto.
Qed.

Lemma scalings_loop_levels (shape : TaggedShape) (chunk_shape : Shape)
    (min_length : option Z) (n k : nat) (acc : list OrderedScaling) :
  Dict.wf shape ->
  List.length chunk_shape = List.length shape ->
  Forall (fun n => fits_float n = true) (Dict.values shape) ->
  (k + n <= sanity_limit)%nat ->
  exists j, (j <= n)%nat /\
    scalings_loop shape chunk_shape min_length (seq k n) acc
    = Ok (acc ++ map (fun i => level_scaling shape (Z.of_nat i + 1)) (seq k j)).
Proof.
  intros Hwf Hlen Hfit. revert k acc.
  induction n as [|n IH]; intros k acc Hk.
  - exists 0%nat. split; [lia|]. simpl. rewrite app_nil_r. reflexivity.
  - change (seq k (S n)) with (k :: seq (S k) n). cbn [scalings_loop].
    replace (Nat.eqb k sanity_limit) with false
      by (symmetry; apply Nat.eqb_neq; lia).
    rewrite (new_scaling_level shape k Hwf). cbn [bind].
    rewrite (scale_tagged_shape_planned shape _ Hwf) by (try lia; exact Hfit).
    cbn [bind].
    destruct (exit_condition_total shape chunk_shape min_length
                (Z.of_nat k + 1) Hlen) as [b Hb].
    rewrite Hb. cbn [bind]. destruct b.
    + exists 0%nat. split; [lia|]. simpl. rewrite app_nil_r. reflexivity.
    + destruct (IH (S k) (acc ++ [level_scaling shape (Z.of_nat k + 1)]))
        as [j [Hj Hloop]]; [lia|].
      exists (S j). split; [lia|]. rewrite Hloop.
      rewrite <- app_assoc. reflexivity.
Qed.

(** The planner returns when every extent converts to a float, and level
    [i] of its list is [level_scaling] at [i]; the list has between 1 and 21
    levels. *)
Lemma get_scalings_levels (shape : TaggedShape) (chunk_shape : Shape)
    (min_length : option Z) :
  Dict.wf shape ->
  List.length chunk_shape = List.length shape ->
  Forall (fun n => fits_float n = true) (Dict.values shape) ->
  exists j, (j <= sanity_limit)%nat /\
    _get_scalings shape chunk_shape min_length
    = Ok (map (fun i => level_scaling shape (Z.of_nat i)) (seq 0 (S j))).
Proof.
  intros Hwf Hlen Hfit. unfold _get_scalings.
  rewrite Hlen, Nat.eqb_refl.
  destruct (scalings_loop_levels shape chunk_shape min_length sanity_limit 0
              [ODict (map (fun a => (a, Finite 1)) (Dict.keys shape))] Hwf Hlen Hfit)
    as [j [Hj Hloop]]; [lia|].
  exists j. split; [exact Hj|]. rewrite Hloop.
  rewrite (original_scale_all_ones shape Hwf), all_ones_level_0.
  change (seq 0 (S j)) with (0%nat :: seq 1 j).
  cbn [map app]. rewrite <- seq_shift, map_map. do 2 f_equal.
  apply map_ext. intros i. f_equal. lia.
Qed.

(** It raises [OverflowError] in the first pass of the loop when some
    extent does not. *)
Lemma get_scalings_overflow (shape : TaggedShape) (chunk_shape : Shape)
    (min_length : option Z) :
  Dict.wf shape ->
  List.length chunk_shape = List.length shape ->
  ~ Forall (fun n => fits_float n = true) (Dict.values shape) ->
  _get_scalings shape chunk_shape min_length = Raise OverflowError.
Proof.
  intros Hwf Hlen Hfit. unfold _get_scalings.
  rewrite Hlen, Nat.eqb_refl.
  change (seq 0 sanity_limit) with (0%nat :: seq 1 19). cbn [scalings_loop].
  change (Nat.eqb 0 sanity_limit) with false. cbn iota.
  rewrite (new_scaling_level shape 0 Hwf). cbn [bind].
  rewrite (scale_tagged_shape_overflow shape _ Hwf) by (try lia; exact Hfit).
  reflexivity.
Qed.

Lemma nth_error_map_seq {B : Type} (f : nat -> B) (n i : nat) (b : B) :
  nth_error (map f (seq 0 n)) i = Some b -> (i < n)%nat /\ b = f i.
Proof.
  intros H.
  assert (Hi : (i < n)%nat).
  { assert (Hs : nth_error (map f (seq 0 n)) i <> None) by congruence.
    apply nth_error_Some in Hs. rewrite length_map, length_seq in Hs. exact Hs. }
  split; [exact Hi|].
  rewrite (nth_error_nth' _ (f 0%nat)) in H
    by (rewrite length_map, length_seq; exact Hi).
  inversion H; subst. rewrite map_nth. rewrite seq_nth by exact Hi. reflexivity.
Qed.

(** C7: for the shape {t:1, c:1, z:1, y:8, x:8} with chunks (1,1,1,4,4) the
    candidate for level 1 has the shape {y:4, x:4}, its spatial volume 16 is
    below 4 times the chunk volume 16, that is 64, so the planner stops and
    returns the all-ones scale alone, whatever [min_length] is. *)
Theorem planner_scenario_1 (min_length : option Z) :
  new_scaling scenario1_shape 0
    = Ok [("t", Finite 1); ("c", Finite 1); ("z", Finite 1); ("y", Finite 2); ("x", Finite 2)]
  /\ _scale_tagged_shape scenario1_shape
       [("t", Finite 1); ("c", Finite 1); ("z", Finite 1); ("y", Finite 2); ("x", Finite 2)]
     = Ok [("t", 1); ("c", 1); ("z", 1); ("y", 4); ("x", 4)]
  /\ numpy_prod [1; 4; 4] = 16
  /\ wrap64 (4 * numpy_prod scenario1_chunks) = 64
  /\ _is_less_than_4_chunks [("t", 1); ("c", 1); ("z", 1); ("y", 4); ("x", 4)]
       scenario1_chunks = true
  /\ _get_scalings scenario1_shape scenario1_chunks min_length
     = Ok [[("t", Finite 1); ("c", Finite 1); ("z", Finite 1); ("y", Finite 1); ("x", Finite 1)]].
Proof.
  repeat split; vm_compute; reflexivity.
Qed.

(** C2: the planner is meant to raise when more than 20 levels are
    generated.  On the long row it generates 21 levels and returns them; the
    test [i == sanity_limit] is never true for [i] in [range(sanity_limit)]. *)
Theorem sanity_cap_not_enforced :
  exists scalings,
    _get_scalings long_row_shape long_row_chunks None = Ok scalings
    /\ (20 < List.length scalings)%nat.
Proof.
  eexists. split; [vm_compute; reflexivity | simpl; lia].
Qed.

(** C3: the list of levels is meant to have at most 20 elements.  On the
    long row the planner returns exactly 21, the original scale and the
    scales 2^1 to 2^20 of the x axis. *)
Theorem long_row_has_21_levels :
  _get_scalings long_row_shape long_row_chunks None
  = Ok (map (fun i => level_scaling long_row_shape (Z.of_nat i)) (seq 0 21)).
Proof.
  vm_compute. reflexivity.
Qed.

(** The list the planner returns never has more than 21 levels and never
    fewer than one. *)
Lemma get_scalings_length (shape : TaggedShape) (chunk_shape : Shape)
    (min_length : option Z) :
  Dict.wf shape ->
  List.length chunk_shape = List.length shape ->
  Forall (fun n => fits_float n = true) (Dict.values shape) ->
  exists scalings,
    _get_scalings shape chunk_shape min_length = Ok scalings
    /\ (1 <= List.length scalings <= 21)%nat.
Proof.
  intros Hwf Hlen Hfit.
  destruct (get_scalings_levels shape chunk_shape min_length Hwf Hlen Hfit)
    as [j [Hj Heq]].
  eexists. split; [exact Heq|].
  rewrite length_map, length_seq. unfold sanity_limit in Hj. lia.
Qed.

(** C5: the planner returns a list of levels for every shape whose extents
    convert to a float, and at every level of that list an axis whose
    original extent is 1 and an axis that is not spatial have the scale
    factor 1.0. *)
Theorem singleton_axes_keep_scale_1 (shape : TaggedShape) (chunk_shape : Shape)
    (min_length : option Z) :
  Dict.wf shape ->
  List.length chunk_shape = List.length shape ->
  Forall (fun n => fits_float n = true) (Dict.values shape) ->
  exists scalings,
    _get_scalings shape chunk_shape min_length = Ok scalings
    /\ forall sc a n,
         In sc scalings ->
         Dict.get a shape = Some n ->
         n = 1 \/ in_axes a SPATIAL_AXES = false ->
         Dict.get a sc = Some (Finite 1).
Proof.
  intros Hwf Hlen Hfit.
  destruct (get_scalings_levels shape chunk_shape min_length Hwf Hlen Hfit)
    as [j [_ Heq]].
  eexists. split; [exact Heq|].
  intros sc a n Hin Hget Hcase.
  apply in_map_iff in Hin. destruct Hin as [i [Hi _]]. subst sc.
  rewrite get_level_scaling, Hget. cbn [option_map].
  destruct Hcase as [Hc|Hc]; rewrite Hc.
  - rewrite andb_false_r. reflexivity.
  - reflexivity.
Qed.

Lemma singleton_axes_keep_scale_1_witness :
  exists scalings,
    _get_scalings scenario1_shape scenario1_chunks None = Ok scalings
    /\ forall sc a n,
         In sc scalings ->
         Dict.get a scenario1_shape = Some n ->
         n = 1 \/ in_axes a SPATIAL_AXES = false ->
         Dict.get a sc = Some (Finite 1).
Proof.
  apply (singleton_axes_keep_scale_1 scenario1_shape scenario1_chunks None).
  - unfold Dict.wf. repeat constructor; simpl; intuition discriminate.
  - reflexivity.
  - repeat constructor.
Defined.

(** C6: the planner returns a list of levels for every shape whose extents
    convert to a float; element 0 of the list gives every axis the factor
    1.0; at element i >= 1 every spatial axis whose original extent exceeds
    1 has the factor 2^i and every other axis 1.0; so the factor of such a
    spatial axis doubles from each level to the next. *)
Theorem level_structure (shape : TaggedShape) (chunk_shape : Shape)
    (min_length : option Z) :
  Dict.wf shape ->
  List.length chunk_shape = List.length shape ->
  Forall (fun n => fits_float n = true) (Dict.values shape) ->
  exists scalings,
    _get_scalings shape chunk_shape min_length = Ok scalings
    /\ nth_error scalings 0 = Some (all_ones shape)
    /\ (forall i sc, (1 <= i)%nat -> nth_error scalings i = Some sc ->
          sc = level_scaling shape (Z.of_nat i))
    /\ (forall i sc sc' a n,
          nth_error scalings i = Some sc ->
          nth_error scalings (S i) = Some sc' ->
          in_axes a SPATIAL_AXES = true ->
          Dict.get a shape = Some n -> 1 < n ->
          exists f, Dict.get a sc = Some (Finite f)
                    /\ Dict.get a sc' = Some (Finite (2 * f))).
Proof.
  intros Hwf Hlen Hfit.
  destruct (get_scalings_levels shape chunk_shape min_length Hwf Hlen Hfit)
    as [j [_ Heq]].
  eexists. split; [exact Heq|]. split; [|split].
  - cbn [seq map nth_error]. rewrite all_ones_level_0. reflexivity.
  - intros i sc _ Hnth. apply nth_error_map_seq in Hnth. apply Hnth.
  - intros i sc sc' a n Hsc Hsc' Hsp Hget Hn.
    apply nth_error_map_seq in Hsc. destruct Hsc as [_ Hsc]; subst sc.
    apply nth_error_map_seq in Hsc'. destruct Hsc' as [_ Hsc']; subst sc'.
    rewrite !get_level_scaling, Hget. cbn [option_map].
    rewrite Hsp. replace (1 <? n) with true by (symmetry; apply Z.ltb_lt; exact Hn).
    cbn [andb]. unfold pow2. eexists. split; [reflexivity|].
    do 2 f_equal. unfold inject_Z, Qmult. cbn [Qnum Qden].
    rewrite Nat2Z.inj_succ, Z.pow_succ_r by lia. reflexivity.
Qed.

Lemma level_structure_witness :
  exists scalings,
    _get_scalings scenario1_shape [1; 1; 1; 1; 1] None = Ok scalings
    /\ nth_error scalings 0 = Some (all_ones scenario1_shape)
    /\ (forall i sc, (1 <= i)%nat -> nth_error scalings i = Some sc ->
          sc = level_scaling scenario1_shape (Z.of_nat i))
    /\ (forall i sc sc' a n,
          nth_error scalings i = Some sc ->
          nth_error scalings (S i) = Some sc' ->
          in_axes a SPATIAL_AXES = true ->
          Dict.get a scenario1_shape = Some n -> 1 < n ->
          exists f, Dict.get a sc = Some (Finite f)
                    /\ Dict.get a sc' = Some (Finite (2 * f))).
Proof.
  apply (level_structure scenario1_shape [1; 1; 1; 1; 1] None).
  - unfold Dict.wf. repeat constructor; simpl; intuition discriminate.
  - reflexivity.
  - repeat constructor.
Defined.

(** ** Ceiling division *)

Lemma ceil_div_opp (a s : Z) : ceil_div a s = - ((- a) / s).
Proof.
  unfold ceil_div, Qceiling. f_equal.
  rewrite Zdiv_Qdiv. apply Qfloor_comp.
  rewrite inject_Z_opp. unfold Qdiv. ring.
Qed.

(** [ceil_div a s] is the least [q] with [a <= q * s]. *)
Lemma ceil_div_le (a s q : Z) : 0 < s -> (ceil_div a s <= q <-> a <= q * s).
Proof.
  intros Hs. rewrite ceil_div_opp.
  pose proof (Z.div_mod (- a) s ltac:(lia)) as Hdm.
  pose proof (Z.mod_pos_bound (- a) s Hs) as Hr.
  split; intros H; nia.
Qed.

Lemma ceil_div_lt (a s q : Z) : 0 < s -> (q < ceil_div a s <-> q * s < a).
Proof.
  intros Hs. pose proof (ceil_div_le a s q Hs). lia.
Qed.

Lemma ceil_div_bounds (a s : Z) :
  0 < s -> (ceil_div a s - 1) * s < a <= ceil_div a s * s.
Proof.
  intros Hs. split.
  - apply ceil_div_lt; [exact Hs | lia].
  - apply ceil_div_le; [exact Hs | lia].
Qed.

Lemma ceil_div_mono (a b s : Z) : 0 < s -> a <= b -> ceil_div a s <= ceil_div b s.
Proof.
  intros Hs Hab. apply ceil_div_le; [exact Hs|].
  pose proof (ceil_div_bounds b s Hs). lia.
Qed.

Lemma ceil_div_nonneg (a s : Z) : 0 < s -> 0 <= a -> 0 <= ceil_div a s.
Proof.
  intros Hs Ha. pose proof (ceil_div_lt a s (-1) Hs). nia.
Qed.

Lemma crop_of_mod (a s : Z) : 0 < s -> crop_of a s = (s - a mod s) mod s.
Proof.
  intros Hs. unfold crop_of.
  pose proof (Z.mod_pos_bound a s Hs) as Hr.
  destruct (Z.ltb_spec 0 (a mod s)).
  - symmetry. apply Z.mod_small. lia.
  - replace (a mod s) with 0 by lia. rewrite Z.sub_0_r. symmetry. apply Z_mod_same_full.
Qed.

Lemma crop_of_ceil (a s : Z) : 0 < s -> a + crop_of a s = ceil_div a s * s.
Proof.
  intros Hs. unfold crop_of.
  pose proof (Z.mod_pos_bound a s Hs) as Hr.
  pose proof (Z.div_mod a s ltac:(lia)) as Hdm.
  destruct (Z.ltb_spec 0 (a mod s)).
  - assert (ceil_div a s <= a / s + 1) by (apply ceil_div_le; [exact Hs | lia]).
    assert (a / s < ceil_div a s) by (apply ceil_div_lt; [exact Hs | lia]).
    replace (ceil_div a s) with (a / s + 1) by lia. lia.
  - assert (ceil_div a s <= a / s) by (apply ceil_div_le; [exact Hs | lia]).
    assert (a / s - 1 < ceil_div a s) by (apply ceil_div_lt; [exact Hs | lia]).
    replace (ceil_div a s) with (a / s) by lia. lia.
Qed.

Lemma crop_of_range (a s : Z) : 0 < s -> 0 <= crop_of a s < s.
Proof.
  intros Hs. unfold crop_of.
  pose proof (Z.mod_pos_bound a s Hs) as Hr.
  destruct (Z.ltb_spec 0 (a mod s)); lia.
Qed.

(** The number of samples a block keeps along one axis. *)
Lemma range_len_block (a b s : Z) :
  0 < s -> a <= b ->
  range_len (slice_first (crop_of a s) s (b - a)) (b - a) s
  = ceil_div b s - ceil_div a s.
Proof.
  intros Hs Hab.
  pose proof (crop_of_range a s Hs) as Hc.
  pose proof (crop_of_ceil a s Hs) as Hca.
  pose proof (ceil_div_bounds b s Hs) as Hb.
  pose proof (ceil_div_mono a b s Hs Hab) as Hm.
  unfold range_len, slice_first.
  replace (0 <? s) with true by (symmetry; apply Z.ltb_lt; exact Hs).
  replace (crop_of a s <? 0) with false by (symmetry; apply Z.ltb_ge; lia).
  destruct (Z.ltb_spec (Z.min (crop_of a s) (b - a)) (b - a)) as [Hlt|Hge].
  - rewrite Z.min_l by lia.
    assert (Hlo : crop_of a s < b - a) by lia.
    set (x := (b - a - crop_of a s - 1) / s).
    pose proof (Z.div_mod (b - a - crop_of a s - 1) s ltac:(lia)) as Hdm.
    pose proof (Z.mod_pos_bound (b - a - crop_of a s - 1) s Hs) as Hr.
    fold x in Hdm. nia.
  - assert (ceil_div b s <= ceil_div a s) by (apply ceil_div_le; [exact Hs | lia]).
    lia.
Qed.

(** ** Index vectors and regions, axis by axis *)

Lemma in_shape_cons (n : Z) (shape : Shape) (i : Z) (p : list Z) :
  in_shape (n :: shape) (i :: p) = (0 <=? i) && (i <? n) && in_shape shape p.
Proof.
  unfold in_shape. simpl.
  destruct (Nat.eqb (List.length p) (List.length shape)), (0 <=? i), (i <? n);
    reflexivity.
Qed.

Lemma in_shape_length (shape : Shape) (p : list Z) :
  in_shape shape p = true -> List.length p = List.length shape.
Proof.
  unfold in_shape. intros H. apply andb_prop in H. destruct H as [H _].
  apply Nat.eqb_eq. exact H.
Qed.

Lemma in_roi_cons (i : Z) (p : list Z) (a b : Z) (starts stops : list Z) :
  in_roi (i :: p) (a :: starts, b :: stops)
  = (a <=? i) && (i <? b) && in_roi p (starts, stops).
Proof.
  unfold in_roi. simpl.
  destruct (Nat.eqb (List.length p) (List.length starts)),
    (Nat.eqb (List.length p) (List.length stops)), (a <=? i), (i <? b);
    reflexivity.
Qed.

Lemma in_roi_length (p : list Z) (roi : ROI) :
  in_roi p roi = true ->
  List.length p = List.length (fst roi) /\ List.length p = List.length (snd roi).
Proof.
  unfold in_roi. intros H.
  apply andb_prop in H. destruct H as [H _].
  apply andb_prop in H. destruct H as [H1 H2].
  split; apply Nat.eqb_eq; assumption.
Qed.

Lemma roi_within_cons (n : Z) (shape : Shape) (a b : Z) (starts stops : list Z) :
  roi_within (n :: shape) (a :: starts, b :: stops)
  = (0 <=? a) && (a <=? b) && (b <=? n) && roi_within shape (starts, stops).
Proof.
  unfold roi_within. simpl.
  destruct (Nat.eqb (List.length starts) (List.length shape)),
    (Nat.eqb (List.length stops) (List.length shape)),
    (0 <=? a), (a <=? b), (b <=? n);
    reflexivity.
Qed.

Lemma roi_within_length (shape : Shape) (roi : ROI) :
  roi_within shape roi = true ->
  List.length (fst roi) = List.length shape
  /\ List.length (snd roi) = List.length shape.
Proof.
  unfold roi_within. intros H.
  apply andb_prop in H. destruct H as [H _].
  apply andb_prop in H. destruct H as [H1 H2].
  split; apply Nat.eqb_eq; assumption.
Qed.

Lemma shape_eqb_refl (s : Shape) : shape_eqb s s = true.
Proof.
  unfold shape_eqb. rewrite Nat.eqb_refl. simpl.
  induction s as [|n s IH]; simpl; [reflexivity|].
  rewrite Z.eqb_refl. exact IH.
Qed.

(** ** The block downsampler *)

Lemma block_start_crops_ok (starts ss : list Z) :
  Forall (fun s => 0 < s) ss ->
  block_start_crops starts ss
  = Ok (map (fun '(a, s) => crop_of a s) (combine starts ss)).
Proof.
  intros Hpos. unfold block_start_crops. apply mapM_ok_map.
  intros [a s] Hin. apply in_combine_r in Hin.
  rewrite Forall_forall in Hpos. specialize (Hpos s Hin).
  unfold py_mod, crop_of.
  replace (s =? 0) with false by (symmetry; apply Z.eqb_neq; lia).
  reflexivity.
Qed.

(** The scaled coordinates are the ceilings of the quotients, for
    coordinates up to 2^53 and the integer factors of floats. *)
Lemma scaled_coords_ok (coords ss : list Z) :
  Forall (fun s => 0 < s) ss ->
  Forall (fun s => s <= 2 ^ 1074) ss ->
  Forall (fun c => - 2 ^ 53 <= c <= 2 ^ 53) coords ->
  scaled_coords coords ss
  = Ok (map (fun '(c, s) => ceil_div c s) (combine coords ss)).
Proof.
  intros Hpos Hup Hc. unfold scaled_coords. apply mapM_ok_map.
  intros [c s] Hin. pose proof (in_combine_l _ _ _ _ Hin) as Hinc.
  apply in_combine_r in Hin.
  rewrite Forall_forall in Hpos, Hup, Hc.
  apply scaled_coord_exact; [apply Hc; exact Hinc|].
  split; [apply Hpos | apply Hup]; exact Hin.
Qed.

(** The integers [int(s)] of a scaling are those of [int_scaling]. *)
Lemma mapM_int_of_float (l : list float) (ss : list Z) :
  mapM int_of_float l = Ok ss ->
  ss = map (fun f => match f with Finite q => truncate q | _ => 0 end) l.
Proof.
  revert ss. induction l as [|f l IH]; intros ss H; cbn [mapM] in H.
  - inversion H. reflexivity.
  - destruct f as [q|sg|]; try discriminate. cbn [int_of_float bind] in H.
    destruct (mapM int_of_float l) as [ss'|] eqn:E; [|discriminate].
    cbn [bind] in H. inversion H; subst ss. cbn [map]. f_equal. apply IH. reflexivity.
Qed.

Lemma int_scaling_ok (scaling : OrderedScaling) (ss : list Z) :
  mapM int_of_float (Dict.values scaling) = Ok ss -> ss = int_scaling scaling.
Proof.
  intros H. unfold int_scaling. apply mapM_int_of_float. exact H.
Qed.

(** The integer factor of a float lies below 2^1024. *)
Lemma int_scaling_upper (scaling : OrderedScaling) (ss : list Z) :
  Forall (fun f => is_double f = true) (Dict.values scaling) ->
  mapM int_of_float (Dict.values scaling) = Ok ss ->
  Forall (fun s => s <= 2 ^ 1074) ss.
Proof.
  intros Hd H. apply int_scaling_ok in H. subst ss. unfold int_scaling.
  apply Forall_map. eapply Forall_impl; [|exact Hd].
  intros f Hf. destruct f as [q|sg|].
  - apply truncate_double_bound. exact Hf.
  - apply Z.pow_nonneg. lia.
  - apply Z.pow_nonneg. lia.
Qed.

Lemma view_shape_ok (slicing : list (Z * Z)) (shape : Shape) :
  List.length slicing = List.length shape ->
  Forall (fun cs => 0 < snd cs) slicing ->
  view_shape slicing shape = Ok (sliced_shape slicing shape).
Proof.
  revert shape. induction slicing as [|[c s] slicing IH]; intros [|n shape] Hlen Hpos;
    try discriminate.
  - reflexivity.
  - inversion Hpos as [|? ? Hs Hpos']; subst. simpl in Hs.
    cbn [view_shape]. unfold slice_indices.
    replace (s =? 0) with false by (symmetry; apply Z.eqb_neq; lia).
    replace (0 <? s) with true by (symmetry; apply Z.ltb_lt; lia).
    cbn [bind]. rewrite IH by (try exact Hpos'; simpl in Hlen; lia).
    reflexivity.
Qed.

Lemma combine_steps_positive (crops ss : list Z) :
  Forall (fun s => 0 < s) ss ->
  Forall (fun cs : Z * Z => 0 < snd cs) (combine crops ss).
Proof.
  intros Hpos. apply Forall_forall. intros [c s] Hin.
  apply in_combine_r in Hin. rewrite Forall_forall in Hpos. exact (Hpos s Hin).
Qed.

Lemma block_slicing_length (starts ss : list Z) :
  List.length starts = List.length ss ->
  List.length (block_slicing starts ss) = List.length ss.
Proof.
  intros H. unfold block_slicing.
  rewrite length_combine, length_map, length_combine. lia.
Qed.

Lemma roi_coords_bounded (starts stops : list Z) :
  Forall2 (fun a b => 0 <= a <= b) starts stops ->
  Forall (fun b => b <= 2 ^ 53) stops ->
  Forall (fun c => - 2 ^ 53 <= c <= 2 ^ 53) starts
  /\ Forall (fun c => - 2 ^ 53 <= c <= 2 ^ 53) stops.
Proof.
  intros Hab. induction Hab as [|a b starts stops Hle Hab IH]; intros Hmax.
  - split; constructor.
  - inversion Hmax as [|? ? Hb Hmax']; subst.
    destruct (IH Hmax') as [Hs He].
    split; constructor; try assumption; lia.
Qed.

(** What the downsampler returns for positive integer scales. *)
Lemma apply_scaling_ok {A : Type} (data : ndarray A) (starts stops : list Z)
    (scaling : OrderedScaling) (ss : list Z) :
  mapM int_of_float (Dict.values scaling) = Ok ss ->
  Forall (fun s => 0 < s) ss ->
  Forall (fun s => s <= 2 ^ 1074) ss ->
  Forall (fun c => - 2 ^ 53 <= c <= 2 ^ 53) starts ->
  Forall (fun c => - 2 ^ 53 <= c <= 2 ^ 53) stops ->
  List.length starts = List.length ss ->
  List.length (arr_shape data) = List.length ss ->
  _apply_scaling_method data (starts, stops) scaling
  = Ok (mkArray (sliced_shape (block_slicing starts ss) (arr_shape data))
          (fun idx => arr_at data
                        (view_index (block_slicing starts ss) (arr_shape data) idx)),
        target_roi ss (starts, stops)).
Proof.
  intros Hss Hpos Hup Hbs Hbe Hstarts Hdata. unfold _apply_scaling_method.
  rewrite Hss. cbn [bind fst snd].
  rewrite (block_start_crops_ok starts ss Hpos). cbn [bind].
  rewrite (scaled_coords_ok starts ss Hpos Hup Hbs). cbn [bind].
  rewrite (scaled_coords_ok stops ss Hpos Hup Hbe). cbn [bind].
  unfold getitem_slices. fold (block_slicing starts ss).
  rewrite view_shape_ok.
  - reflexivity.
  - rewrite block_slicing_length by exact Hstarts. symmetry. exact Hdata.
  - apply combine_steps_positive. exact Hpos.
Qed.

Lemma crops_mod_form (starts ss : list Z) :
  Forall (fun s => 0 < s) ss ->
  map (fun '(a, s) => crop_of a s) (combine starts ss)
  = map (fun '(a, s) => (s - a mod s) mod s) (combine starts ss).
Proof.
  intros Hpos. apply map_ext_in. intros [a s] Hin.
  apply in_combine_r in Hin. rewrite Forall_forall in Hpos.
  apply crop_of_mod. exact (Hpos s Hin).
Qed.

Lemma block_slicing_cons (a : Z) (starts : list Z) (s : Z) (ss : list Z) :
  block_slicing (a :: starts) (s :: ss) = (crop_of a s, s) :: block_slicing starts ss.
Proof. reflexivity. Qed.

Lemma sliced_shape_cons (c s : Z) (slicing : list (Z * Z)) (n : Z) (shape : Shape) :
  sliced_shape ((c, s) :: slicing) (n :: shape)
  = range_len (slice_first c s n) n s :: sliced_shape slicing shape.
Proof. reflexivity. Qed.

(** The samples a slice [c::s] keeps of an axis of extent [n] are those
    at the positions [c + i * s] below [n]. *)
Lemma range_len_spec (c s n i : Z) :
  0 < s -> 0 <= c ->
  (0 <= i < range_len (slice_first c s n) n s <-> 0 <= i /\ c + i * s < n).
Proof.
  intros Hs Hc. unfold range_len, slice_first.
  replace (0 <? s) with true by (symmetry; apply Z.ltb_lt; exact Hs).
  replace (c <? 0) with false by (symmetry; apply Z.ltb_ge; exact Hc).
  destruct (Z.ltb_spec (Z.min c n) n) as [Hlt|Hge].
  - rewrite Z.min_l by lia.
    pose proof (Z.div_mod (n - c - 1) s ltac:(lia)) as Hdm.
    pose proof (Z.mod_pos_bound (n - c - 1) s Hs) as Hr.
    split; intros H; nia.
  - split; intros H; nia.
Qed.

Lemma slice_first_nonempty (c s n i : Z) :
  0 < s -> 0 <= c ->
  0 <= i < range_len (slice_first c s n) n s ->
  slice_first c s n = c.
Proof.
  intros Hs Hc Hi. apply range_len_spec in Hi; [|exact Hs|exact Hc].
  unfold slice_first.
  replace (0 <? s) with true by (symmetry; apply Z.ltb_lt; exact Hs).
  replace (c <? 0) with false by (symmetry; apply Z.ltb_ge; exact Hc).
  apply Z.min_l. nia.
Qed.

Lemma on_block_grid_cons (c s : Z) (slicing : list (Z * Z)) (n : Z) (shape : Shape)
    (i : Z) (idx : list Z) :
  on_block_grid ((c, s) :: slicing) (n :: shape) (i :: idx)
  = (0 <=? i) && (c + i * s <? n) && on_block_grid slicing shape idx.
Proof.
  unfold on_block_grid. simpl.
  destruct (Nat.eqb (List.length idx) (List.length shape)), (0 <=? i), (c + i * s <? n);
    reflexivity.
Qed.

Lemma in_sliced_shape (starts ss : list Z) (shape : Shape) (idx : list Z) :
  Forall (fun s => 0 < s) ss ->
  List.length starts = List.length ss ->
  List.length shape = List.length ss ->
  in_shape (sliced_shape (block_slicing starts ss) shape) idx
  = on_block_grid (block_slicing starts ss) shape idx.
Proof.
  intros Hpos. revert starts shape idx.
  induction Hpos as [|s ss Hs Hpos IH]; intros [|a starts] [|n shape] idx Hl1 Hl2;
    try discriminate.
  - destruct idx; reflexivity.
  - rewrite block_slicing_cons, sliced_shape_cons.
    destruct idx as [|i idx]; [reflexivity|].
    rewrite in_shape_cons, on_block_grid_cons.
    rewrite IH by (simpl in *; lia). f_equal.
    pose proof (crop_of_range a s Hs) as Hc.
    pose proof (range_len_spec (crop_of a s) s n i Hs ltac:(lia)) as Hspec.
    destruct (Z.leb_spec 0 i), (Z.ltb_spec i (range_len (slice_first (crop_of a s) s n) n s)),
      (Z.ltb_spec (crop_of a s + i * s) n); simpl; try reflexivity; exfalso; lia.
Qed.

Lemma view_index_block (starts ss : list Z) (shape : Shape) (idx : list Z) :
  Forall (fun s => 0 < s) ss ->
  List.length starts = List.length ss ->
  List.length shape = List.length ss ->
  in_shape (sliced_shape (block_slicing starts ss) shape) idx = true ->
  view_index (block_slicing starts ss) shape idx
  = map (fun '(i, (c, s)) => c + i * s) (combine idx (block_slicing starts ss)).
Proof.
  intros Hpos. revert starts shape idx.
  induction Hpos as [|s ss Hs Hpos IH]; intros [|a starts] [|n shape] idx Hl1 Hl2 Hin;
    try discriminate.
  - destruct idx; [reflexivity | discriminate].
  - rewrite block_slicing_cons in *. rewrite sliced_shape_cons in Hin.
    destruct idx as [|i idx]; [discriminate|].
    rewrite in_shape_cons in Hin.
    apply andb_prop in Hin. destruct Hin as [Hi Hin].
    apply andb_prop in Hi. destruct Hi as [Hi0 Hi1].
    apply Z.leb_le in Hi0. apply Z.ltb_lt in Hi1.
    pose proof (crop_of_range a s Hs) as Hc.
    cbn [view_index combine map].
    rewrite (slice_first_nonempty (crop_of a s) s n i Hs) by lia.
    f_equal. apply IH; simpl in *; try lia. exact Hin.
Qed.

Lemma sliced_shape_block (starts stops ss : list Z) :
  Forall (fun s => 0 < s) ss ->
  List.length starts = List.length ss ->
  Forall2 (fun a b => a <= b) starts stops ->
  sliced_shape (block_slicing starts ss) (roi_extent (starts, stops))
  = roi_extent (target_roi ss (starts, stops)).
Proof.
  intros Hpos Hlen Hab. revert ss Hpos Hlen.
  induction Hab as [|a b starts stops Hle Hab IH]; intros [|s ss] Hpos Hlen;
    try discriminate.
  - reflexivity.
  - inversion Hpos as [|? ? Hs Hpos']; subst.
    rewrite block_slicing_cons.
    unfold roi_extent, target_roi in *. cbn [fst snd combine map] in *.
    rewrite sliced_shape_cons. f_equal.
    + apply range_len_block; assumption.
    + apply IH; [exact Hpos' | simpl in Hlen; lia].
Qed.

Lemma nth_error_combine {X Y : Type} (l : list X) (l' : list Y) (k : nat) (x : X) (y : Y) :
  nth_error l k = Some x -> nth_error l' k = Some y ->
  nth_error (combine l l') k = Some (x, y).
Proof.
  revert l l'. induction k as [|k IH]; intros [|x0 l] [|y0 l'] Hx Hy;
    simpl in *; try discriminate.
  - inversion Hx; inversion Hy; reflexivity.
  - apply IH; assumption.
Qed.

Lemma Forall2_nth_error {X Y : Type} (R : X -> Y -> Prop) (l : list X) (l' : list Y)
    (k : nat) (x : X) (y : Y) :
  Forall2 R l l' -> nth_error l k = Some x -> nth_error l' k = Some y -> R x y.
Proof.
  intros HR. revert k. induction HR as [|x0 y0 l l' Hxy HR IH]; intros [|k] Hx Hy;
    simpl in *; try discriminate.
  - inversion Hx; inversion Hy; subst; exact Hxy.
  - exact (IH k Hx Hy).
Qed.

Lemma roi_extent_target (starts stops ss : list Z) :
  roi_extent (target_roi ss (starts, stops))
  = map (fun '((a, b), s) => ceil_div b s - ceil_div a s)
        (combine (combine starts stops) ss).
Proof.
  unfold roi_extent, target_roi. cbn [fst snd].
  revert stops ss. induction starts as [|a starts IH]; intros [|b stops] [|s ss];
    try reflexivity.
  simpl. f_equal. apply IH.
Qed.

(** C4: along every axis with a positive integer scale [s] the downsampler
    crops the block by [(s - start mod s) mod s], keeps every [s]-th sample
    from there, and returns the region from [ceil (start / s)] to
    [ceil (stop / s)], for starts and stops up to 2^53 in absolute value,
    which a float division keeps apart; for start 22 and scale 5 the crop is
    3 and the region starts at 5. *)
Theorem per_axis_algorithm {A : Type} (data : ndarray A) (starts stops : list Z)
    (scaling : OrderedScaling) (ss : list Z) :
  Forall (fun f => is_double f = true) (Dict.values scaling) ->
  mapM int_of_float (Dict.values scaling) = Ok ss ->
  Forall (fun s => 0 < s) ss ->
  Forall (fun c => - 2 ^ 53 <= c <= 2 ^ 53) starts ->
  Forall (fun c => - 2 ^ 53 <= c <= 2 ^ 53) stops ->
  List.length starts = List.length ss ->
  List.length (arr_shape data) = List.length ss ->
  let crops := map (fun '(start, s) => (s - start mod s) mod s) (combine starts ss) in
  block_start_crops starts ss = Ok crops
  /\ (exists scaled_data,
        _apply_scaling_method data (starts, stops) scaling
        = Ok (scaled_data,
              (map (fun '(start, s) => ceil_div start s) (combine starts ss),
               map (fun '(stop, s) => ceil_div stop s) (combine stops ss)))
        /\ getitem_slices data (combine crops ss) = Ok scaled_data
        /\ (forall idx,
              in_shape (arr_shape scaled_data) idx
              = on_block_grid (combine crops ss) (arr_shape data) idx)
        /\ (forall idx,
              in_shape (arr_shape scaled_data) idx = true ->
              arr_at scaled_data idx
              = arr_at data (map (fun '(i, (c, s)) => c + i * s)
                               (combine idx (combine crops ss)))))
  /\ block_start_crops [22] [5] = Ok [3]
  /\ scaled_coords [22] [5] = Ok [5].
Proof.
  intros Hd Hss Hpos Hbs Hbe Hstarts Hdata crops.
  pose proof (int_scaling_upper scaling ss Hd Hss) as Hup.
  assert (Hcrops : crops = map (fun '(a, s) => crop_of a s) (combine starts ss)).
  { unfold crops. symmetry. apply crops_mod_form. exact Hpos. }
  rewrite Hcrops. fold (block_slicing starts ss).
  split; [apply block_start_crops_ok; exact Hpos|].
  split; [|split; vm_compute; reflexivity].
  eexists. split; [|split; [|split]].
  - apply (apply_scaling_ok data starts stops scaling ss); assumption.
  - unfold getitem_slices. rewrite view_shape_ok.
    + reflexivity.
    + rewrite block_slicing_length by exact Hstarts. symmetry. exact Hdata.
    + apply combine_steps_positive. exact Hpos.
  - intros idx. cbn [arr_shape]. apply in_sliced_shape; assumption.
  - intros idx Hin. cbn [arr_shape arr_at] in *.
    rewrite view_index_block by assumption. reflexivity.
Qed.

(** C10: when the data of a block has the extent of its region, and the
    region ends at 2^53 or below, the data the downsampler returns has the
    extent of the region it returns, [ceil (stop / s) - ceil (start / s)]
    along every axis; the call does not fail, and an axis on which the block
    holds no position of the sampling grid comes out empty in both. *)
Theorem data_extent_matches_roi {A : Type} (data : ndarray A) (starts stops : list Z)
    (scaling : OrderedScaling) (ss : list Z) :
  Forall (fun f => is_double f = true) (Dict.values scaling) ->
  mapM int_of_float (Dict.values scaling) = Ok ss ->
  Forall (fun s => 0 < s) ss ->
  List.length starts = List.length ss ->
  Forall2 (fun a b => 0 <= a <= b) starts stops ->
  Forall (fun b => b <= 2 ^ 53) stops ->
  arr_shape data = roi_extent (starts, stops) ->
  exists scaled_data scaled_roi,
    _apply_scaling_method data (starts, stops) scaling = Ok (scaled_data, scaled_roi)
    /\ arr_shape scaled_data = roi_extent scaled_roi
    /\ arr_shape scaled_data
       = map (fun '((a, b), s) => ceil_div b s - ceil_div a s)
             (combine (combine starts stops) ss)
    /\ forall k a b s,
         nth_error starts k = Some a ->
         nth_error stops k = Some b ->
         nth_error ss k = Some s ->
         (forall g, ~ (a <= g * s < b)) ->
         nth_error (arr_shape scaled_data) k = Some 0
         /\ nth_error (fst scaled_roi) k = nth_error (snd scaled_roi) k.
Proof.
  intros Hd Hss Hpos Hstarts Hab Hmax Hshape.
  pose proof (int_scaling_upper scaling ss Hd Hss) as Hup.
  destruct (roi_coords_bounded starts stops Hab Hmax) as [Hbs Hbe].
  assert (Hle : Forall2 (fun a b => a <= b) starts stops).
  { eapply Forall2_impl; [|exact Hab]. simpl. intros; lia. }
  assert (Hstops : List.length stops = List.length starts).
  { symmetry. eapply Forall2_length. exact Hab. }
  assert (Hdata : List.length (arr_shape data) = List.length ss).
  { rewrite Hshape. unfold roi_extent. cbn [fst snd].
    rewrite length_map, length_combine. lia. }
  eexists. eexists. split; [|split; [|split]].
  - apply (apply_scaling_ok data starts stops scaling ss); assumption.
  - cbn [arr_shape]. rewrite Hshape. apply sliced_shape_block; assumption.
  - cbn [arr_shape]. rewrite Hshape, sliced_shape_block by assumption.
    apply roi_extent_target.
  - intros k a b s Ha Hb Hs Hgrid.
    cbn [arr_shape]. rewrite Hshape, sliced_shape_block by assumption.
    rewrite roi_extent_target. unfold target_roi. cbn [fst snd].
    assert (Hs0 : 0 < s).
    { rewrite Forall_forall in Hpos. apply Hpos. eapply nth_error_In. exact Hs. }
    assert (Hab' : a <= b) by (apply (Forall2_nth_error _ _ _ k a b Hle); assumption).
    assert (Heq : ceil_div b s = ceil_div a s).
    { apply Z.le_antisymm; [|apply ceil_div_mono; assumption].
      apply ceil_div_le; [exact Hs0|].
      pose proof (ceil_div_bounds a s Hs0) as Hc.
      specialize (Hgrid (ceil_div a s)). lia. }
    split.
    + rewrite (map_nth_error _ k _
                 (nth_error_combine _ _ k _ _ (nth_error_combine _ _ k _ _ Ha Hb) Hs)).
      f_equal. lia.
    + rewrite (map_nth_error _ k _ (nth_error_combine _ _ k _ _ Ha Hs)).
      rewrite (map_nth_error _ k _ (nth_error_combine _ _ k _ _ Hb Hs)).
      f_equal. symmetry. exact Heq.
Qed.

(** Beyond 2^53 the quotient of two integers is rounded before the ceiling
    is taken: (2^53 + 1) / 2 is the float 2^52, where the ceiling of the
    exact quotient is 2^52 + 1. *)
Example scaled_coords_round_beyond_2_53 :
  scaled_coords [2 ^ 53 + 1] [2] = Ok [2 ^ 52]
  /\ ceil_div (2 ^ 53 + 1) 2 = 2 ^ 52 + 1.
Proof.
  split; vm_compute; reflexivity.
Qed.

(** ** Seam-freedom *)

Lemma target_roi_cons (s : Z) (ss : list Z) (a b : Z) (starts stops : list Z) :
  target_roi (s :: ss) (a :: starts, b :: stops)
  = (ceil_div a s :: fst (target_roi ss (starts, stops)),
     ceil_div b s :: snd (target_roi ss (starts, stops))).
Proof. reflexivity. Qed.

Lemma target_roi_pair (ss : list Z) (roi : ROI) :
  target_roi ss roi = (fst (target_roi ss roi), snd (target_roi ss roi)).
Proof. reflexivity. Qed.

(** A point of the level lies in the region a block maps to exactly when
    its position on the sampling grid lies in the block. *)
Lemma in_target_roi (ss starts stops q : list Z) :
  Forall (fun s => 0 < s) ss ->
  List.length starts = List.length ss ->
  List.length stops = List.length ss ->
  List.length q = List.length ss ->
  in_roi q (target_roi ss (starts, stops)) = in_roi (scale_index q ss) (starts, stops).
Proof.
  intros Hpos. revert starts stops q.
  induction Hpos as [|s ss Hs Hpos IH]; intros [|a starts] [|b stops] [|i q] H1 H2 H3;
    try discriminate.
  - reflexivity.
  - rewrite target_roi_cons. unfold scale_index. cbn [combine map].
    fold (scale_index q ss). rewrite !in_roi_cons.
    rewrite <- target_roi_pair. rewrite IH by (simpl in *; lia).
    f_equal.
    pose proof (ceil_div_le a s i Hs). pose proof (ceil_div_lt b s i Hs).
    bool_cases; lia.
Qed.

Lemma target_roi_length (ss : list Z) (roi : ROI) :
  List.length (fst roi) = List.length ss ->
  List.length (snd roi) = List.length ss ->
  List.length (fst (target_roi ss roi)) = List.length ss
  /\ List.length (snd (target_roi ss roi)) = List.length ss.
Proof.
  intros H1 H2. unfold target_roi. cbn [fst snd].
  rewrite !length_map, !length_combine. lia.
Qed.

Lemma in_target_shape (ss : list Z) (shape : Shape) (q : list Z) :
  Forall (fun s => 0 < s) ss ->
  List.length shape = List.length ss ->
  List.length q = List.length ss ->
  in_shape (map (fun '(n, s) => ceil_div n s) (combine shape ss)) q
  = in_shape shape (scale_index q ss).
Proof.
  intros Hpos. revert shape q.
  induction Hpos as [|s ss Hs Hpos IH]; intros [|n shape] [|i q] H1 H2;
    try discriminate.
  - reflexivity.
  - unfold scale_index. cbn [combine map]. fold (scale_index q ss).
    rewrite !in_shape_cons. rewrite IH by (simpl in *; lia).
    f_equal.
    pose proof (ceil_div_lt n s i Hs).
    bool_cases; nia.
Qed.

Lemma in_roi_within (shape : Shape) (starts stops p : list Z) :
  roi_within shape (starts, stops) = true ->
  in_roi p (starts, stops) = true ->
  in_shape shape p = true.
Proof.
  revert starts stops p.
  induction shape as [|n shape IH]; intros [|a starts] [|b stops] [|i p] Hw Hin;
    try reflexivity;
    try (exfalso; apply roi_within_length in Hw; apply in_roi_length in Hin;
         cbn [fst snd List.length] in *; lia).
  rewrite roi_within_cons in Hw. rewrite in_roi_cons in Hin. rewrite in_shape_cons.
  apply andb_prop in Hw. destruct Hw as [Hw Hw'].
  apply andb_prop in Hin. destruct Hin as [Hin Hin'].
  rewrite (IH starts stops p Hw' Hin'). rewrite andb_true_r.
  apply andb_prop in Hw. destruct Hw as [Hw Hbn].
  apply andb_prop in Hw. destruct Hw as [H0a Hab].
  apply andb_prop in Hin. destruct Hin as [Hai Hib].
  apply Z.leb_le in H0a, Hab, Hbn, Hai. apply Z.ltb_lt in Hib.
  apply andb_true_intro. split; [apply Z.leb_le | apply Z.ltb_lt]; lia.
Qed.

Lemma roi_within_le (shape : Shape) (starts stops : list Z) :
  roi_within shape (starts, stops) = true ->
  Forall2 (fun a b => a <= b) starts stops.
Proof.
  revert starts stops.
  induction shape as [|n shape IH]; intros [|a starts] [|b stops] Hw;
    try (exfalso; apply roi_within_length in Hw; cbn [fst snd List.length] in *; lia).
  - constructor.
  - rewrite roi_within_cons in Hw.
    apply andb_prop in Hw. destruct Hw as [Hw Hw'].
    apply andb_prop in Hw. destruct Hw as [Hw _].
    apply andb_prop in Hw. destruct Hw as [_ Hab].
    constructor; [apply Z.leb_le; exact Hab | apply IH; exact Hw'].
Qed.

Lemma roi_within_target (ss : list Z) (shape : Shape) (starts stops : list Z) :
  Forall (fun s => 0 < s) ss ->
  List.length shape = List.length ss ->
  roi_within shape (starts, stops) = true ->
  roi_within (map (fun '(n, s) => ceil_div n s) (combine shape ss))
    (target_roi ss (starts, stops)) = true.
Proof.
  intros Hpos. revert shape starts stops.
  induction Hpos as [|s ss Hs Hpos IH]; intros [|n shape] [|a starts] [|b stops] Hlen Hw;
    try discriminate;
    try (exfalso; apply roi_within_length in Hw; cbn [fst snd List.length] in *; lia).
  - reflexivity.
  - rewrite target_roi_cons. cbn [combine map].
    rewrite roi_within_cons in Hw. rewrite roi_within_cons, <- target_roi_pair.
    apply andb_prop in Hw. destruct Hw as [Hw Hw'].
    rewrite (IH shape starts stops) by (try exact Hw'; simpl in Hlen; lia).
    rewrite andb_true_r.
    apply andb_prop in Hw. destruct Hw as [Hw Hbn].
    apply andb_prop in Hw. destruct Hw as [H0a Hab].
    apply Z.leb_le in H0a, Hab, Hbn.
    pose proof (ceil_div_nonneg a s Hs H0a).
    pose proof (ceil_div_mono a b s Hs Hab).
    pose proof (ceil_div_mono b n s Hs Hbn).
    bool_cases; lia.
Qed.

(** Counting the regions that hold a point, at the level and at level 0. *)
Lemma filter_target_rois (ss : list Z) (shape : Shape) (blocks : list ROI) (q : list Z) :
  Forall (fun s => 0 < s) ss ->
  List.length shape = List.length ss ->
  List.length q = List.length ss ->
  Forall (fun roi => roi_within shape roi = true) blocks ->
  filter (in_roi q) (map (target_roi ss) blocks)
  = map (target_roi ss) (filter (in_roi (scale_index q ss)) blocks).
Proof.
  intros Hpos Hshape Hq Hw.
  induction Hw as [|[starts stops] blocks Hroi Hw IH]; [reflexivity|].
  cbn [map filter].
  apply roi_within_length in Hroi. cbn [fst snd] in Hroi.
  rewrite in_target_roi by (try exact Hpos; lia).
  rewrite IH. destruct (in_roi (scale_index q ss) (starts, stops)); reflexivity.
Qed.

(** In the data the downsampler returns for a block, the sample stored at a
    point of the block's target region is the sample of the source array at
    the point's position on the sampling grid. *)
Lemma block_value_index (ss starts stops q : list Z) :
  Forall (fun s => 0 < s) ss ->
  List.length starts = List.length ss ->
  List.length stops = List.length ss ->
  in_roi q (target_roi ss (starts, stops)) = true ->
  map (fun '(a, i) => a + i)
    (combine starts
       (view_index (block_slicing starts ss) (roi_extent (starts, stops))
          (map (fun '(i, c) => i - c)
             (combine q (fst (target_roi ss (starts, stops)))))))
  = scale_index q ss.
Proof.
  intros Hpos. revert starts stops q.
  induction Hpos as [|s ss Hs Hpos IH]; intros [|a starts] [|b stops] [|i q] H1 H2 Hin;
    try discriminate;
    try (exfalso; apply in_roi_length in Hin; cbn in Hin; lia).
  - reflexivity.
  - rewrite target_roi_cons in Hin. rewrite in_roi_cons in Hin.
    rewrite <- target_roi_pair in Hin.
    apply andb_prop in Hin. destruct Hin as [Hi Hin].
    apply andb_prop in Hi. destruct Hi as [Hai Hib].
    apply Z.leb_le in Hai. apply Z.ltb_lt in Hib.
    rewrite target_roi_cons, block_slicing_cons.
    unfold roi_extent, scale_index in *. cbn [fst snd combine map view_index] in *.
    f_equal.
    + pose proof (crop_of_range a s Hs) as Hc.
      pose proof (crop_of_ceil a s Hs) as Hca.
      assert (Hlt : i * s < b) by (apply ceil_div_lt; assumption).
      unfold slice_first.
      replace (0 <? s) with true by (symmetry; apply Z.ltb_lt; exact Hs).
      replace (crop_of a s <? 0) with false by (symmetry; apply Z.ltb_ge; lia).
      rewrite Z.min_l by nia. nia.
    + apply IH; simpl in *; try lia. exact Hin.
Qed.

(** The coordinates of a region inside a shape lie between 0 and the
    extents of the shape. *)
Lemma roi_within_bounded (shape : Shape) (starts stops : list Z) :
  roi_within shape (starts, stops) = true ->
  Forall (fun n => n <= 2 ^ 53) shape ->
  Forall (fun c => - 2 ^ 53 <= c <= 2 ^ 53) starts
  /\ Forall (fun c => - 2 ^ 53 <= c <= 2 ^ 53) stops.
Proof.
  revert starts stops.
  induction shape as [|n shape IH]; intros [|a starts] [|b stops] Hw Hmax;
    try (exfalso; apply roi_within_length in Hw; cbn [fst snd List.length] in *; lia).
  - split; constructor.
  - rewrite roi_within_cons in Hw.
    apply andb_prop in Hw. destruct Hw as [Hw Hw'].
    apply andb_prop in Hw. destruct Hw as [Hw Hbn].
    apply andb_prop in Hw. destruct Hw as [H0a Hab].
    apply Z.leb_le in H0a, Hab, Hbn.
    inversion Hmax as [|? ? Hn Hmax']; subst.
    destruct (IH starts stops Hw' Hmax') as [Hs He].
    assert (0 < 2 ^ 53) by (apply Z.pow_pos_nonneg; lia).
    split; constructor; try assumption; lia.
Qed.

Lemma scale_and_write_ok {A : Type} (whole : ndarray A) (scaling : OrderedScaling)
    (ss : list Z) (z : zarray A) (starts stops : list Z) :
  mapM int_of_float (Dict.values scaling) = Ok ss ->
  Forall (fun s => 0 < s) ss ->
  Forall (fun s => s <= 2 ^ 1074) ss ->
  Forall (fun n => n <= 2 ^ 53) (arr_shape whole) ->
  List.length (arr_shape whole) = List.length ss ->
  z_shape z = arr_shape (decimate whole ss) ->
  roi_within (arr_shape whole) (starts, stops) = true ->
  exists z',
    scale_and_write scaling z (starts, stops) (block_of whole (starts, stops)) = Ok z'
    /\ z_shape z' = z_shape z
    /\ forall q,
         z_at z' q = if in_roi q (target_roi ss (starts, stops))
                     then Some (arr_at (decimate whole ss) q)
                     else z_at z q.
Proof.
  intros Hss Hpos Hup Hmax Hshape Hz Hw.
  pose proof (roi_within_length _ _ Hw) as [Hl1 Hl2]. cbn [fst snd] in Hl1, Hl2.
  pose proof (roi_within_le _ _ _ Hw) as Hle.
  destruct (roi_within_bounded _ _ _ Hw Hmax) as [Hbs Hbe].
  unfold scale_and_write.
  rewrite (apply_scaling_ok (block_of whole (starts, stops)) starts stops scaling ss)
    by (try assumption; try lia;
        unfold block_of, roi_extent; cbn [arr_shape fst snd];
        rewrite length_map, length_combine; lia).
  cbn [bind fst snd]. unfold zarr_setitem. cbn [arr_shape block_of].
  rewrite Hz. cbn [decimate arr_shape].
  rewrite (roi_within_target ss (arr_shape whole) starts stops Hpos Hshape Hw).
  rewrite sliced_shape_block by (try assumption; lia).
  rewrite shape_eqb_refl. cbn [andb].
  eexists. split; [reflexivity|]. split; [cbn [z_shape]; reflexivity|].
  intros q. unfold block_of, decimate. cbn [z_at arr_at fst snd].
  destruct (in_roi q (target_roi ss (starts, stops))) eqn:Hin; [|reflexivity].
  do 2 f_equal.
  apply block_value_index; try assumption; lia.
Qed.

Lemma write_blocks_spec {A : Type} (whole : ndarray A) (scaling : OrderedScaling)
    (ss : list Z) (blocks : list ROI) :
  mapM int_of_float (Dict.values scaling) = Ok ss ->
  Forall (fun s => 0 < s) ss ->
  Forall (fun s => s <= 2 ^ 1074) ss ->
  Forall (fun n => n <= 2 ^ 53) (arr_shape whole) ->
  List.length (arr_shape whole) = List.length ss ->
  Forall (fun roi => roi_within (arr_shape whole) roi = true) blocks ->
  forall z,
    z_shape z = arr_shape (decimate whole ss) ->
    exists z',
      write_blocks scaling whole blocks z = Ok z'
      /\ z_shape z' = z_shape z
      /\ forall q,
           z_at z' q = if existsb (in_roi q) (map (target_roi ss) blocks)
                       then Some (arr_at (decimate whole ss) q)
                       else z_at z q.
Proof.
  intros Hss Hpos Hup Hmax Hshape Hw.
  induction Hw as [|[starts stops] blocks Hroi Hw IH]; intros z Hz.
  - exists z. split; [reflexivity|]. split; reflexivity.
  - destruct (scale_and_write_ok whole scaling ss z starts stops Hss Hpos Hup Hmax
                Hshape Hz Hroi)
      as [z1 [Hz1 [Hs1 Hat1]]].
    destruct (IH z1) as [z' [Hz' [Hs' Hat']]]; [congruence|].
    exists z'. cbn [write_blocks]. rewrite Hz1. cbn [bind].
    split; [exact Hz'|]. split; [congruence|].
    intros q. rewrite Hat', Hat1. cbn [map existsb].
    destruct (in_roi q (target_roi ss (starts, stops))),
      (existsb (in_roi q) (map (target_roi ss) blocks)); reflexivity.
Qed.

Lemma filter_none {X : Type} (f : X -> bool) (l : list X) :
  (forall x, In x l -> f x = false) -> filter f l = [].
Proof.
  induction l as [|x l IH]; intros H; [reflexivity|].
  simpl. rewrite (H x) by (left; reflexivity).
  apply IH. intros y Hy. apply H. right. exact Hy.
Qed.

Lemma existsb_filter {X : Type} (f : X -> bool) (l : list X) :
  existsb f l = negb (Nat.eqb (List.length (filter f l)) 0).
Proof.
  induction l as [|x l IH]; [reflexivity|].
  simpl. destruct (f x); [reflexivity | exact IH].
Qed.

(** Over a partition of the level-0 domain the target regions cover every
    point of the level once and nothing else. *)
Lemma count_target_rois (ss : list Z) (shape : Shape) (blocks : list ROI) (q : list Z) :
  Forall (fun s => 0 < s) ss ->
  List.length shape = List.length ss ->
  is_partition shape blocks ->
  List.length (filter (in_roi q) (map (target_roi ss) blocks))
  = if in_shape (map (fun '(n, s) => ceil_div n s) (combine shape ss)) q
    then 1%nat else 0%nat.
Proof.
  intros Hpos Hshape [Hw Hone].
  destruct (Nat.eq_dec (List.length q) (List.length ss)) as [Hq|Hq].
  - rewrite (filter_target_rois ss shape blocks q Hpos Hshape Hq Hw), length_map.
    rewrite (in_target_shape ss shape q Hpos Hshape Hq).
    destruct (in_shape shape (scale_index q ss)) eqn:Hin.
    + apply Hone. exact Hin.
    + rewrite filter_none; [reflexivity|].
      intros [starts stops] Hroi. rewrite Forall_forall in Hw.
      destruct (in_roi (scale_index q ss) (starts, stops)) eqn:Hr; [|reflexivity].
      rewrite (in_roi_within shape starts stops _ (Hw _ Hroi) Hr) in Hin.
      discriminate.
  - replace (in_shape _ q) with false.
    + rewrite filter_none; [reflexivity|].
      intros roi' Hin. apply in_map_iff in Hin. destruct Hin as [roi [Heq Hroi]].
      subst roi'. rewrite Forall_forall in Hw.
      destruct (roi_within_length _ _ (Hw _ Hroi)) as [Hl1 Hl2].
      destruct (target_roi_length ss roi) as [Ht1 Ht2]; try lia.
      destruct (in_roi q (target_roi ss roi)) eqn:Hr; [|reflexivity].
      apply in_roi_length in Hr. lia.
    + symmetry. unfold in_shape.
      replace (Nat.eqb (List.length q) _) with false; [reflexivity|].
      symmetry. apply Nat.eqb_neq. rewrite length_map, length_combine. lia.
Qed.

Lemma ceil_div_0 (s : Z) : 0 < s -> ceil_div 0 s = 0.
Proof.
  intros Hs. apply Z.le_antisymm.
  - apply ceil_div_le; [exact Hs | lia].
  - apply ceil_div_nonneg; [exact Hs | lia].
Qed.

Lemma crop_of_0 (s : Z) : 0 < s -> crop_of 0 s = 0.
Proof.
  intros Hs. pose proof (crop_of_ceil 0 s Hs) as H.
  rewrite (ceil_div_0 s Hs) in H. lia.
Qed.

Lemma sliced_shape_whole (ss : list Z) (shape : Shape) :
  Forall (fun s => 0 < s) ss ->
  List.length shape = List.length ss ->
  Forall (fun n => 0 <= n) shape ->
  sliced_shape (block_slicing (origin shape) ss) shape
  = map (fun '(n, s) => ceil_div n s) (combine shape ss).
Proof.
  intros Hpos. revert shape.
  induction Hpos as [|s ss Hs Hpos IH]; intros [|n shape] Hlen Hn; try discriminate.
  - reflexivity.
  - inversion Hn as [|? ? Hn0 Hn']; subst.
    unfold origin. cbn [map]. fold (origin shape).
    rewrite block_slicing_cons, sliced_shape_cons. cbn [combine map].
    f_equal; [|apply IH; [simpl in Hlen; lia | exact Hn']].
    pose proof (range_len_block 0 n s Hs Hn0) as H.
    rewrite Z.sub_0_r, (ceil_div_0 s Hs), Z.sub_0_r in H. exact H.
Qed.

Lemma view_index_whole (ss : list Z) (shape : Shape) (q : list Z) :
  Forall (fun s => 0 < s) ss ->
  List.length shape = List.length ss ->
  in_shape (sliced_shape (block_slicing (origin shape) ss) shape) q = true ->
  view_index (block_slicing (origin shape) ss) shape q = scale_index q ss.
Proof.
  intros Hpos Hlen Hin.
  rewrite view_index_block; try assumption;
    [|unfold origin; rewrite length_map; exact Hlen].
  clear Hin. revert shape q Hlen.
  induction Hpos as [|s ss Hs Hpos IH]; intros [|n shape] q Hlen; try discriminate.
  - destruct q; reflexivity.
  - unfold origin. cbn [map]. fold (origin shape). rewrite block_slicing_cons.
    destruct q as [|i q]; [reflexivity|].
    unfold scale_index. cbn [combine map]. fold (scale_index q ss).
    rewrite (crop_of_0 s Hs). f_equal. apply IH. simpl in Hlen. lia.
Qed.

(** Applied to the whole array as one block, the downsampler computes the
    decimation. *)
Lemma whole_array_decimate {A : Type} (whole : ndarray A) (scaling : OrderedScaling)
    (ss : list Z) :
  mapM int_of_float (Dict.values scaling) = Ok ss ->
  Forall (fun s => 0 < s) ss ->
  Forall (fun s => s <= 2 ^ 1074) ss ->
  List.length (arr_shape whole) = List.length ss ->
  Forall (fun n => 0 <= n <= 2 ^ 53) (arr_shape whole) ->
  exists d r,
    _apply_scaling_method whole (origin (arr_shape whole), arr_shape whole) scaling
    = Ok (d, r)
    /\ arr_shape d = arr_shape (decimate whole ss)
    /\ forall q, in_shape (arr_shape d) q = true ->
                 arr_at d q = arr_at (decimate whole ss) q.
Proof.
  intros Hss Hpos Hup Hlen Hn.
  assert (H53 : 0 < 2 ^ 53) by (apply Z.pow_pos_nonneg; lia).
  eexists. eexists. split; [|split].
  - apply (apply_scaling_ok whole _ _ scaling ss); try assumption.
    + unfold origin. apply Forall_map. eapply Forall_impl; [|exact Hn].
      intros n _. lia.
    + eapply Forall_impl; [|exact Hn]. intros n Hn'. cbv beta in Hn'. lia.
    + unfold origin. rewrite length_map. exact Hlen.
  - cbn [arr_shape decimate]. apply sliced_shape_whole; try assumption.
    eapply Forall_impl; [|exact Hn]. intros n Hn'. cbv beta in Hn'. lia.
  - intros q Hin. cbn [arr_shape arr_at decimate] in *.
    rewrite view_index_whole by assumption. reflexivity.
Qed.

(** C1: for every partition of the level-0 domain into blocks, with extents
    up to 2^53, and every scaling with positive integer factors, the regions
    the downsampler returns tile the downscaled shape, each point in exactly
    one region and no region outside it, and writing every block's returned
    data at its returned region assembles the decimation of the whole array;
    the blocks [0,10) and [10,20) at scale 2 map to [0,5) and [5,10). *)
Theorem seam_freedom {A : Type} (whole : ndarray A) (scaling : OrderedScaling)
    (ss : list Z) (blocks : list ROI) :
  Forall (fun f => is_double f = true) (Dict.values scaling) ->
  mapM int_of_float (Dict.values scaling) = Ok ss ->
  Forall (fun s => 0 < s) ss ->
  Forall (fun n => n <= 2 ^ 53) (arr_shape whole) ->
  List.length (arr_shape whole) = List.length ss ->
  is_partition (arr_shape whole) blocks ->
  (exists outs,
     mapM (fun roi => _apply_scaling_method (block_of whole roi) roi scaling) blocks
     = Ok outs
     /\ map snd outs = map (target_roi ss) blocks
     /\ forall q,
          List.length (filter (in_roi q) (map snd outs))
          = if in_shape (arr_shape (decimate whole ss)) q then 1%nat else 0%nat)
  /\ (exists z,
        write_blocks scaling whole blocks (zarr_empty (arr_shape (decimate whole ss)))
        = Ok z
        /\ z_shape z = arr_shape (decimate whole ss)
        /\ forall q,
             z_at z q = if in_shape (arr_shape (decimate whole ss)) q
                        then Some (arr_at (decimate whole ss) q)
                        else None)
  /\ (exists d1 d2,
        _apply_scaling_method (block_of whole ([0], [10])) ([0], [10])
          [("x", Finite 2)]
        = Ok (d1, ([0], [5]))
        /\ _apply_scaling_method (block_of whole ([10], [20])) ([10], [20])
             [("x", Finite 2)]
           = Ok (d2, ([5], [10]))).
Proof.
  intros Hd Hss Hpos Hmax Hshape Hpart.
  pose proof (int_scaling_upper scaling ss Hd Hss) as Hup.
  pose proof Hpart as [Hw Hone].
  split; [|split].
  - set (g := fun roi : ROI =>
                (mkArray (sliced_shape (block_slicing (fst roi) ss)
                            (arr_shape (block_of whole roi)))
                   (fun idx => arr_at (block_of whole roi)
                                 (view_index (block_slicing (fst roi) ss)
                                    (arr_shape (block_of whole roi)) idx)),
                 target_roi ss roi)).
    exists (map g blocks). split; [|split].
    + apply mapM_ok_map. intros [starts stops] Hin.
      rewrite Forall_forall in Hw. specialize (Hw _ Hin).
      destruct (roi_within_bounded _ _ _ Hw Hmax) as [Hbs Hbe].
      apply roi_within_length in Hw. cbn [fst snd] in Hw.
      apply apply_scaling_ok; try assumption; try lia.
      unfold block_of, roi_extent. cbn [arr_shape fst snd].
      rewrite length_map, length_combine. lia.
    + rewrite map_map. reflexivity.
    + intros q. rewrite map_map. cbn [g snd decimate arr_shape].
      apply count_target_rois; assumption.
  - destruct (write_blocks_spec whole scaling ss blocks Hss Hpos Hup Hmax Hshape Hw
                (zarr_empty (arr_shape (decimate whole ss))) eq_refl)
      as [z [Hz [Hs Hat]]].
    exists z. split; [exact Hz|]. split; [exact Hs|].
    intros q. rewrite Hat. rewrite existsb_filter.
    cbn [decimate arr_shape].
    rewrite (count_target_rois ss (arr_shape whole) blocks q Hpos Hshape Hpart).
    destruct (in_shape _ q); reflexivity.
  - eexists. eexists. split; vm_compute; reflexivity.
Qed.

Lemma scenario3_is_partition : is_partition [20] scenario3_blocks.
Proof.
  split.
  - repeat constructor.
  - intros [|i [|j p]] Hin; try discriminate.
    unfold in_shape in Hin. simpl in Hin. rewrite andb_true_r in Hin.
    apply andb_prop in Hin. destruct Hin as [H0 H20].
    apply Z.leb_le in H0. apply Z.ltb_lt in H20.
    unfold scenario3_blocks, in_roi. simpl.
    destruct (Z.leb_spec 0 i); [|lia].
    destruct (Z.ltb_spec i 10), (Z.leb_spec 10 i), (Z.ltb_spec i 20);
      simpl; try reflexivity; lia.
Qed.

Lemma seam_freedom_witness :
  is_partition (arr_shape (ramp 20)) scenario3_blocks
  /\ exists z,
       write_blocks (x_scaling (Finite 2)) (ramp 20) scenario3_blocks
         (zarr_empty (arr_shape (decimate (ramp 20) [2]))) = Ok z
       /\ z_shape z = arr_shape (decimate (ramp 20) [2])
       /\ forall q,
            z_at z q = if in_shape (arr_shape (decimate (ramp 20) [2])) q
                       then Some (arr_at (decimate (ramp 20) [2]) q)
                       else None.
Proof.
  split; [exact scenario3_is_partition|].
  destruct (seam_freedom (ramp 20) (x_scaling (Finite 2)) [2] scenario3_blocks)
    as [_ [H _]].
  - constructor; [vm_compute; reflexivity | constructor].
  - reflexivity.
  - repeat constructor.
  - repeat constructor. lia.
  - reflexivity.
  - exact scenario3_is_partition.
  - exact H.
Defined.

Lemma per_axis_algorithm_witness :
  block_start_crops [22] [5] = Ok [3]
  /\ exists scaled_data,
       _apply_scaling_method (block_of (ramp 40) ([22], [32])) ([22], [32])
         (x_scaling (Finite 5))
       = Ok (scaled_data, ([5], [7]))
       /\ getitem_slices (block_of (ramp 40) ([22], [32])) [(3, 5)] = Ok scaled_data.
Proof.
  destruct (per_axis_algorithm (block_of (ramp 40) ([22], [32])) [22] [32]
              (x_scaling (Finite 5)) [5])
    as [Hc [[d [Hd [Hg _]]] _]].
  - constructor; [vm_compute; reflexivity | constructor].
  - reflexivity.
  - repeat constructor.
  - repeat constructor; lia.
  - repeat constructor; lia.
  - reflexivity.
  - reflexivity.
  - split; [exact Hc|]. exists d. split; [exact Hd | exact Hg].
Defined.

Lemma data_extent_matches_roi_witness :
  Forall2 (fun a b => 0 <= a <= b) [7] [9]
  /\ exists scaled_data scaled_roi,
       _apply_scaling_method (block_of (ramp 40) ([7], [9])) ([7], [9])
         (x_scaling (Finite 5))
       = Ok (scaled_data, scaled_roi)
       /\ arr_shape scaled_data = roi_extent scaled_roi
       /\ arr_shape scaled_data = [0].
Proof.
  assert (H79 : Forall2 (fun a b => 0 <= a <= b) [7] [9])
    by (repeat constructor; lia).
  split; [exact H79|].
  destruct (data_extent_matches_roi (block_of (ramp 40) ([7], [9])) [7] [9]
              (x_scaling (Finite 5)) [5])
    as [d [r [Hd [He [Hs _]]]]].
  - constructor; [vm_compute; reflexivity | constructor].
  - reflexivity.
  - repeat constructor.
  - reflexivity.
  - exact H79.
  - repeat constructor. lia.
  - reflexivity.
  - exists d, r. split; [exact Hd|]. split; [exact He | exact Hs].
Defined.

(** ** The metadata document *)

Lemma Forall2_map_self {X Y : Type} (R : Y -> X -> Prop) (g : X -> Y) (l : list X) :
  (forall x, In x l -> R (g x) x) -> Forall2 R (map g l) l.
Proof.
  induction l as [|x l IH]; intros H; simpl; constructor.
  - apply H. left. reflexivity.
  - apply IH. intros y Hy. apply H. right. exact Hy.
Qed.

Lemma contains_get {V : Type} (a : string) (d : Dict.t V) :
  Dict.contains a d = true -> exists v, Dict.get a d = Some v.
Proof.
  unfold Dict.contains. destruct (Dict.get a d) as [v|]; [eauto | discriminate].
Qed.

(** The attributes of the level arrays, when the store opens each of
    them. *)
Lemma array_attrs_ok (zarr_Array : string -> string -> result unit)
    (external_path : string) (attrs : ArrayAttrs) (l : list ImageMetadata) :
  Forall (fun image => zarr_Array external_path (path image) = Ok tt) l ->
  mapM (fun image => za <- zarr_Array external_path (path image) ;;
                     Ok (path image, attrs)) l
  = Ok (map (fun image => (path image, attrs)) l).
Proof.
  intros H. apply mapM_ok_map. intros image Hin.
  rewrite Forall_forall in H. rewrite (H image Hin). reflexivity.
Qed.

(** C8: in the document the writer produces, when the store opens the root
    group and the level arrays, entry [k] of the scale vector of every
    dataset is the scale factor of the axis that entry [k] of [axes] names;
    the vector has one entry per axis, five for an export with the axes t,
    c, z, y, x. *)
Theorem metadata_positional (ilastik_version : string)
    (zarr_group : string -> result unit)
    (zarr_Array : string -> string -> result unit) (pc : PathComponents)
    (multiscale_metadata : list ImageMetadata) (ilastik_meta : IlastikMeta) :
  Forall (fun key => Dict.contains key axis_types = true) (axistags ilastik_meta) ->
  Forall (fun image =>
            Forall (fun key => Dict.contains key (scale image) = true)
                   (axistags ilastik_meta))
         multiscale_metadata ->
  zarr_group (externalPath pc) = Ok tt ->
  Forall (fun image => zarr_Array (externalPath pc) (path image) = Ok tt)
         multiscale_metadata ->
  exists out m,
    _write_ome_zarr_and_ilastik_metadata ilastik_version zarr_group zarr_Array pc
      multiscale_metadata ilastik_meta = Ok out
    /\ multiscales out = [m]
    /\ map axis_name (axes m) = axistags ilastik_meta
    /\ Forall2
         (fun ds image =>
            ds_path ds = path image
            /\ exists tr,
                 coordinateTransformations ds = [tr]
                 /\ tr_type tr = "scale"
                 /\ List.length (tr_scale tr) = List.length (axes m)
                 /\ forall k ax,
                      nth_error (axes m) k = Some ax ->
                      exists f,
                        nth_error (tr_scale tr) k = Some f
                        /\ Dict.get (axis_name ax) (scale image) = Some f)
         (datasets m) multiscale_metadata
    /\ (axistags ilastik_meta = ["t"; "c"; "z"; "y"; "x"] ->
        Forall (fun ds =>
                  exists ft fc fz fy fx,
                    coordinateTransformations ds
                    = [mkTransformation "scale" [ft; fc; fz; fy; fx]])
               (datasets m)).
Proof.
  intros Haxes Hscales Hgroup Harrays.
  set (tags := axistags ilastik_meta) in *.
  set (gax := fun key : string =>
                mkAxisEntry key
                  (match Dict.get key axis_types with Some ty => ty | None => "" end)).
  set (gsc := fun (image : ImageMetadata) (key : string) =>
                match Dict.get key (scale image) with Some f => f | None => Finite 0 end).
  set (gds := fun image : ImageMetadata =>
                mkDataset (path image) [mkTransformation "scale" (map (gsc image) tags)]).
  assert (Hax : mapM (fun key => ty <- Dict.getitem key axis_types ;;
                                 Ok (mkAxisEntry key ty)) tags
                = Ok (map gax tags)).
  { apply mapM_ok_map. intros key Hin.
    rewrite Forall_forall in Haxes.
    destruct (contains_get key axis_types (Haxes key Hin)) as [ty Hty].
    unfold gax, Dict.getitem. rewrite Hty. reflexivity. }
  assert (Hsc : forall image, In image multiscale_metadata ->
                  mapM (fun key => Dict.getitem key (scale image)) tags
                  = Ok (map (gsc image) tags)).
  { intros image Hin. apply mapM_ok_map. intros key Hkey.
    rewrite Forall_forall in Hscales. specialize (Hscales image Hin).
    rewrite Forall_forall in Hscales.
    destruct (contains_get key (scale image) (Hscales key Hkey)) as [f Hf].
    unfold gsc, Dict.getitem. rewrite Hf. reflexivity. }
  assert (Hds : mapM (fun image =>
                        sc <- mapM (fun key => Dict.getitem key (scale image)) tags ;;
                        Ok (mkDataset (path image) [mkTransformation "scale" sc]))
                     multiscale_metadata
                = Ok (map gds multiscale_metadata)).
  { apply mapM_ok_map. intros image Hin. rewrite (Hsc image Hin). reflexivity. }
  unfold _write_ome_zarr_and_ilastik_metadata. fold tags.
  rewrite Hax. cbn [bind]. rewrite Hds. cbn [bind].
  rewrite Hgroup. cbn [bind].
  rewrite (array_attrs_ok zarr_Array _ _ _ Harrays). cbn [bind].
  eexists. eexists. split; [reflexivity|]. split; [reflexivity|].
  cbn [axes datasets].
  assert (Hnames : map axis_name (map gax tags) = tags).
  { rewrite map_map. unfold gax. simpl. apply map_id. }
  split; [exact Hnames|]. split.
  - apply Forall2_map_self. intros image Hin. split; [reflexivity|].
    eexists. split; [reflexivity|]. split; [reflexivity|]. split.
    + cbn [tr_scale]. rewrite !length_map. reflexivity.
    + intros k ax Hk. cbn [tr_scale].
      rewrite nth_error_map in Hk.
      destruct (nth_error tags k) as [key|] eqn:Hkey; [|discriminate].
      inversion Hk; subst ax. cbn [gax axis_name].
      exists (gsc image key). split.
      * rewrite nth_error_map, Hkey. reflexivity.
      * rewrite Forall_forall in Hscales. specialize (Hscales image Hin).
        rewrite Forall_forall in Hscales.
        destruct (contains_get key (scale image)
                    (Hscales key (nth_error_In _ _ Hkey))) as [f Hf].
        unfold gsc. rewrite Hf. reflexivity.
  - intros Htags. apply Forall_forall. intros ds Hin.
    apply in_map_iff in Hin. destruct Hin as [image [Hds' _]]. subst ds.
    unfold gds. cbn [coordinateTransformations]. rewrite Htags. simpl.
    repeat eexists.
Qed.

Lemma metadata_positional_witness :
  Forall (fun key => Dict.contains key axis_types = true) tczyx
  /\ exists out m,
       _write_ome_zarr_and_ilastik_metadata "1.4" (fun _ => Ok tt) (fun _ _ => Ok tt)
         (mkPathComponents "out.zarr" None)
         two_levels (mkIlastikMeta tczyx None None) = Ok out
       /\ multiscales out = [m]
       /\ map axis_name (axes m) = tczyx
       /\ Forall (fun ds =>
                    exists ft fc fz fy fx,
                      coordinateTransformations ds
                      = [mkTransformation "scale" [ft; fc; fz; fy; fx]])
                 (datasets m).
Proof.
  assert (Hax : Forall (fun key => Dict.contains key axis_types = true) tczyx)
    by (repeat constructor).
  split; [exact Hax|].
  destruct (metadata_positional "1.4" (fun _ => Ok tt) (fun _ _ => Ok tt)
              (mkPathComponents "out.zarr" None)
              two_levels (mkIlastikMeta tczyx None None))
    as [out [m [Hout [Hm [Hnames [_ H5]]]]]].
  - exact Hax.
  - repeat constructor.
  - reflexivity.
  - repeat constructor.
  - exists out, m. split; [exact Hout|]. split; [exact Hm|].
    split; [exact Hnames|]. apply H5. reflexivity.
Defined.

(** ** The chunk shape *)

Lemma contains_false_notin {V : Type} (a : string) (d : Dict.t V) :
  Dict.contains a d = false -> ~ In a (Dict.keys d).
Proof.
  intros Hc Hin. destruct (get_in_keys d a Hin) as [v Hv].
  unfold Dict.contains in Hc. rewrite Hv in Hc. discriminate.
Qed.

Lemma map_upd_notin {V : Type} (a : string) (v : V) (d : Dict.t V) :
  ~ In a (Dict.keys d) -> map (upd a v) d = d.
Proof.
  induction d as [|[k w] d IH]; intros H; [reflexivity|].
  simpl. unfold upd at 1. cbn [fst].
  destruct (String.eqb_spec a k) as [Heq|Hne].
  - exfalso. apply H. left. symmetry. exact Heq.
  - f_equal. apply IH. intros Hin. apply H. right. exact Hin.
Qed.

Lemma set_decomp {V : Type} (a : string) (v : V) (d : Dict.t V) :
  Dict.wf d ->
  Dict.set a v d
  = map (upd a v) d ++ (if Dict.contains a d then [] else [(a, v)]).
Proof.
  unfold Dict.wf, Dict.keys, Dict.contains.
  induction d as [|[k w] d IH]; intros Hwf; [reflexivity|].
  inversion Hwf as [|? ? Hnotin Hwf']; subst.
  simpl. unfold upd at 1. cbn [fst].
  destruct (String.eqb_spec a k) as [Heq|Hne].
  - subst k. rewrite map_upd_notin by exact Hnotin. rewrite app_nil_r. reflexivity.
  - rewrite (IH Hwf'). reflexivity.
Qed.

Lemma keys_map_upd {V : Type} (a : string) (v : V) (d : Dict.t V) :
  Dict.keys (map (upd a v) d) = Dict.keys d.
Proof.
  unfold Dict.keys. rewrite map_map. apply map_ext. intros [k w].
  unfold upd. cbn [fst]. destruct (String.eqb a k); reflexivity.
Qed.

Lemma contains_set {V : Type} (a b : string) (v : V) (d : Dict.t V) :
  Dict.contains a d = true -> Dict.contains a (Dict.set b v d) = true.
Proof.
  unfold Dict.contains.
  induction d as [|[k w] d IH]; simpl; intros H; [discriminate|].
  destruct (String.eqb_spec b k) as [Hbk|Hbk]; simpl.
  - destruct (String.eqb a k); [reflexivity | exact H].
  - destruct (String.eqb a k); [reflexivity | apply IH; exact H].
Qed.

Lemma wf_set {V : Type} (a : string) (v : V) (d : Dict.t V) :
  Dict.wf d -> Dict.wf (Dict.set a v d).
Proof.
  intros Hwf. rewrite set_decomp by exact Hwf.
  unfold Dict.wf, Dict.keys. rewrite map_app.
  fold (Dict.keys (map (upd a v) d)). rewrite keys_map_upd.
  destruct (Dict.contains a d) eqn:Hc; simpl.
  - rewrite app_nil_r. exact Hwf.
  - apply (NoDup_Add (a := a) (l := Dict.keys d)).
    + clear. induction (Dict.keys d) as [|x l IH]; simpl; constructor. exact IH.
    + split; [exact Hwf | apply contains_false_notin; exact Hc].
Qed.

Lemma values_forced (shape : TaggedShape) :
  Dict.values (map (upd "c" 1) (map (upd "t" 1) shape)) = map forced_extent shape.
Proof.
  unfold Dict.values. rewrite !map_map. apply map_ext. intros [a n].
  unfold upd, forced_extent. cbn [fst snd].
  destruct (String.eqb "t" a); cbn [fst snd];
    destruct (String.eqb "c" a); reflexivity.
Qed.

Lemma main_bounds (main : list Z) (shape : TaggedShape) :
  Forall2 (fun r m => 1 <= r <= m) main (map forced_extent shape) ->
  Forall (fun n => 1 <= n) (Dict.values shape) ->
  Forall2 (fun r an => 1 <= r <= snd an
                       /\ (fst an = "t" \/ fst an = "c" -> r = 1))
          main shape.
Proof.
  revert main. induction shape as [|[a n] shape IH]; intros main H2 Hpos.
  - inversion H2. constructor.
  - simpl in H2. inversion H2 as [|r m main' ? Hr H2']; subst.
    inversion Hpos as [|? ? Hn Hpos']; subst.
    constructor; [|apply IH; assumption].
    unfold forced_extent in Hr. cbn [fst snd] in *.
    destruct (String.eqb_spec "c" a), (String.eqb_spec "t" a); simpl in Hr;
      (split; [lia | intros [Ht|Hc]; try lia; congruence]).
Qed.

Lemma extra_ones (extra ones : list Z) :
  Forall2 (fun r m => 1 <= r <= m) extra ones ->
  Forall (fun m => m = 1) ones ->
  Forall (fun r => r = 1) extra.
Proof.
  intros H2. induction H2 as [|r m extra ones Hr H2 IH]; intros H1; constructor.
  - inversion H1; subst. lia.
  - apply IH. inversion H1; assumption.
Qed.

Lemma clamp_block_shape_spec : determineBlockShape_spec clamp_block_shape.
Proof.
  intros max_shape target Hpos. unfold clamp_block_shape.
  induction Hpos as [|m max_shape Hm Hpos IH]; simpl; constructor.
  - lia.
  - exact IH.
Qed.

(** C9: the chunk shape has, for every axis of the source, an extent of at
    least 1 and at most the extent of the axis, and the extent 1 for the
    axes t and c, whatever the element size; a source without a t or c axis
    gets an entry 1 appended for it.  The block-shape heuristic is taken by
    its contract. *)
Theorem chunk_shape_bounds (determineBlockShape : list Z -> Q -> list Z)
    (image_source_slot : Slot) :
  determineBlockShape_spec determineBlockShape ->
  Dict.wf (getTaggedShape image_source_slot) ->
  Forall (fun n => 1 <= n) (Dict.values (getTaggedShape image_source_slot)) ->
  exists main extra,
    _get_chunk_shape determineBlockShape image_source_slot = main ++ extra
    /\ Forall2 (fun r an => 1 <= r <= snd an
                            /\ (fst an = "t" \/ fst an = "c" -> r = 1))
         main (Dict.items (getTaggedShape image_source_slot))
    /\ Forall (fun r => r = 1) extra
    /\ (Dict.contains "t" (getTaggedShape image_source_slot) = true ->
        Dict.contains "c" (getTaggedShape image_source_slot) = true ->
        extra = []).
Proof.
  intros Hspec Hwf Hpos. unfold _get_chunk_shape.
  set (shape := getTaggedShape image_source_slot) in *.
  set (target := (512000 / inject_Z (nbytes (meta_dtype image_source_slot)))%Q).
  set (e1 := if Dict.contains "t" shape then [] else [("t", 1)]).
  set (e2 := if Dict.contains "c" (Dict.set "t" 1 shape) then [] else [("c", 1)]).
  assert (Hset : Dict.values (Dict.set "c" 1 (Dict.set "t" 1 shape))
                 = map forced_extent shape
                   ++ Dict.values (map (upd "c" 1) e1 ++ e2)).
  { rewrite (set_decomp "c" 1 (Dict.set "t" 1 shape)) by (apply wf_set; exact Hwf).
    fold e2. rewrite (set_decomp "t" 1 shape Hwf). fold e1.
    rewrite map_app, <- app_assoc. unfold Dict.values at 1. rewrite map_app.
    fold (Dict.values (map (upd "c" 1) (map (upd "t" 1) shape))).
    rewrite values_forced. reflexivity. }
  assert (Hones : Forall (fun m => m = 1) (Dict.values (map (upd "c" 1) e1 ++ e2))).
  { unfold e1, e2.
    destruct (Dict.contains "t" shape), (Dict.contains "c" (Dict.set "t" 1 shape));
      repeat constructor. }
  assert (Hmax : Forall (fun m => 1 <= m)
                   (Dict.values (Dict.set "c" 1 (Dict.set "t" 1 shape)))).
  { rewrite Hset. apply Forall_app. split.
    - apply Forall_forall. intros m Hin. apply in_map_iff in Hin.
      destruct Hin as [[a n] [Hm Hin]]. subst m.
      rewrite Forall_forall in Hpos.
      assert (1 <= n) by (apply Hpos; apply (in_map snd) in Hin; exact Hin).
      unfold forced_extent. cbn [fst snd].
      destruct (String.eqb "c" a || String.eqb "t" a); lia.
    - eapply Forall_impl; [|exact Hones]. simpl. intros; lia. }
  pose proof (Hspec _ target Hmax) as H2. rewrite Hset in H2.
  apply Forall2_app_inv_r in H2.
  destruct H2 as [main [extra [Hmain [Hextra Heq]]]].
  exists main, extra. split; [rewrite Hset; exact Heq|]. split; [|split].
  - apply main_bounds; assumption.
  - apply (extra_ones extra _ Hextra Hones).
  - intros Ht Hc. unfold e1, e2 in Hextra.
    rewrite Ht in Hextra. rewrite (contains_set "c" "t" 1 shape Hc) in Hextra.
    inversion Hextra. reflexivity.
Qed.

Lemma chunk_shape_bounds_witness :
  determineBlockShape_spec clamp_block_shape
  /\ Dict.wf (getTaggedShape scenario1_slot)
  /\ exists main,
       _get_chunk_shape clamp_block_shape scenario1_slot = main ++ []
       /\ Forall2 (fun r an => 1 <= r <= snd an
                               /\ (fst an = "t" \/ fst an = "c" -> r = 1))
            main (Dict.items (getTaggedShape scenario1_slot)).
Proof.
  assert (Hwf : Dict.wf (getTaggedShape scenario1_slot)).
  { unfold Dict.wf. repeat constructor; simpl; intuition discriminate. }
  split; [exact clamp_block_shape_spec|]. split; [exact Hwf|].
  destruct (chunk_shape_bounds clamp_block_shape scenario1_slot)
    as [main [extra [Heq [Hmain [_ Hnil]]]]].
  - exact clamp_block_shape_spec.
  - exact Hwf.
  - repeat constructor; simpl; lia.
  - exists main. split; [|exact Hmain].
    rewrite Heq. f_equal. apply Hnil; reflexivity.
Defined.

(** * Further properties of the planner *)

Lemma scalings_loop_exits (shape : TaggedShape) (chunk_shape : Shape)
    (min_length : option Z) (n k : nat) (acc : list OrderedScaling) :
  Dict.wf shape ->
  List.length chunk_shape = List.length shape ->
  Forall (fun n => fits_float n = true) (Dict.values shape) ->
  (k + n <= sanity_limit)%nat ->
  exists j, (j <= n)%nat
    /\ scalings_loop shape chunk_shape min_length (seq k n) acc
       = Ok (acc ++ map (fun i => level_scaling shape (Z.of_nat i + 1)) (seq k j))
    /\ (forall i, (k <= i < k + j)%nat ->
          exit_condition shape (planned_shape shape (Z.of_nat i + 1)) chunk_shape min_length
          = Ok false)
    /\ ((j < n)%nat ->
          exit_condition shape (planned_shape shape (Z.of_nat (k + j) + 1)) chunk_shape
            min_length = Ok true).
Proof.
  intros Hwf Hlen Hfit. revert k acc.
  induction n as [|n IH]; intros k acc Hk.
  - exists 0%nat. split; [lia|]. split; [|split].
    + simpl. rewrite app_nil_r. reflexivity.
    + intros i Hi. lia.
    + intros Hj. lia.
  - change (seq k (S n)) with (k :: seq (S k) n). cbn [scalings_loop].
    replace (Nat.eqb k sanity_limit) with false
      by (symmetry; apply Nat.eqb_neq; lia).
    rewrite (new_scaling_level shape k Hwf). cbn [bind].
    rewrite (scale_tagged_shape_planned shape _ Hwf) by (try lia; exact Hfit).
    cbn [bind].
    destruct (exit_condition_total shape chunk_shape min_length
                (Z.of_nat k + 1) Hlen) as [b Hb].
    rewrite Hb. cbn [bind]. destruct b.
    + exists 0%nat. split; [lia|]. split; [|split].
      * simpl. rewrite app_nil_r. reflexivity.
      * intros i Hi. lia.
      * intros _. rewrite Nat.add_0_r. exact Hb.
    + destruct (IH (S k) (acc ++ [level_scaling shape (Z.of_nat k + 1)]))
        as [j [Hj [Hloop [Hpass Hstop]]]]; [lia|].
      exists (S j). split; [lia|]. split; [|split].
      * rewrite Hloop. rewrite <- app_assoc. reflexivity.
      * intros i Hi. destruct (Nat.eq_dec i k) as [->|Hne]; [exact Hb|].
        apply Hpass. lia.
      * intros HSj. replace (k + S j)%nat with (S k + j)%nat by lia.
        apply Hstop. lia.
Qed.

(** The levels the planner returns, with the value of the exit condition at
    each of them and at the first level it leaves out. *)
Lemma get_scalings_exits (shape : TaggedShape) (chunk_shape : Shape)
    (min_length : option Z) :
  Dict.wf shape ->
  List.length chunk_shape = List.length shape ->
  Forall (fun n => fits_float n = true) (Dict.values shape) ->
  exists j, (j <= sanity_limit)%nat
    /\ _get_scalings shape chunk_shape min_length
       = Ok (map (fun i => level_scaling shape (Z.of_nat i)) (seq 0 (S j)))
    /\ (forall i, (1 <= i <= j)%nat ->
          exit_condition shape (planned_shape shape (Z.of_nat i)) chunk_shape min_length
          = Ok false)
    /\ ((j < sanity_limit)%nat ->
          exit_condition shape (planned_shape shape (Z.of_nat (S j))) chunk_shape
            min_length = Ok true).
Proof.
  intros Hwf Hlen Hfit. unfold _get_scalings.
  rewrite Hlen, Nat.eqb_refl.
  destruct (scalings_loop_exits shape chunk_shape min_length sanity_limit 0
              [ODict (map (fun a => (a, Finite 1)) (Dict.keys shape))] Hwf Hlen Hfit)
    as [j [Hj [Hloop [Hpass Hstop]]]]; [lia|].
  exists j. split; [exact Hj|]. split; [|split].
  - rewrite Hloop.
    rewrite (original_scale_all_ones shape Hwf), all_ones_level_0.
    change (seq 0 (S j)) with (0%nat :: seq 1 j).
    cbn [map app]. rewrite <- seq_shift, map_map. do 2 f_equal.
    apply map_ext. intros i. f_equal. lia.
  - intros i Hi. destruct i as [|i]; [lia|].
    replace (Z.of_nat (S i)) with (Z.of_nat i + 1) by lia.
    apply Hpass. lia.
  - intros Hlt. replace (Z.of_nat (S j)) with (Z.of_nat (0 + j) + 1) by lia.
    apply Hstop. exact Hlt.
Qed.

Lemma exit_condition_false (shape new_shape : TaggedShape) (chunk_shape : Shape)
    (min_length : option Z) :
  exit_condition shape new_shape chunk_shape min_length = Ok false ->
  _is_less_than_4_chunks new_shape chunk_shape = false
  /\ _reduces_any_axis_to_singleton (Dict.values new_shape) (Dict.values shape) = false
  /\ forall m, min_length = Some m -> m <> 0 ->
       exists largest, py_max (Dict.values new_shape) = Ok largest /\ m <= largest.
Proof.
  unfold exit_condition. intros H.
  destruct (_is_less_than_4_chunks new_shape chunk_shape); [discriminate|].
  destruct (_reduces_any_axis_to_singleton _ _); [discriminate|].
  split; [reflexivity|]. split; [reflexivity|].
  intros m Hm Hm0. subst min_length.
  destruct (Z.eqb_spec m 0) as [|_]; [contradiction|].
  destruct (py_max (Dict.values new_shape)) as [largest|e]; [|discriminate].
  cbn [bind] in H. exists largest. split; [reflexivity|].
  inversion H as [Hlt]. apply Z.ltb_ge in Hlt. exact Hlt.
Qed.

(** X1: when every extent converts to a float, the planner returns a list
    and every level after the first in it passed all three tests of the
    loop: its shape has at least 4 chunks' worth of spatial volume, no axis
    longer than 1 was reduced to 1, and with a non-zero [min_length] its
    largest extent is at least [min_length]. *)
Theorem returned_levels_pass_exit_tests (shape : TaggedShape) (chunk_shape : Shape)
    (min_length : option Z) :
  Dict.wf shape ->
  List.length chunk_shape = List.length shape ->
  Forall (fun n => fits_float n = true) (Dict.values shape) ->
  exists scalings,
    _get_scalings shape chunk_shape min_length = Ok scalings
    /\ forall i sc,
         (1 <= i)%nat -> nth_error scalings i = Some sc ->
         exists new_shape,
           _scale_tagged_shape shape sc = Ok new_shape
           /\ _is_less_than_4_chunks new_shape chunk_shape = false
           /\ _reduces_any_axis_to_singleton (Dict.values new_shape)
                (Dict.values shape) = false
           /\ forall m, min_length = Some m -> m <> 0 ->
                exists largest,
                  py_max (Dict.values new_shape) = Ok largest /\ m <= largest.
Proof.
  intros Hwf Hlen Hfit.
  destruct (get_scalings_exits shape chunk_shape min_length Hwf Hlen Hfit)
    as [j [_ [Heq [Hpass _]]]].
  eexists. split; [exact Heq|].
  intros i sc Hi Hnth. apply nth_error_map_seq in Hnth.
  destruct Hnth as [Hij Hsc]. subst sc.
  exists (planned_shape shape (Z.of_nat i)). split.
  - apply scale_tagged_shape_planned; [exact Hwf | lia | exact Hfit].
  - apply exit_condition_false. apply Hpass. lia.
Qed.

Lemma returned_levels_pass_exit_tests_witness :
  Dict.wf scenario1_shape
  /\ exists scalings,
       _get_scalings scenario1_shape [1; 1; 1; 1; 1] (Some 2) = Ok scalings
       /\ forall i sc,
            (1 <= i)%nat -> nth_error scalings i = Some sc ->
            exists new_shape,
              _scale_tagged_shape scenario1_shape sc = Ok new_shape
              /\ _is_less_than_4_chunks new_shape [1; 1; 1; 1; 1] = false
              /\ _reduces_any_axis_to_singleton (Dict.values new_shape)
                   (Dict.values scenario1_shape) = false
              /\ forall m, Some 2 = Some m -> m <> 0 ->
                   exists largest,
                     py_max (Dict.values new_shape) = Ok largest /\ m <= largest.
Proof.
  assert (Hwf : Dict.wf scenario1_shape).
  { unfold Dict.wf. repeat constructor; simpl; intuition discriminate. }
  split; [exact Hwf|].
  apply (returned_levels_pass_exit_tests scenario1_shape [1; 1; 1; 1; 1] (Some 2)).
  - exact Hwf.
  - reflexivity.
  - repeat constructor.
Defined.

(** X2: the list is cut at the first level that meets an exit condition:
    when every extent converts to a float and the planner returns fewer
    than 21 levels, the level after the last one meets one of them. *)
Theorem first_omitted_level_meets_exit_test (shape : TaggedShape)
    (chunk_shape : Shape) (min_length : option Z) :
  Dict.wf shape ->
  List.length chunk_shape = List.length shape ->
  Forall (fun n => fits_float n = true) (Dict.values shape) ->
  exists scalings,
    _get_scalings shape chunk_shape min_length = Ok scalings
    /\ ((List.length scalings < 21)%nat ->
        exists sc new_shape,
          new_scaling shape (List.length scalings - 1) = Ok sc
          /\ _scale_tagged_shape shape sc = Ok new_shape
          /\ exit_condition shape new_shape chunk_shape min_length = Ok true).
Proof.
  intros Hwf Hlen Hfit.
  destruct (get_scalings_exits shape chunk_shape min_length Hwf Hlen Hfit)
    as [j [_ [Heq [_ Hstop]]]].
  eexists. split; [exact Heq|].
  rewrite length_map, length_seq. intros Hlt.
  replace (S j - 1)%nat with j by lia.
  exists (level_scaling shape (Z.of_nat j + 1)), (planned_shape shape (Z.of_nat j + 1)).
  split; [apply new_scaling_level; exact Hwf|].
  split; [apply scale_tagged_shape_planned; [exact Hwf | lia | exact Hfit]|].
  replace (Z.of_nat j + 1) with (Z.of_nat (S j)) by lia.
  apply Hstop. unfold sanity_limit. lia.
Qed.

Lemma first_omitted_level_meets_exit_test_witness :
  Dict.wf scenario1_shape
  /\ exists scalings,
       _get_scalings scenario1_shape scenario1_chunks None = Ok scalings
       /\ ((List.length scalings < 21)%nat ->
           exists sc new_shape,
             new_scaling scenario1_shape (List.length scalings - 1) = Ok sc
             /\ _scale_tagged_shape scenario1_shape sc = Ok new_shape
             /\ exit_condition scenario1_shape new_shape scenario1_chunks None
                = Ok true).
Proof.
  assert (Hwf : Dict.wf scenario1_shape).
  { unfold Dict.wf. repeat constructor; simpl; intuition discriminate. }
  split; [exact Hwf|].
  apply (first_omitted_level_meets_exit_test scenario1_shape scenario1_chunks None).
  - exact Hwf.
  - reflexivity.
  - repeat constructor.
Defined.

Lemma get_some_in {V : Type} (d : Dict.t V) (a : string) (v : V) :
  Dict.get a d = Some v -> In (a, v) d.
Proof.
  induction d as [|[k w] d IH]; simpl; intros H.
  - discriminate.
  - destruct (String.eqb_spec a k) as [->|Hne].
    + inversion H; subst. left. reflexivity.
    + right. apply IH. exact H.
Qed.

Lemma planned_shape_extent (shape : TaggedShape) (k : Z) :
  planned_shape shape k = map (fun '(a, s) => (a, planned_extent k (a, s))) shape.
Proof.
  unfold planned_shape. apply map_ext. intros [a s]. reflexivity.
Qed.

Lemma level_shape_extent (shape : TaggedShape) (k : Z) :
  level_shape shape k
  = map (fun '(a, s) => (a, ceil_div s (level_factor k (a, s)))) shape.
Proof.
  unfold level_shape. apply map_ext. intros [a s]. reflexivity.
Qed.

Lemma get_map_extent (h : string -> Z -> Z) (d : TaggedShape) (a : string) :
  Dict.get a (map (fun '(k, v) => (k, h k v)) d) = option_map (h a) (Dict.get a d).
Proof.
  induction d as [|[k v] d IH]; simpl; [reflexivity|].
  destruct (String.eqb_spec a k) as [->|Hne]; [reflexivity | exact IH].
Qed.

Lemma planned_shape_keys (shape : TaggedShape) (k : Z) :
  Dict.keys (planned_shape shape k) = Dict.keys shape.
Proof.
  unfold planned_shape, Dict.keys. rewrite map_map. reflexivity.
Qed.

Lemma level_shape_keys (shape : TaggedShape) (k : Z) :
  Dict.keys (level_shape shape k) = Dict.keys shape.
Proof.
  unfold level_shape, Dict.keys. rewrite map_map. reflexivity.
Qed.

Lemma ceil_div_1 (n : Z) : ceil_div n 1 = n.
Proof.
  apply Z.le_antisymm.
  - apply ceil_div_le; lia.
  - pose proof (ceil_div_bounds n 1 ltac:(lia)). lia.
Qed.

Lemma reduces_false_in (shape : TaggedShape) (h : string -> Z -> Z) (a : string) (n : Z) :
  _reduces_any_axis_to_singleton
    (Dict.values (map (fun '(k, v) => (k, h k v)) shape)) (Dict.values shape) = false ->
  In (a, n) shape -> 1 < n -> 1 < h a n.
Proof.
  unfold _reduces_any_axis_to_singleton, Dict.values.
  induction shape as [|[k v] shape IH]; simpl; intros Hred Hin Hn; [contradiction|].
  apply orb_false_elim in Hred. destruct Hred as [Hhead Hred].
  destruct Hin as [Heq|Hin].
  - inversion Heq; subst.
    apply andb_false_elim in Hhead. destruct Hhead as [Hle|Hlt].
    + apply Z.leb_gt in Hle. exact Hle.
    + apply Z.ltb_ge in Hlt. lia.
  - apply IH; assumption.
Qed.

(** X3: at no level of the planner's list is an axis longer than 1 reduced
    to a single sample: when every extent converts to a float, the shape of
    every level keeps the axes of the original shape, and an axis of
    original extent above 1 has an extent above 1. *)
Theorem no_level_reduces_an_axis_to_singleton (shape : TaggedShape)
    (chunk_shape : Shape) (min_length : option Z) :
  Dict.wf shape ->
  List.length chunk_shape = List.length shape ->
  Forall (fun n => fits_float n = true) (Dict.values shape) ->
  exists scalings,
    _get_scalings shape chunk_shape min_length = Ok scalings
    /\ forall sc,
         In sc scalings ->
         exists new_shape,
           _scale_tagged_shape shape sc = Ok new_shape
           /\ Dict.keys new_shape = Dict.keys shape
           /\ forall a n n',
                Dict.get a shape = Some n ->
                Dict.get a new_shape = Some n' ->
                1 < n -> 1 < n'.
Proof.
  intros Hwf Hlen Hfit.
  destruct (get_scalings_exits shape chunk_shape min_length Hwf Hlen Hfit)
    as [j [_ [Heq [Hpass _]]]].
  eexists. split; [exact Heq|].
  intros sc Hin. apply in_map_iff in Hin. destruct Hin as [i [Hsc Hi]].
  subst sc. apply in_seq in Hi.
  exists (planned_shape shape (Z.of_nat i)). split; [|split].
  - apply scale_tagged_shape_planned; [exact Hwf | lia | exact Hfit].
  - apply planned_shape_keys.
  - intros a n n' Hn Hn' Hlt.
    rewrite planned_shape_extent in Hn'.
    rewrite (get_map_extent (fun a s => planned_extent (Z.of_nat i) (a, s))), Hn in Hn'.
    cbn [option_map] in Hn'. inversion Hn' as [Hn'']. clear Hn'.
    destruct i as [|i].
    + assert (Hn1 : fits_float n = true).
      { rewrite Forall_forall in Hfit. apply Hfit.
        apply get_some_in in Hn. apply (in_map snd) in Hn. exact Hn. }
      pose proof (planned_extent_ok (Z.of_nat 0) (a, n) ltac:(lia) Hn1) as Hp.
      cbn [snd] in Hp.
      assert (Hf : level_float (Z.of_nat 0) (a, n) = Finite 1).
      { unfold level_float. destruct (in_axes _ _ && _); reflexivity. }
      rewrite Hf in Hp. apply (scaled_extent_one_lower n _ Hlt Hp).
    + assert (Hex : exit_condition shape (planned_shape shape (Z.of_nat (S i)))
                      chunk_shape min_length = Ok false) by (apply Hpass; lia).
      apply exit_condition_false in Hex. destruct Hex as [_ [Hred _]].
      rewrite planned_shape_extent in Hred.
      apply (reduces_false_in shape
               (fun a s => planned_extent (Z.of_nat (S i)) (a, s)) a n Hred);
        [|exact Hlt].
      apply get_some_in. exact Hn.
Qed.

Lemma no_level_reduces_an_axis_to_singleton_witness :
  Dict.wf scenario1_shape
  /\ exists scalings,
       _get_scalings scenario1_shape [1; 1; 1; 1; 1] None = Ok scalings
       /\ forall sc,
            In sc scalings ->
            exists new_shape,
              _scale_tagged_shape scenario1_shape sc = Ok new_shape
              /\ Dict.keys new_shape = Dict.keys scenario1_shape
              /\ forall a n n',
                   Dict.get a scenario1_shape = Some n ->
                   Dict.get a new_shape = Some n' ->
                   1 < n -> 1 < n'.
Proof.
  assert (Hwf : Dict.wf scenario1_shape).
  { unfold Dict.wf. repeat constructor; simpl; intuition discriminate. }
  split; [exact Hwf|].
  apply (no_level_reduces_an_axis_to_singleton scenario1_shape [1; 1; 1; 1; 1] None).
  - exact Hwf.
  - reflexivity.
  - repeat constructor.
Defined.

Lemma exit_condition_min_length (shape new_shape : TaggedShape) (chunk_shape : Shape)
    (min_length : option Z) :
  exit_condition shape new_shape chunk_shape None = Ok true ->
  exit_condition shape new_shape chunk_shape min_length = Ok true.
Proof.
  unfold exit_condition.
  destruct (_is_less_than_4_chunks new_shape chunk_shape); [reflexivity|].
  destruct (_reduces_any_axis_to_singleton _ _); [reflexivity|].
  discriminate.
Qed.

(** X4: a [min_length] can only shorten the pyramid: when every extent
    converts to a float, the list returned with a [min_length] is an
    initial part of the list returned without one. *)
Theorem min_length_only_shortens (shape : TaggedShape) (chunk_shape : Shape)
    (min_length : option Z) :
  Dict.wf shape ->
  List.length chunk_shape = List.length shape ->
  Forall (fun n => fits_float n = true) (Dict.values shape) ->
  exists scalings rest,
    _get_scalings shape chunk_shape min_length = Ok scalings
    /\ _get_scalings shape chunk_shape None = Ok (scalings ++ rest).
Proof.
  intros Hwf Hlen Hfit.
  destruct (get_scalings_exits shape chunk_shape min_length Hwf Hlen Hfit)
    as [j [Hj [Heq [Hpass _]]]].
  destruct (get_scalings_exits shape chunk_shape None Hwf Hlen Hfit)
    as [j' [Hj' [Heq' [_ Hstop']]]].
  assert (Hle : (j <= j')%nat).
  { destruct (Nat.le_gt_cases j j') as [H|H]; [exact H|]. exfalso.
    assert (Hs : exit_condition shape (planned_shape shape (Z.of_nat (S j')))
                   chunk_shape None = Ok true) by (apply Hstop'; lia).
    apply (exit_condition_min_length _ _ _ min_length) in Hs.
    rewrite Hpass in Hs by lia. discriminate. }
  exists (map (fun i => level_scaling shape (Z.of_nat i)) (seq 0 (S j))),
         (map (fun i => level_scaling shape (Z.of_nat i)) (seq (S j) (j' - j))).
  split; [exact Heq|]. rewrite Heq'. f_equal.
  rewrite <- map_app, <- seq_app. do 2 f_equal. lia.
Qed.

Lemma min_length_only_shortens_witness :
  Dict.wf scenario1_shape
  /\ exists scalings rest,
       _get_scalings scenario1_shape [1; 1; 1; 1; 1] (Some 3) = Ok scalings
       /\ _get_scalings scenario1_shape [1; 1; 1; 1; 1] None = Ok (scalings ++ rest).
Proof.
  assert (Hwf : Dict.wf scenario1_shape).
  { unfold Dict.wf. repeat constructor; simpl; intuition discriminate. }
  split; [exact Hwf|].
  apply (min_length_only_shortens scenario1_shape [1; 1; 1; 1; 1] (Some 3)).
  - exact Hwf.
  - reflexivity.
  - repeat constructor.
Defined.

(** X5: the failures of the planner on a well-formed shape: it raises the
    assertion's error exactly when the chunk shape has another length than
    the shape; with equal lengths it returns when every extent converts to
    a float and raises [OverflowError] when one does not; neither the
    sanity check nor [max] of an empty shape ever raises. *)
Theorem get_scalings_failures (shape : TaggedShape)
    (chunk_shape : Shape) (min_length : option Z) :
  Dict.wf shape ->
  (List.length chunk_shape <> List.length shape ->
   _get_scalings shape chunk_shape min_length = Raise AssertionError)
  /\ (List.length chunk_shape = List.length shape ->
      Forall (fun n => fits_float n = true) (Dict.values shape) ->
      exists scalings, _get_scalings shape chunk_shape min_length = Ok scalings)
  /\ (List.length chunk_shape = List.length shape ->
      ~ Forall (fun n => fits_float n = true) (Dict.values shape) ->
      _get_scalings shape chunk_shape min_length = Raise OverflowError)
  /\ _get_scalings shape chunk_shape min_length <> Raise ValueError.
Proof.
  intros Hwf.
  assert (Hne : List.length chunk_shape <> List.length shape ->
                _get_scalings shape chunk_shape min_length = Raise AssertionError).
  { intros H. unfold _get_scalings.
    replace (Nat.eqb _ _) with false by (symmetry; apply Nat.eqb_neq; exact H).
    reflexivity. }
  assert (Heq : List.length chunk_shape = List.length shape ->
                Forall (fun n => fits_float n = true) (Dict.values shape) ->
                exists scalings,
                  _get_scalings shape chunk_shape min_length = Ok scalings).
  { intros H Hfit.
    destruct (get_scalings_levels shape chunk_shape min_length Hwf H Hfit)
      as [j [_ Hj]].
    eexists. exact Hj. }
  split; [exact Hne|]. split; [exact Heq|].
  split; [apply get_scalings_overflow; exact Hwf|].
  destruct (Nat.eq_dec (List.length chunk_shape) (List.length shape)) as [H|H].
  - destruct (Forall_dec (fun n => fits_float n = true)
                (fun n => bool_dec (fits_float n) true) (Dict.values shape))
      as [Hfit|Hfit].
    + destruct (Heq H Hfit) as [l Hl]. rewrite Hl. discriminate.
    + rewrite (get_scalings_overflow shape chunk_shape min_length Hwf H Hfit).
      discriminate.
  - rewrite (Hne H). discriminate.
Qed.

Lemma get_scalings_failures_witness :
  Dict.wf scenario1_shape
  /\ _get_scalings scenario1_shape [4; 4] None = Raise AssertionError.
Proof.
  assert (Hwf : Dict.wf scenario1_shape).
  { unfold Dict.wf. repeat constructor; simpl; intuition discriminate. }
  split; [exact Hwf|].
  apply (get_scalings_failures scenario1_shape [4; 4] None Hwf).
  simpl. discriminate.
Defined.

(** X6: the depth of the pyramid is bounded by the image: when every extent
    converts to a float and level [i >= 1] is in the planner's list, every
    spatial axis longer than 1 is longer than [2^i]. *)
Theorem level_needs_long_axes (shape : TaggedShape) (chunk_shape : Shape)
    (min_length : option Z) :
  Dict.wf shape ->
  List.length chunk_shape = List.length shape ->
  Forall (fun n => fits_float n = true) (Dict.values shape) ->
  exists scalings,
    _get_scalings shape chunk_shape min_length = Ok scalings
    /\ forall i a n,
         (1 <= i < List.length scalings)%nat ->
         in_axes a SPATIAL_AXES = true ->
         Dict.get a shape = Some n ->
         1 < n ->
         2 ^ Z.of_nat i < n.
Proof.
  intros Hwf Hlen Hfit.
  destruct (get_scalings_exits shape chunk_shape min_length Hwf Hlen Hfit)
    as [j [Hj [Heq [Hpass _]]]].
  eexists. split; [exact Heq|].
  rewrite length_map, length_seq.
  intros i a n Hi Hsp Hn Hlt.
  assert (Hex : exit_condition shape (planned_shape shape (Z.of_nat i))
                  chunk_shape min_length = Ok false) by (apply Hpass; lia).
  apply exit_condition_false in Hex. destruct Hex as [_ [Hred _]].
  rewrite planned_shape_extent in Hred.
  pose proof (reduces_false_in shape (fun a s => planned_extent (Z.of_nat i) (a, s))
                a n Hred (get_some_in _ _ _ Hn) Hlt) as Hext.
  cbv beta in Hext.
  assert (Hn1 : fits_float n = true).
  { rewrite Forall_forall in Hfit. apply Hfit.
    apply get_some_in in Hn. apply (in_map snd) in Hn. exact Hn. }
  pose proof (planned_extent_ok (Z.of_nat i) (a, n) ltac:(lia) Hn1) as Hp.
  cbn [snd] in Hp.
  assert (Hf : level_float (Z.of_nat i) (a, n) = pow2 (Z.of_nat i)).
  { unfold level_float. cbn [fst snd]. rewrite Hsp.
    replace (1 <? n) with true by (symmetry; apply Z.ltb_lt; exact Hlt).
    reflexivity. }
  rewrite Hf in Hp.
  apply (scaled_extent_pow2_lower n (Z.of_nat i) _ ltac:(unfold sanity_limit in Hj; lia)
           Hp Hext).
Qed.

Lemma level_needs_long_axes_witness :
  Dict.wf scenario1_shape
  /\ exists scalings,
       _get_scalings scenario1_shape [1; 1; 1; 1; 1] None = Ok scalings
       /\ forall i a n,
            (1 <= i < List.length scalings)%nat ->
            in_axes a SPATIAL_AXES = true ->
            Dict.get a scenario1_shape = Some n ->
            1 < n ->
            2 ^ Z.of_nat i < n.
Proof.
  assert (Hwf : Dict.wf scenario1_shape).
  { unfold Dict.wf. repeat constructor; simpl; intuition discriminate. }
  split; [exact Hwf|].
  apply (level_needs_long_axes scenario1_shape [1; 1; 1; 1; 1] None).
  - exact Hwf.
  - reflexivity.
  - repeat constructor.
Defined.

Lemma fold_mul_ones (l : list Z) :
  Forall (fun n => n = 1) l -> fold_left Z.mul l 1 = 1.
Proof.
  induction 1 as [|n l Hn _ IH]; [reflexivity|]. subst n. simpl. exact IH.
Qed.

Lemma fold_mul_ge_1 (l : list Z) (acc : Z) :
  Forall (fun n => 1 <= n) l -> 1 <= acc -> 1 <= fold_left Z.mul l acc.
Proof.
  intros Hl. revert acc. induction Hl as [|n l Hn _ IH]; intros acc Hacc.
  - exact Hacc.
  - simpl. apply IH. nia.
Qed.

Lemma wrap64_small (z : Z) : - 2 ^ 63 <= z < 2 ^ 63 -> wrap64 z = z.
Proof.
  intros H. unfold wrap64. rewrite Z.mod_small; lia.
Qed.

(** X7: an image none of whose spatial axes is longer than 1 gets no
    pyramid: with extents that convert to a float and chunk extents of at
    least 1 whose product stays below 2^61, the planner returns the
    original scale alone. *)
Theorem no_spatial_extent_single_level (shape : TaggedShape) (chunk_shape : Shape)
    (min_length : option Z) :
  Dict.wf shape ->
  List.length chunk_shape = List.length shape ->
  Forall (fun n => fits_float n = true) (Dict.values shape) ->
  (forall a n, In (a, n) shape -> in_axes a SPATIAL_AXES = true -> n = 1) ->
  Forall (fun c => 1 <= c) chunk_shape ->
  fold_left Z.mul chunk_shape 1 < 2 ^ 61 ->
  _get_scalings shape chunk_shape min_length = Ok [all_ones shape].
Proof.
  intros Hwf Hlen Hfit Hflat Hchunk Hprod.
  destruct (get_scalings_exits shape chunk_shape min_length Hwf Hlen Hfit)
    as [j [_ [Heq [Hpass _]]]].
  assert (H4 : _is_less_than_4_chunks (planned_shape shape 1) chunk_shape = true).
  { unfold _is_less_than_4_chunks.
    assert (Hones : Forall (fun n => n = 1)
                      (map snd (filter (fun '(a, _) => in_axes a SPATIAL_AXES)
                                  (Dict.items (planned_shape shape 1))))).
    { apply Forall_forall. intros n' Hin.
      apply in_map_iff in Hin. destruct Hin as [[a n''] [Hn Hin]]. simpl in Hn. subst n''.
      apply filter_In in Hin. destruct Hin as [Hin Hsp].
      unfold Dict.items in Hin. rewrite planned_shape_extent in Hin.
      apply in_map_iff in Hin. destruct Hin as [[b n] [Hb Hin]].
      inversion Hb; subst. clear Hb.
      pose proof (Hflat a n Hin Hsp) as Hn. subst n.
      unfold planned_extent, level_float. cbn [fst snd]. rewrite Hsp.
      vm_compute. reflexivity. }
    unfold numpy_prod. rewrite (fold_mul_ones _ Hones).
    pose proof (fold_mul_ge_1 chunk_shape 1 Hchunk ltac:(lia)) as Hge.
    rewrite (wrap64_small 1) by lia.
    rewrite (wrap64_small (fold_left Z.mul chunk_shape 1)) by lia.
    rewrite wrap64_small by lia.
    apply Z.ltb_lt. lia. }
  assert (Hj : j = 0%nat).
  { destruct j as [|j]; [reflexivity|]. exfalso.
    assert (Hex : exit_condition shape (planned_shape shape (Z.of_nat 1))
                    chunk_shape min_length = Ok false) by (apply Hpass; lia).
    apply exit_condition_false in Hex. destruct Hex as [Hex _].
    change (Z.of_nat 1) with 1 in Hex. rewrite H4 in Hex. discriminate. }
  subst j. rewrite Heq. cbn [seq map]. rewrite all_ones_level_0. reflexivity.
Qed.

Lemma no_spatial_extent_single_level_witness :
  Dict.wf [("t", 100); ("c", 3); ("x", 1)]
  /\ _get_scalings [("t", 100); ("c", 3); ("x", 1)] [1; 1; 1] (Some 5)
     = Ok [all_ones [("t", 100); ("c", 3); ("x", 1)]].
Proof.
  assert (Hwf : Dict.wf [("t", 100); ("c", 3); ("x", 1)]).
  { unfold Dict.wf. repeat constructor; simpl; intuition discriminate. }
  split; [exact Hwf|].
  apply (no_spatial_extent_single_level [("t", 100); ("c", 3); ("x", 1)] [1; 1; 1] (Some 5)).
  - exact Hwf.
  - reflexivity.
  - repeat constructor.
  - intros a n Hin Hsp. simpl in Hin.
    destruct Hin as [H|[H|[H|[]]]]; inversion H; subst; try discriminate; reflexivity.
  - repeat constructor; lia.
  - reflexivity.
Defined.

(** * Further properties of [_scale_tagged_shape] *)

Lemma level_shape_0 (shape : TaggedShape) : level_shape shape 0 = shape.
Proof.
  unfold level_shape. rewrite <- (map_id shape) at 2.
  apply map_ext. intros [a n]. cbn [fst snd]. f_equal.
  unfold level_factor. destruct (in_axes _ _ && _);
    [change (2 ^ 0) with 1|]; apply ceil_div_1.
Qed.

(** X8: scaling a shape by the all-ones scale returns the shape itself when
    the extents are at most 2^53 in absolute value, which a float holds
    exactly, so the first array of the pyramid has the shape of the
    source. *)
Theorem scale_by_ones_is_identity (shape : TaggedShape) :
  Dict.wf shape ->
  Forall (fun n => - 2 ^ 53 <= n <= 2 ^ 53) (Dict.values shape) ->
  _scale_tagged_shape shape (all_ones shape) = Ok shape.
Proof.
  intros Hwf Hb. rewrite all_ones_level_0.
  rewrite (scale_tagged_shape_level shape 0 Hwf) by (try lia; exact Hb).
  rewrite level_shape_0. reflexivity.
Qed.

Lemma scale_by_ones_is_identity_witness :
  Dict.wf scenario1_shape
  /\ _scale_tagged_shape scenario1_shape (all_ones scenario1_shape)
     = Ok scenario1_shape.
Proof.
  assert (Hwf : Dict.wf scenario1_shape).
  { unfold Dict.wf. repeat constructor; simpl; intuition discriminate. }
  split; [exact Hwf|].
  apply (scale_by_ones_is_identity scenario1_shape Hwf).
  unfold scenario1_shape. cbn [Dict.values map snd]. repeat constructor; lia.
Defined.

(** Beyond 2^53 the conversion of an extent to a float rounds it: at the
    all-ones scale an extent of 2^53 + 1 comes back as 2^53 and one of
    2^53 + 3 as 2^53 + 4. *)
Example scale_by_ones_rounds_beyond_2_53 :
  _scale_tagged_shape [("x", 2 ^ 53 + 1)] [("x", Finite 1)] = Ok [("x", 2 ^ 53)]
  /\ _scale_tagged_shape [("x", 2 ^ 53 + 3)] [("x", Finite 1)]
     = Ok [("x", 2 ^ 53 + 4)].
Proof.
  split; vm_compute; reflexivity.
Qed.

Lemma float_positive_not_zero (f : float) :
  float_positive f = true -> is_zero f = false.
Proof.
  destruct f as [q|sg|]; try reflexivity. cbn [float_positive is_zero].
  intros Hf. apply negb_true_iff in Hf. apply Qle_bool_false in Hf.
  apply not_true_is_false. intros E0. apply Qeq_bool_iff in E0. lra.
Qed.

(** X9: a scaling with a factor that is not positive is rejected by the
    assertion, whether or not the shape has the factor's axis; every other
    scaling passes the assertion, and the call then returns a shape or
    raises [OverflowError], which a quotient too large for an integer
    causes. *)
Theorem scale_rejects_nonpositive_factor (shape : TaggedShape)
    (scaling : OrderedScaling) :
  ((exists f, In f (Dict.values scaling) /\ float_positive f = false) ->
   _scale_tagged_shape shape scaling = Raise AssertionError)
  /\ ((forall f, In f (Dict.values scaling) -> float_positive f = true) ->
      (exists new_shape, _scale_tagged_shape shape scaling = Ok new_shape)
      \/ _scale_tagged_shape shape scaling = Raise OverflowError).
Proof.
  unfold _scale_tagged_shape. split.
  - intros [f [Hin Hle]].
    replace (forallb float_positive (Dict.values scaling)) with false; [reflexivity|].
    symmetry. apply not_true_is_false. intros Hall.
    rewrite forallb_forall in Hall. specialize (Hall f Hin). congruence.
  - intros Hpos.
    replace (forallb float_positive (Dict.values scaling)) with true
      by (symmetry; apply forallb_forall; exact Hpos).
    match goal with
    | |- context [mapM ?f ?l] =>
        destruct (mapM_ok_or_raise f OverflowError l) as [[ys Hys]|Hr]
    end.
    + intros [a n] _. destruct (Dict.get a scaling) as [f|] eqn:Hf.
      * rewrite scaled_item.
        assert (Hfp : float_positive f = true).
        { apply Hpos. apply get_some_in in Hf. apply (in_map snd) in Hf. exact Hf. }
        destruct (scaled_extent_ok_or_overflow n f Hfp) as [[n' Hn']|Hr].
        -- left. rewrite Hn'. eexists. reflexivity.
        -- right. rewrite Hr. reflexivity.
      * left. eexists. reflexivity.
    + left. rewrite Hys. eexists. reflexivity.
    + right. rewrite Hr. reflexivity.
Qed.

Lemma scale_rejects_nonpositive_factor_witness :
  (exists f, In f (Dict.values (x_scaling (Finite 0))) /\ float_positive f = false)
  /\ _scale_tagged_shape scenario1_shape (x_scaling (Finite 0)) = Raise AssertionError.
Proof.
  assert (H0 : exists f, In f (Dict.values (x_scaling (Finite 0)))
                         /\ float_positive f = false).
  { exists (Finite 0). split; [left; reflexivity | reflexivity]. }
  split; [exact H0|].
  apply (proj1 (scale_rejects_nonpositive_factor scenario1_shape (x_scaling (Finite 0)))
           H0).
Defined.

(** A positive factor can make the call fail: the quotient of the extent 8
    by the float nearest to 1e-320, which is 2024 * 2^-1074, is an
    infinity. *)
Example scale_overflows_on_tiny_factor :
  float_positive (Finite (2024 # 2 ^ 1074)) = true
  /\ is_double (Finite (2024 # 2 ^ 1074)) = true
  /\ _scale_tagged_shape [("x", 8)] [("x", Finite (2024 # 2 ^ 1074))]
     = Raise OverflowError.
Proof.
  repeat split; vm_compute; reflexivity.
Qed.

(** The quotient is rounded before the ceiling is taken: 6 / 1.2 is the
    float 5.0, and the scaled extent is 5, where the exact quotient of 6 by
    the float nearest to 1.2 lies below 5 by less than the rounding
    error. *)
Example scale_rounds_quotient :
  round_double (12 # 10) = Finite (5404319552844595 # 2 ^ 52)
  /\ _scale_tagged_shape [("x", 6)] [("x", Finite (5404319552844595 # 2 ^ 52))]
     = Ok [("x", 5)].
Proof.
  split; vm_compute; reflexivity.
Qed.

(** X10: downscaling neither empties nor enlarges an axis: for finite
    factors of at least 1 and extents from 1 to 2^53 the scaled shape has
    the axes of the shape, in order, and every extent lies between 1 and
    the original extent. *)
Theorem scaled_extents_within_original (shape : TaggedShape)
    (scaling : OrderedScaling) :
  Dict.wf shape ->
  Forall (fun n => 1 <= n <= 2 ^ 53) (Dict.values shape) ->
  Forall (fun f => is_double f = true /\ exists q, f = Finite q /\ (1 <= q)%Q)
         (Dict.values scaling) ->
  exists new_shape,
    _scale_tagged_shape shape scaling = Ok new_shape
    /\ Forall2 (fun an' an => fst an' = fst an /\ 1 <= snd an' <= snd an)
         new_shape shape.
Proof.
  intros Hwf Hext Hfac. unfold _scale_tagged_shape.
  rewrite Forall_forall in Hext, Hfac.
  replace (forallb float_positive (Dict.values scaling)) with true.
  2:{ symmetry. apply forallb_forall. intros f Hin.
      destruct (Hfac f Hin) as [_ [q [-> Hq]]]. cbn [float_positive].
      apply negb_true_iff. apply Qle_bool_false. lra. }
  set (g := fun an : string * Z =>
              match Dict.get (fst an) scaling with
              | Some f => (fst an, match scaled_extent (snd an) f with
                                   | Ok n => n
                                   | Raise _ => 0
                                   end)
              | None => an
              end).
  assert (Hitem : forall a n, In (a, n) shape ->
            (exists f n', Dict.get a scaling = Some f
                          /\ scaled_extent n f = Ok n' /\ 1 <= n' <= n)
            \/ Dict.get a scaling = None).
  { intros a n Hin.
    assert (Hn : 1 <= n <= 2 ^ 53) by (apply Hext; apply (in_map snd) in Hin; exact Hin).
    destruct (Dict.get a scaling) as [f|] eqn:Hf; [left | right; reflexivity].
    assert (Hinf : In f (Dict.values scaling))
      by (apply get_some_in in Hf; apply (in_map snd) in Hf; exact Hf).
    destruct (Hfac f Hinf) as [Hd [q [-> Hq]]].
    destruct (scaled_extent_within n q Hn Hd Hq) as [n' [Hn' Hb]].
    exists (Finite q), n'. repeat split; try assumption; lia. }
  rewrite (mapM_ok_map _ g).
  - cbn [bind]. eexists. split; [reflexivity|].
    rewrite ODict_wf.
    + apply Forall2_map_self. intros [a n] Hin. unfold g. cbn [fst snd].
      destruct (Hitem a n Hin) as [[f [n' [Hf [Hn' Hb]]]]|Hnone].
      * rewrite Hf, Hn'. cbn [fst snd]. split; [reflexivity | exact Hb].
      * rewrite Hnone. cbn [fst snd].
        assert (Hn : 1 <= n <= 2 ^ 53)
          by (apply Hext; apply (in_map snd) in Hin; exact Hin).
        split; [reflexivity | lia].
    + rewrite map_map. erewrite map_ext; [exact Hwf|].
      intros [a n]. unfold g. cbn [fst]. destruct (Dict.get a scaling); reflexivity.
  - intros [a n] Hin. unfold Dict.items in Hin. unfold g. cbn [fst snd].
    destruct (Hitem a n Hin) as [[f [n' [Hf [Hn' Hb]]]]|Hnone].
    + rewrite Hf, scaled_item, Hn'. reflexivity.
    + rewrite Hnone. reflexivity.
Qed.

Lemma scaled_extents_within_original_witness :
  Dict.wf scenario1_shape
  /\ exists new_shape,
       _scale_tagged_shape scenario1_shape [("y", Finite 3); ("x", Finite (5 # 2))]
       = Ok new_shape
       /\ Forall2 (fun an' an => fst an' = fst an /\ 1 <= snd an' <= snd an)
            new_shape scenario1_shape.
Proof.
  assert (Hwf : Dict.wf scenario1_shape).
  { unfold Dict.wf. repeat constructor; simpl; intuition discriminate. }
  split; [exact Hwf|].
  apply (scaled_extents_within_original scenario1_shape
           [("y", Finite 3); ("x", Finite (5 # 2))] Hwf).
  - unfold scenario1_shape. cbn [Dict.values map snd]. repeat constructor; lia.
  - constructor; [|constructor; [|constructor]].
    + split; [vm_compute; reflexivity|]. exists 3%Q. split; [reflexivity | discriminate].
    + split; [vm_compute; reflexivity|].
      exists (5 # 2)%Q. split; [reflexivity | discriminate].
Defined.

(** * Further properties of the block downsampler *)

(** X11: a factor that truncates to zero makes the downsampler fail with
    a division by zero: if the region has a coordinate at the position of a
    factor between -1 and 1, the call raises [ZeroDivisionError]. *)
Theorem zero_scale_raises (A : Type) (data : ndarray A) (starts stops : list Z)
    (scaling : OrderedScaling) (k : nat) (a : Z) :
  nth_error starts k = Some a ->
  (exists ss, mapM int_of_float (Dict.values scaling) = Ok ss
              /\ nth_error ss k = Some 0) ->
  _apply_scaling_method data (starts, stops) scaling = Raise ZeroDivisionError.
Proof.
  intros Ha [ss [Hss Hs]]. unfold _apply_scaling_method. rewrite Hss.
  cbn [bind fst snd]. unfold block_start_crops.
  rewrite (mapM_raise _ ZeroDivisionError); [reflexivity | |].
  - intros [start s] _. unfold py_mod.
    destruct (s =? 0); [right; reflexivity | left; eexists; reflexivity].
  - exists (a, 0). split.
    + eapply nth_error_In. apply (nth_error_combine _ _ k); eassumption.
    + reflexivity.
Qed.

Lemma zero_scale_raises_witness :
  mapM int_of_float (Dict.values (x_scaling (Finite (1 # 2)))) = Ok [0]
  /\ _apply_scaling_method (ramp 20) ([0], [20]) (x_scaling (Finite (1 # 2)))
     = Raise ZeroDivisionError.
Proof.
  split; [reflexivity|].
  apply (zero_scale_raises Z (ramp 20) [0] [20] (x_scaling (Finite (1 # 2))) 0 0);
    [reflexivity|].
  exists [0]. split; reflexivity.
Defined.

Lemma view_shape_too_many (slicing : list (Z * Z)) (shape : Shape) :
  (List.length shape < List.length slicing)%nat ->
  Forall (fun cs => 0 < snd cs) slicing ->
  view_shape slicing shape = Raise IndexError.
Proof.
  revert shape. induction slicing as [|[c s] slicing IH]; intros shape Hlen Hpos.
  - simpl in Hlen. lia.
  - inversion Hpos as [|? ? Hs Hpos']; subst. simpl in Hs.
    destruct shape as [|n shape]; [reflexivity|].
    cbn [view_shape]. unfold slice_indices.
    replace (s =? 0) with false by (symmetry; apply Z.eqb_neq; lia).
    cbn [bind]. rewrite IH; [reflexivity | simpl in Hlen; lia | exact Hpos'].
Qed.

(** X12: a region and scaling with more axes than the data has fail with
    [IndexError], as numpy does for too many indices; the slicing comes
    after the division of the coordinates, which succeeds for coordinates
    up to 2^53 in absolute value. *)
Theorem too_many_axes_raises (A : Type) (data : ndarray A) (starts stops : list Z)
    (scaling : OrderedScaling) (ss : list Z) :
  Forall (fun f => is_double f = true) (Dict.values scaling) ->
  mapM int_of_float (Dict.values scaling) = Ok ss ->
  Forall (fun s => 0 < s) ss ->
  Forall (fun c => - 2 ^ 53 <= c <= 2 ^ 53) starts ->
  Forall (fun c => - 2 ^ 53 <= c <= 2 ^ 53) stops ->
  List.length starts = List.length ss ->
  (List.length (arr_shape data) < List.length ss)%nat ->
  _apply_scaling_method data (starts, stops) scaling = Raise IndexError.
Proof.
  intros Hd Hss Hpos Hbs Hbe Hstarts Hdata. unfold _apply_scaling_method.
  pose proof (int_scaling_upper scaling ss Hd Hss) as Hup.
  rewrite Hss. cbn [bind fst snd].
  rewrite (block_start_crops_ok starts ss Hpos). cbn [bind].
  rewrite (scaled_coords_ok starts ss Hpos Hup Hbs). cbn [bind].
  rewrite (scaled_coords_ok stops ss Hpos Hup Hbe). cbn [bind].
  unfold getitem_slices. fold (block_slicing starts ss).
  rewrite view_shape_too_many; [reflexivity | |].
  - rewrite block_slicing_length by exact Hstarts. exact Hdata.
  - apply combine_steps_positive. exact Hpos.
Qed.

Lemma too_many_axes_raises_witness :
  Forall (fun s => 0 < s) [1; 2]
  /\ _apply_scaling_method (ramp 20) ([0; 0], [1; 20])
       [("y", Finite 1); ("x", Finite 2)]
     = Raise IndexError.
Proof.
  assert (Hpos : Forall (fun s => 0 < s) [1; 2]) by (repeat constructor).
  split; [exact Hpos|].
  apply (too_many_axes_raises Z (ramp 20) [0; 0] [1; 20]
           [("y", Finite 1); ("x", Finite 2)] [1; 2]).
  - repeat (constructor; [vm_compute; reflexivity|]). constructor.
  - reflexivity.
  - exact Hpos.
  - repeat constructor; lia.
  - repeat constructor; lia.
  - reflexivity.
  - simpl. lia.
Defined.

Lemma crop_of_1 (a : Z) : crop_of a 1 = 0.
Proof. unfold crop_of. rewrite Z.mod_1_r. reflexivity. Qed.

Lemma ones_coords (coords ss : list Z) :
  Forall (fun s => s = 1) ss ->
  List.length coords = List.length ss ->
  map (fun '(c, s) => ceil_div c s) (combine coords ss) = coords.
Proof.
  intros Hones. revert coords.
  induction Hones as [|s ss Hs _ IH]; intros [|c coords] Hlen; try discriminate.
  - reflexivity.
  - subst s. cbn [combine map]. rewrite ceil_div_1. f_equal.
    apply IH. simpl in Hlen. lia.
Qed.

Lemma ones_sliced_shape (starts ss : list Z) (shape : Shape) :
  Forall (fun s => s = 1) ss ->
  List.length starts = List.length ss ->
  List.length shape = List.length ss ->
  Forall (fun n => 0 <= n) shape ->
  sliced_shape (block_slicing starts ss) shape = shape.
Proof.
  intros Hones. revert starts shape.
  induction Hones as [|s ss Hs _ IH]; intros [|a starts] [|n shape] H1 H2 Hn;
    try discriminate.
  - reflexivity.
  - subst s. inversion Hn as [|? ? Hn0 Hn']; subst.
    rewrite block_slicing_cons, sliced_shape_cons, crop_of_1. f_equal.
    + unfold range_len, slice_first. cbn [Z.ltb Z.compare].
      rewrite Z.min_l by lia.
      destruct (Z.ltb_spec 0 n); [|lia].
      rewrite Z.div_1_r. lia.
    + apply IH; simpl in *; try lia. exact Hn'.
Qed.

Lemma ones_view_index (starts ss : list Z) (shape : Shape) (idx : list Z) :
  Forall (fun s => s = 1) ss ->
  List.length starts = List.length ss ->
  List.length shape = List.length ss ->
  in_shape shape idx = true ->
  view_index (block_slicing starts ss) shape idx = idx.
Proof.
  intros Hones. revert starts shape idx.
  induction Hones as [|s ss Hs _ IH]; intros [|a starts] [|n shape] idx H1 H2 Hin;
    try discriminate.
  - destruct idx; reflexivity.
  - subst s. destruct idx as [|i idx]; [discriminate|].
    rewrite in_shape_cons in Hin.
    apply andb_prop in Hin. destruct Hin as [Hi Hin].
    apply andb_prop in Hi. destruct Hi as [Hi0 Hi1].
    apply Z.leb_le in Hi0. apply Z.ltb_lt in Hi1.
    rewrite block_slicing_cons, crop_of_1. cbn [view_index]. f_equal.
    + unfold slice_first. cbn [Z.ltb Z.compare]. rewrite Z.min_l by lia. lia.
    + apply IH; simpl in *; try lia. exact Hin.
Qed.

(** X13: the scale 1 is neutral: with the factor 1.0 on every axis and
    coordinates up to 2^53 in absolute value the downsampler returns the
    region it was given and data of the same shape with the same samples. *)
Theorem unit_scale_is_neutral (A : Type) (data : ndarray A) (starts stops : list Z)
    (scaling : OrderedScaling) (ss : list Z) :
  mapM int_of_float (Dict.values scaling) = Ok ss ->
  Forall (fun s => s = 1) ss ->
  Forall (fun c => - 2 ^ 53 <= c <= 2 ^ 53) starts ->
  Forall (fun c => - 2 ^ 53 <= c <= 2 ^ 53) stops ->
  List.length starts = List.length ss ->
  List.length stops = List.length ss ->
  List.length (arr_shape data) = List.length ss ->
  Forall (fun n => 0 <= n) (arr_shape data) ->
  exists scaled_data,
    _apply_scaling_method data (starts, stops) scaling
    = Ok (scaled_data, (starts, stops))
    /\ arr_shape scaled_data = arr_shape data
    /\ forall idx, in_shape (arr_shape data) idx = true ->
                   arr_at scaled_data idx = arr_at data idx.
Proof.
  intros Hss Hones Hbs Hbe Hstarts Hstops Hdata Hn.
  assert (Hpos : Forall (fun s => 0 < s) ss).
  { eapply Forall_impl; [|exact Hones]. simpl. intros; lia. }
  assert (Hup : Forall (fun s => s <= 2 ^ 1074) ss).
  { eapply Forall_impl; [|exact Hones]. simpl. intros s ->.
    pose proof (Z.pow_pos_nonneg 2 1074). lia. }
  eexists. split; [|split].
  - rewrite (apply_scaling_ok data starts stops scaling ss) by assumption.
    unfold target_roi. cbn [fst snd].
    rewrite !ones_coords by assumption. reflexivity.
  - cbn [arr_shape]. apply ones_sliced_shape; assumption.
  - intros idx Hin. cbn [arr_at].
    rewrite ones_view_index by assumption. reflexivity.
Qed.

Lemma unit_scale_is_neutral_witness :
  Forall (fun s => s = 1) [1]
  /\ exists scaled_data,
       _apply_scaling_method (ramp 20) ([20], [40]) (x_scaling (Finite 1))
       = Ok (scaled_data, ([20], [40]))
       /\ arr_shape scaled_data = arr_shape (ramp 20)
       /\ forall idx, in_shape (arr_shape (ramp 20)) idx = true ->
                      arr_at scaled_data idx = arr_at (ramp 20) idx.
Proof.
  assert (H1 : Forall (fun s => s = 1) [1]) by (repeat constructor).
  split; [exact H1|].
  apply (unit_scale_is_neutral Z (ramp 20) [20] [40] (x_scaling (Finite 1)) [1]);
    try reflexivity; try exact H1; repeat constructor; lia.
Defined.

Lemma ceil_div_shift (a k s : Z) : 0 < s -> ceil_div (a + k * s) s = ceil_div a s + k.
Proof.
  intros Hs. pose proof (ceil_div_bounds a s Hs) as Hb.
  apply Z.le_antisymm.
  - apply ceil_div_le; [exact Hs | lia].
  - assert (ceil_div a s + k - 1 < ceil_div (a + k * s) s)
      by (apply ceil_div_lt; [exact Hs | lia]).
    lia.
Qed.

Lemma crop_of_shift (a k s : Z) : 0 < s -> crop_of (a + k * s) s = crop_of a s.
Proof.
  intros Hs. unfold crop_of. rewrite Z.mod_add by lia. reflexivity.
Qed.

Lemma block_slicing_shift (starts ks ss : list Z) :
  Forall (fun s => 0 < s) ss ->
  List.length starts = List.length ss ->
  List.length ks = List.length ss ->
  block_slicing (shift_coords starts ks ss) ss = block_slicing starts ss.
Proof.
  intros Hpos. revert starts ks.
  induction Hpos as [|s ss Hs _ IH]; intros [|a starts] [|k ks] H1 H2;
    try discriminate.
  - reflexivity.
  - unfold shift_coords. cbn [combine map]. fold (shift_coords starts ks ss).
    rewrite !block_slicing_cons, crop_of_shift by exact Hs.
    f_equal. apply IH; simpl in *; lia.
Qed.

Lemma scaled_coords_shift (coords ks ss : list Z) :
  Forall (fun s => 0 < s) ss ->
  List.length coords = List.length ss ->
  List.length ks = List.length ss ->
  map (fun '(c, s) => ceil_div c s) (combine (shift_coords coords ks ss) ss)
  = map (fun '(c, k) => c + k)
      (combine (map (fun '(c, s) => ceil_div c s) (combine coords ss)) ks).
Proof.
  intros Hpos. revert coords ks.
  induction Hpos as [|s ss Hs _ IH]; intros [|c coords] [|k ks] H1 H2;
    try discriminate.
  - reflexivity.
  - unfold shift_coords. cbn [combine map]. fold (shift_coords coords ks ss).
    rewrite ceil_div_shift by exact Hs. f_equal. apply IH; simpl in *; lia.
Qed.

(** X14: the downsampler sees a block only relative to the sampling grid:
    moving the region by whole steps of the scale along every axis leaves
    the returned data unchanged and moves the returned region by the same
    number of samples of the level, as long as the coordinates of both
    regions are at most 2^53 in absolute value. *)
Theorem grid_shift_invariance (A : Type) (data : ndarray A)
    (starts stops ks : list Z) (scaling : OrderedScaling) (ss : list Z) :
  Forall (fun f => is_double f = true) (Dict.values scaling) ->
  mapM int_of_float (Dict.values scaling) = Ok ss ->
  Forall (fun s => 0 < s) ss ->
  Forall (fun c => - 2 ^ 53 <= c <= 2 ^ 53) starts ->
  Forall (fun c => - 2 ^ 53 <= c <= 2 ^ 53) stops ->
  Forall (fun c => - 2 ^ 53 <= c <= 2 ^ 53) (shift_coords starts ks ss) ->
  Forall (fun c => - 2 ^ 53 <= c <= 2 ^ 53) (shift_coords stops ks ss) ->
  List.length starts = List.length ss ->
  List.length stops = List.length ss ->
  List.length ks = List.length ss ->
  List.length (arr_shape data) = List.length ss ->
  exists scaled_data scaled_starts scaled_stops,
    _apply_scaling_method data (starts, stops) scaling
    = Ok (scaled_data, (scaled_starts, scaled_stops))
    /\ _apply_scaling_method data
         (shift_coords starts ks ss, shift_coords stops ks ss) scaling
       = Ok (scaled_data,
             (map (fun '(c, k) => c + k) (combine scaled_starts ks),
              map (fun '(c, k) => c + k) (combine scaled_stops ks))).
Proof.
  intros Hd Hss Hpos Hbs Hbe Hbs' Hbe' Hstarts Hstops Hks Hdata.
  pose proof (int_scaling_upper scaling ss Hd Hss) as Hup.
  assert (Hlen : forall coords, List.length coords = List.length ss ->
                   List.length (shift_coords coords ks ss) = List.length ss).
  { intros coords Hc. unfold shift_coords.
    rewrite length_map, !length_combine. lia. }
  eexists. eexists. eexists. split.
  - apply (apply_scaling_ok data starts stops scaling ss); assumption.
  - rewrite (apply_scaling_ok data _ _ scaling ss) by auto.
    rewrite block_slicing_shift by assumption.
    unfold target_roi. cbn [fst snd].
    rewrite !scaled_coords_shift by assumption. reflexivity.
Qed.

Lemma grid_shift_invariance_witness :
  Forall (fun s => 0 < s) [5]
  /\ exists scaled_data scaled_starts scaled_stops,
       _apply_scaling_method (ramp 10) ([22], [32]) (x_scaling (Finite 5))
       = Ok (scaled_data, (scaled_starts, scaled_stops))
       /\ _apply_scaling_method (ramp 10)
            (shift_coords [22] [3] [5], shift_coords [32] [3] [5])
            (x_scaling (Finite 5))
          = Ok (scaled_data,
                (map (fun '(c, k) => c + k) (combine scaled_starts [3]),
                 map (fun '(c, k) => c + k) (combine scaled_stops [3]))).
Proof.
  assert (Hpos : Forall (fun s => 0 < s) [5]) by (repeat constructor).
  split; [exact Hpos|].
  apply (grid_shift_invariance Z (ramp 10) [22] [32] [3] (x_scaling (Finite 5)) [5]);
    try reflexivity; try exact Hpos.
  - constructor; [vm_compute; reflexivity | constructor].
  - repeat constructor; lia.
  - repeat constructor; lia.
  - cbn. repeat constructor; lia.
  - cbn. repeat constructor; lia.
Defined.

(** * The export coordinator *)

Lemma truncate_inject_Z (z : Z) : truncate (inject_Z z) = z.
Proof.
  unfold truncate. destruct (Qle_bool 0 (inject_Z z));
    [apply Qfloor_Z | apply Qceiling_Z].
Qed.

Lemma int_scaling_level (shape : TaggedShape) (k : Z) :
  int_scaling (level_scaling shape k) = map (level_factor k) shape.
Proof.
  unfold int_scaling, Dict.values, level_scaling. rewrite !map_map.
  apply map_ext. intros [a n]. unfold level_factor. cbn [fst snd].
  destruct (in_axes a SPATIAL_AXES && (1 <? n)).
  - apply truncate_inject_Z.
  - reflexivity.
Qed.

(** The factors of a level are finite, so [int] is defined on each. *)
Lemma mapM_int_scaling_level (shape : TaggedShape) (k : Z) :
  mapM int_of_float (Dict.values (level_scaling shape k))
  = Ok (int_scaling (level_scaling shape k)).
Proof.
  unfold int_scaling. apply mapM_ok_map. intros f Hin.
  unfold Dict.values, level_scaling in Hin. rewrite map_map in Hin.
  apply in_map_iff in Hin. destruct Hin as [[a n] [Hf _]]. cbn [snd] in Hf. subst f.
  destruct (in_axes a SPATIAL_AXES && (1 <? n)); reflexivity.
Qed.

Lemma int_scaling_level_upper (shape : TaggedShape) (k : Z) :
  0 <= k <= 1074 ->
  Forall (fun s => s <= 2 ^ 1074) (int_scaling (level_scaling shape k)).
Proof.
  intros Hk. rewrite int_scaling_level. apply Forall_forall.
  intros s Hin. apply in_map_iff in Hin. destruct Hin as [an [Hs _]]. subst s.
  unfold level_factor. destruct (in_axes _ _ && _).
  - apply Z.pow_le_mono_r; lia.
  - pose proof (Z.pow_pos_nonneg 2 1074). lia.
Qed.

Lemma int_scaling_level_positive (shape : TaggedShape) (k : Z) :
  0 <= k -> Forall (fun s => 0 < s) (int_scaling (level_scaling shape k)).
Proof.
  intros Hk. rewrite int_scaling_level. apply Forall_forall.
  intros s Hin. apply in_map_iff in Hin. destruct Hin as [an [Hs _]]. subst s.
  unfold level_factor. destruct (in_axes _ _ && _); [|lia].
  apply Z.pow_pos_nonneg; lia.
Qed.

Lemma int_scaling_level_length (shape : TaggedShape) (k : Z) :
  List.length (int_scaling (level_scaling shape k)) = List.length shape.
Proof. rewrite int_scaling_level. apply length_map. Qed.

Lemma int_scaling_level_0 (shape : TaggedShape) :
  Forall (fun s => s = 1) (int_scaling (level_scaling shape 0)).
Proof.
  rewrite int_scaling_level. apply Forall_forall.
  intros s Hin. apply in_map_iff in Hin. destruct Hin as [an [Hs _]]. subst s.
  unfold level_factor. destruct (in_axes _ _ && _); reflexivity.
Qed.

Lemma combine_map_same {X Y W : Type} (f : X -> Y) (g : X -> W) (l : list X) :
  combine (map f l) (map g l) = map (fun x => (f x, g x)) l.
Proof.
  induction l as [|x l IH]; simpl; [reflexivity|]. rewrite IH. reflexivity.
Qed.

(** The shape [_scale_tagged_shape] computes with the float factors of a
    level is the shape decimation by the level's integer factors gives. *)
Lemma level_shape_values (shape : TaggedShape) (k : Z) :
  Dict.wf shape ->
  Dict.values (level_shape shape k)
  = map (fun '(n, s) => ceil_div n s)
      (combine (Dict.values shape) (int_scaling (level_scaling shape k))).
Proof.
  intros Hwf. rewrite int_scaling_level. unfold level_shape.
  unfold Dict.values. rewrite combine_map_same, !map_map.
  apply map_ext. intros [a n]. reflexivity.
Qed.

(** X15: the array the coordinator creates for a level has the shape the
    block writes fill: for a source with extents up to 2^53 in absolute
    value and every scaling the planner returns, the extents
    [_scale_tagged_shape] computes from the float factors are the extents of
    the decimation of the source by the integer factors the downsampler
    uses. *)
Theorem created_shape_is_decimated_shape (A : Type) (whole : ndarray A)
    (shape : TaggedShape) (chunk_shape : Shape) (min_length : option Z) :
  Dict.wf shape ->
  List.length chunk_shape = List.length shape ->
  Forall (fun n => - 2 ^ 53 <= n <= 2 ^ 53) (Dict.values shape) ->
  arr_shape whole = Dict.values shape ->
  exists scalings,
    _get_scalings shape chunk_shape min_length = Ok scalings
    /\ forall sc,
         In sc scalings ->
         exists scaled_shape,
           _scale_tagged_shape shape sc = Ok scaled_shape
           /\ Dict.values scaled_shape = arr_shape (decimate whole (int_scaling sc)).
Proof.
  intros Hwf Hlen Hb Hwhole.
  destruct (get_scalings_levels shape chunk_shape min_length Hwf Hlen
              (small_extents_fit _ Hb))
    as [j [Hj Heq]].
  eexists. split; [exact Heq|].
  intros sc Hin. apply in_map_iff in Hin. destruct Hin as [i [Hsc Hi]]. subst sc.
  apply in_seq in Hi. unfold sanity_limit in Hj.
  exists (level_shape shape (Z.of_nat i)). split.
  - apply scale_tagged_shape_level; [exact Hwf | lia | exact Hb].
  - cbn [decimate arr_shape]. rewrite Hwhole. apply level_shape_values. exact Hwf.
Qed.

Lemma created_shape_is_decimated_shape_witness :
  Dict.wf [("x", 20)]
  /\ exists scalings,
       _get_scalings [("x", 20)] [1] None = Ok scalings
       /\ forall sc,
            In sc scalings ->
            exists scaled_shape,
              _scale_tagged_shape [("x", 20)] sc = Ok scaled_shape
              /\ Dict.values scaled_shape
                 = arr_shape (decimate (ramp 20) (int_scaling sc)).
Proof.
  assert (Hwf : Dict.wf [("x", 20)]).
  { unfold Dict.wf. repeat constructor; simpl; intuition discriminate. }
  split; [exact Hwf|].
  apply (created_shape_is_decimated_shape Z (ramp 20) [("x", 20)] [1] None);
    try reflexivity; try exact Hwf.
  repeat constructor; cbn [snd]; lia.
Defined.

Lemma list_setitem_length {X : Type} (l : list X) (i : nat) (x : X) :
  List.length (list_setitem l i x) = List.length l.
Proof.
  revert i. induction l as [|y l IH]; intros [|i]; simpl; try reflexivity.
  rewrite IH. reflexivity.
Qed.

Lemma nth_error_setitem_same {X : Type} (l : list X) (i : nat) (x : X) :
  (i < List.length l)%nat -> nth_error (list_setitem l i x) i = Some x.
Proof.
  revert i. induction l as [|y l IH]; intros [|i] Hi; simpl in *; try lia.
  - reflexivity.
  - apply IH. lia.
Qed.

Lemma nth_error_setitem_other {X : Type} (l : list X) (i j : nat) (x : X) :
  i <> j -> nth_error (list_setitem l i x) j = nth_error l j.
Proof.
  revert i j. induction l as [|y l IH]; intros [|i] [|j] Hne; simpl;
    try reflexivity; try lia.
  apply IH. lia.
Qed.

Lemma scale_and_write_levels_cons {A : Type} (i_ : nat) (sc : OrderedScaling)
    (rest : list OrderedScaling) (zs : list (zarray A)) (z z' : zarray A)
    (roi : ROI) (data : ndarray A) :
  nth_error zs i_ = Some z ->
  level_step i_ sc z roi data = Ok z' ->
  scale_and_write_levels i_ (sc :: rest) zs roi data
  = scale_and_write_levels (S i_) rest (list_setitem zs i_ z') roi data.
Proof.
  intros Hget Hstep. cbn [scale_and_write_levels]. unfold level_step in Hstep.
  destruct (if (0 <? i_)%nat then _apply_scaling_method data roi sc else Ok (data, roi))
    as [sd|e]; cbn [bind] in *; [|discriminate].
  unfold list_getitem. rewrite Hget. cbn [bind]. rewrite Hstep. reflexivity.
Qed.

Lemma add_sub_coords (starts q : list Z) :
  List.length q = List.length starts ->
  map (fun '(a, i) => a + i)
    (combine starts (map (fun '(i, a) => i - a) (combine q starts))) = q.
Proof.
  revert q. induction starts as [|a starts IH]; intros [|i q] Hlen; try discriminate.
  - reflexivity.
  - cbn [combine map]. f_equal; [lia|]. apply IH. simpl in Hlen. lia.
Qed.

Lemma scale_index_ones (q ss : list Z) :
  Forall (fun s => s = 1) ss ->
  List.length q = List.length ss ->
  scale_index q ss = q.
Proof.
  intros Hones. revert q.
  induction Hones as [|s ss Hs _ IH]; intros [|i q] Hlen; try discriminate.
  - reflexivity.
  - subst s. unfold scale_index. cbn [combine map]. fold (scale_index q ss).
    f_equal; [lia|]. apply IH. simpl in Hlen. lia.
Qed.

Lemma level_step_ok {A : Type} (whole : ndarray A) (scaling : OrderedScaling)
    (ss : list Z) (i_ : nat) (z : zarray A) (starts stops : list Z) :
  mapM int_of_float (Dict.values scaling) = Ok ss ->
  Forall (fun s => 0 < s) ss ->
  Forall (fun s => s <= 2 ^ 1074) ss ->
  Forall (fun n => n <= 2 ^ 53) (arr_shape whole) ->
  (i_ = 0%nat -> Forall (fun s => s = 1) ss) ->
  List.length (arr_shape whole) = List.length ss ->
  z_shape z = arr_shape (decimate whole ss) ->
  roi_within (arr_shape whole) (starts, stops) = true ->
  exists z',
    level_step i_ scaling z (starts, stops) (block_of whole (starts, stops)) = Ok z'
    /\ z_shape z' = z_shape z
    /\ forall q,
         z_at z' q = if in_roi q (target_roi ss (starts, stops))
                     then Some (arr_at (decimate whole ss) q)
                     else z_at z q.
Proof.
  intros Hss Hpos Hup Hmax Hones Hshape Hz Hw.
  destruct i_ as [|i_].
  - specialize (Hones eq_refl).
    pose proof (roi_within_length _ _ Hw) as [Hl1 Hl2]. cbn [fst snd] in Hl1, Hl2.
    assert (Htarget : target_roi ss (starts, stops) = (starts, stops)).
    { unfold target_roi. cbn [fst snd].
      rewrite !ones_coords by (try assumption; lia). reflexivity. }
    assert (Hzs : z_shape z = arr_shape whole).
    { rewrite Hz. cbn [decimate arr_shape]. apply ones_coords; assumption. }
    unfold level_step. cbn [Nat.ltb Nat.leb bind fst snd].
    unfold zarr_setitem. rewrite Hzs, Hw.
    cbn [block_of arr_shape]. rewrite shape_eqb_refl. cbn [andb].
    eexists. split; [reflexivity|]. split; [cbn [z_shape]; congruence|].
    intros q. cbn [z_at arr_at fst]. rewrite Htarget.
    destruct (in_roi q (starts, stops)) eqn:Hin; [|reflexivity].
    apply in_roi_length in Hin. cbn [fst snd] in Hin. destruct Hin as [Hq _].
    unfold decimate, block_of. cbn [arr_at fst snd].
    rewrite add_sub_coords by exact Hq.
    rewrite scale_index_ones by (try assumption; lia). reflexivity.
  - unfold level_step. cbn [Nat.ltb Nat.leb].
    apply (scale_and_write_ok whole scaling ss z starts stops); assumption.
Qed.

Lemma scale_and_write_levels_ok {A : Type} (whole : ndarray A)
    (starts stops : list Z) :
  Forall (fun n => n <= 2 ^ 53) (arr_shape whole) ->
  roi_within (arr_shape whole) (starts, stops) = true ->
  forall (scalings_ : list OrderedScaling) (i_ : nat) (zs : list (zarray A)),
    (forall k sc, nth_error scalings_ k = Some sc ->
       level_ready whole (i_ + k) sc
       /\ exists z, nth_error zs (i_ + k) = Some z
                    /\ z_shape z = arr_shape (decimate whole (int_scaling sc))) ->
    exists zs',
      scale_and_write_levels i_ scalings_ zs (starts, stops)
        (block_of whole (starts, stops)) = Ok zs'
      /\ List.length zs' = List.length zs
      /\ (forall k, (k < i_)%nat -> nth_error zs' k = nth_error zs k)
      /\ forall k sc z,
           nth_error scalings_ k = Some sc ->
           nth_error zs (i_ + k) = Some z ->
           exists z',
             nth_error zs' (i_ + k) = Some z'
             /\ z_shape z' = z_shape z
             /\ forall q,
                  z_at z' q
                  = if in_roi q (target_roi (int_scaling sc) (starts, stops))
                    then Some (arr_at (decimate whole (int_scaling sc)) q)
                    else z_at z q.
Proof.
  intros Hmax Hw scalings_.
  induction scalings_ as [|sc0 rest IH]; intros i_ zs Hready.
  - exists zs. split; [reflexivity|]. split; [reflexivity|]. split; [reflexivity|].
    intros k sc z Hk. destruct k; discriminate.
  - destruct (Hready 0%nat sc0 eq_refl)
      as [[Hint [Hpos [Hup [Hones Hlen]]]] [z0 [Hz0 Hs0]]].
    rewrite Nat.add_0_r in *.
    destruct (level_step_ok whole sc0 (int_scaling sc0) i_ z0 starts stops
                Hint Hpos Hup Hmax Hones Hlen Hs0 Hw) as [z0' [Hstep [Hs0' Hat0]]].
    rewrite (scale_and_write_levels_cons i_ sc0 rest zs z0 z0' _ _ Hz0 Hstep).
    assert (Hi : (i_ < List.length zs)%nat).
    { apply nth_error_Some. congruence. }
    destruct (IH (S i_) (list_setitem zs i_ z0')) as [zs' [Hrun [Hlen' [Hlow Hhigh]]]].
    { intros k sc Hk. destruct (Hready (S k) sc Hk) as [Hr [z [Hz Hs]]].
      replace (i_ + S k)%nat with (S i_ + k)%nat in * by lia.
      split; [exact Hr|]. exists z. split; [|exact Hs].
      rewrite nth_error_setitem_other by lia. exact Hz. }
    exists zs'. split; [exact Hrun|]. split; [|split].
    + rewrite Hlen'. apply list_setitem_length.
    + intros k Hk. rewrite Hlow by lia. apply nth_error_setitem_other. lia.
    + intros k sc z Hk Hz. destruct k as [|k].
      * rewrite Nat.add_0_r in *. cbn [nth_error] in Hk. inversion Hk; subst sc.
        assert (z = z0) by congruence. subst z.
        exists z0'. split; [|split; [exact Hs0' | exact Hat0]].
        rewrite Hlow by lia. apply nth_error_setitem_same. exact Hi.
      * cbn [nth_error] in Hk.
        replace (i_ + S k)%nat with (S i_ + k)%nat in * by lia.
        apply (Hhigh k sc z Hk).
        rewrite nth_error_setitem_other by lia. exact Hz.
Qed.

Lemma stream_blocks_ok {A : Type} (whole : ndarray A) (scalings : list OrderedScaling) :
  Forall (fun n => n <= 2 ^ 53) (arr_shape whole) ->
  (forall k sc, nth_error scalings k = Some sc -> level_ready whole k sc) ->
  forall blocks,
    Forall (fun roi => roi_within (arr_shape whole) roi = true) blocks ->
    forall zs : list (zarray A),
      List.length zs = List.length scalings ->
      (forall k sc z, nth_error scalings k = Some sc -> nth_error zs k = Some z ->
         z_shape z = arr_shape (decimate whole (int_scaling sc))) ->
      exists zs',
        stream_blocks scalings zs whole blocks = Ok zs'
        /\ List.length zs' = List.length zs
        /\ forall k sc z,
             nth_error scalings k = Some sc ->
             nth_error zs k = Some z ->
             exists z',
               nth_error zs' k = Some z'
               /\ z_shape z' = z_shape z
               /\ forall q,
                    z_at z' q
                    = if existsb (in_roi q) (map (target_roi (int_scaling sc)) blocks)
                      then Some (arr_at (decimate whole (int_scaling sc)) q)
                      else z_at z q.
Proof.
  intros Hmax Hready blocks Hw.
  induction Hw as [|[starts stops] blocks Hroi Hw IH]; intros zs Hlen Hshapes.
  - exists zs. split; [reflexivity|]. split; [reflexivity|].
    intros k sc z _ Hz. exists z. split; [exact Hz|]. split; reflexivity.
  - destruct (scale_and_write_levels_ok whole starts stops Hmax Hroi scalings 0 zs)
      as [zs1 [Hrun [Hlen1 [_ Hstep]]]].
    { intros k sc Hk. cbn [Nat.add]. split; [apply Hready; exact Hk|].
      destruct (nth_error zs k) as [z|] eqn:Hz.
      - exists z. split; [reflexivity|]. apply (Hshapes k sc z Hk Hz).
      - exfalso. apply nth_error_None in Hz.
        assert (k < List.length scalings)%nat by (apply nth_error_Some; congruence).
        lia. }
    cbn [Nat.add] in Hstep.
    destruct (IH zs1) as [zs' [Hrun' [Hlen' Hfinal]]].
    { lia. }
    { intros k sc z1 Hk Hz1.
      destruct (nth_error zs k) as [z|] eqn:Hz.
      - destruct (Hstep k sc z Hk Hz) as [z' [Hz' [Hs' _]]].
        assert (z1 = z') by congruence. subst z1.
        rewrite Hs'. apply (Hshapes k sc z Hk Hz).
      - exfalso. apply nth_error_None in Hz.
        assert (k < List.length scalings)%nat by (apply nth_error_Some; congruence).
        lia. }
    exists zs'. cbn [stream_blocks]. unfold scale_and_write_block.
    rewrite Hrun. cbn [bind]. split; [exact Hrun'|]. split; [lia|].
    intros k sc z Hk Hz.
    destruct (Hstep k sc z Hk Hz) as [z1 [Hz1 [Hs1 Hat1]]].
    destruct (Hfinal k sc z1 Hk Hz1) as [z' [Hz' [Hs' Hat']]].
    exists z'. split; [exact Hz'|]. split; [congruence|].
    intros q. rewrite Hat', Hat1. cbn [map existsb].
    destruct (in_roi q (target_roi (int_scaling sc) (starts, stops))),
      (existsb (in_roi q) (map (target_roi (int_scaling sc)) blocks)); reflexivity.
Qed.

Lemma create_levels_ok {A : Type} (whole : ndarray A) (internal_path : option string)
    (shape : TaggedShape) (n i0 : nat) :
  Dict.wf shape ->
  Forall (fun n => - 2 ^ 53 <= n <= 2 ^ 53) (Dict.values shape) ->
  (i0 + n <= 1075)%nat ->
  arr_shape whole = Dict.values shape ->
  create_levels (A := A) internal_path shape i0
    (map (fun i => level_scaling shape (Z.of_nat i)) (seq i0 n))
  = Ok (map (fun i => zarr_empty
                        (arr_shape (decimate whole
                                      (int_scaling (level_scaling shape (Z.of_nat i))))))
          (seq i0 n),
        map (fun i => mkImageMetadata (scale_path internal_path i)
                        (level_scaling shape (Z.of_nat i)) [])
          (seq i0 n)).
Proof.
  intros Hwf Hb Hn Hwhole. revert i0 Hn.
  induction n as [|n IH]; intros i0 Hn; [reflexivity|].
  cbn [seq map create_levels].
  rewrite (scale_tagged_shape_level shape _ Hwf) by (try lia; exact Hb). cbn [bind].
  rewrite IH by lia. cbn [bind fst snd]. do 2 f_equal.
  cbn [decimate arr_shape]. rewrite Hwhole.
  rewrite (level_shape_values shape _ Hwf). reflexivity.
Qed.

Lemma chunk_shape_length_aux (determineBlockShape : list Z -> Q -> list Z) (slot : Slot) :
  determineBlockShape_spec determineBlockShape ->
  Dict.wf (getTaggedShape slot) ->
  Forall (fun n => 1 <= n) (Dict.values (getTaggedShape slot)) ->
  Dict.contains "t" (getTaggedShape slot) = true ->
  Dict.contains "c" (getTaggedShape slot) = true ->
  exists main,
    _get_chunk_shape determineBlockShape slot = main
    /\ Forall2 (fun r m => 1 <= r <= m) main (map forced_extent (getTaggedShape slot)).
Proof.
  intros Hspec Hwf Hpos Ht Hc. unfold _get_chunk_shape.
  set (shape := getTaggedShape slot) in *.
  assert (Hset : Dict.values (Dict.set "c" 1 (Dict.set "t" 1 shape))
                 = map forced_extent shape).
  { rewrite (set_decomp "c" 1 (Dict.set "t" 1 shape)) by (apply wf_set; exact Hwf).
    rewrite (contains_set "c" "t" 1 shape Hc), app_nil_r.
    rewrite (set_decomp "t" 1 shape Hwf), Ht, app_nil_r.
    apply values_forced. }
  eexists. split; [reflexivity|].
  rewrite Hset. apply Hspec. rewrite <- Hset.
  rewrite Hset. apply Forall_forall. intros m Hin. apply in_map_iff in Hin.
  destruct Hin as [[a n] [Hm Hin]]. subst m.
  rewrite Forall_forall in Hpos.
  assert (1 <= n) by (apply Hpos; apply (in_map snd) in Hin; exact Hin).
  unfold forced_extent. cbn [fst snd].
  destruct (String.eqb "c" a || String.eqb "t" a); lia.
Qed.

Lemma chunk_shape_length (determineBlockShape : list Z -> Q -> list Z) (slot : Slot) :
  determineBlockShape_spec determineBlockShape ->
  Dict.wf (getTaggedShape slot) ->
  Forall (fun n => 1 <= n) (Dict.values (getTaggedShape slot)) ->
  Dict.contains "t" (getTaggedShape slot) = true ->
  Dict.contains "c" (getTaggedShape slot) = true ->
  List.length (_get_chunk_shape determineBlockShape slot)
  = List.length (getTaggedShape slot).
Proof.
  intros Hspec Hwf Hpos Ht Hc.
  destruct (chunk_shape_length_aux determineBlockShape slot Hspec Hwf Hpos Ht Hc)
    as [main [Heq Hmain]].
  rewrite Heq. apply Forall2_length in Hmain.
  rewrite length_map in Hmain. exact Hmain.
Qed.

Lemma nth_error_map_seq_lt {B : Type} (f : nat -> B) (n i : nat) :
  (i < n)%nat -> nth_error (map f (seq 0 n)) i = Some (f i).
Proof.
  intros Hi. rewrite nth_error_map.
  rewrite (nth_error_nth' _ 0%nat) by (rewrite length_seq; exact Hi).
  rewrite seq_nth by exact Hi. reflexivity.
Qed.

(** The run of the coordinator on a slot in an axis order with t and c,
    spelled out: the levels, the metadata and the contents of the arrays. *)
Lemma compute_and_write_scales_ok (determineBlockShape : list Z -> Q -> list Z)
    (A : Type) (pc : PathComponents) (slot : Slot) (whole : ndarray A)
    (blocks : list ROI) (min_length : option Z) :
  determineBlockShape_spec determineBlockShape ->
  Dict.wf (getTaggedShape slot) ->
  Forall (fun n => 1 <= n <= 2 ^ 53) (Dict.values (getTaggedShape slot)) ->
  Dict.contains "t" (getTaggedShape slot) = true ->
  Dict.contains "c" (getTaggedShape slot) = true ->
  arr_shape whole = Dict.values (getTaggedShape slot) ->
  is_partition (arr_shape whole) blocks ->
  exists j zarrays,
    (j <= sanity_limit)%nat
    /\ _get_scalings (getTaggedShape slot)
         (_get_chunk_shape determineBlockShape slot) min_length
       = Ok (map (fun i => level_scaling (getTaggedShape slot) (Z.of_nat i))
               (seq 0 (S j)))
    /\ _compute_and_write_scales determineBlockShape pc slot whole blocks min_length
       = Ok (zarrays,
             map (fun i => mkImageMetadata (scale_path (internal_path_of pc) i)
                             (level_scaling (getTaggedShape slot) (Z.of_nat i)) [])
               (seq 0 (S j)))
    /\ List.length zarrays = S j
    /\ forall i, (i <= j)%nat ->
         exists z,
           nth_error zarrays i = Some z
           /\ z_shape z
              = arr_shape (decimate whole
                  (int_scaling (level_scaling (getTaggedShape slot) (Z.of_nat i))))
           /\ forall q,
                z_at z q
                = if in_shape (z_shape z) q
                  then Some (arr_at (decimate whole
                               (int_scaling
                                  (level_scaling (getTaggedShape slot) (Z.of_nat i))))
                               q)
                  else None.
Proof.
  intros Hspec Hwf Hext53 Ht Hc Hwhole Hpart.
  set (shape := getTaggedShape slot) in *.
  assert (H53 : 0 < 2 ^ 53) by (apply Z.pow_pos_nonneg; lia).
  assert (Hext : Forall (fun n => 1 <= n) (Dict.values shape)).
  { eapply Forall_impl; [|exact Hext53]. intros n Hn. cbv beta in Hn. lia. }
  assert (Hb : Forall (fun n => - 2 ^ 53 <= n <= 2 ^ 53) (Dict.values shape)).
  { eapply Forall_impl; [|exact Hext53]. intros n Hn. cbv beta in Hn. lia. }
  assert (Hmax : Forall (fun n => n <= 2 ^ 53) (arr_shape whole)).
  { rewrite Hwhole. eapply Forall_impl; [|exact Hext53].
    intros n Hn. cbv beta in Hn. lia. }
  pose proof (chunk_shape_length determineBlockShape slot Hspec Hwf Hext Ht Hc)
    as Hchunk. fold shape in Hchunk.
  destruct (get_scalings_levels shape _ min_length Hwf Hchunk (small_extents_fit _ Hb))
    as [j [Hj Hget]].
  set (lvl := fun i : nat => level_scaling shape (Z.of_nat i)) in *.
  assert (Hlen : forall i, List.length (arr_shape whole)
                           = List.length (int_scaling (lvl i))).
  { intros i. unfold lvl. rewrite int_scaling_level_length, Hwhole.
    unfold Dict.values. apply length_map. }
  destruct (stream_blocks_ok whole (map lvl (seq 0 (S j)))) with
    (blocks := blocks)
    (zs := map (fun i => zarr_empty (A := A)
                           (arr_shape (decimate whole (int_scaling (lvl i)))))
             (seq 0 (S j)))
    as [zs' [Hrun [Hlen' Hfinal]]].
  { exact Hmax. }
  { intros k sc Hk. apply nth_error_map_seq in Hk. destruct Hk as [Hkj Hsc]. subst sc.
    unfold sanity_limit in Hj.
    split; [|split; [|split; [|split]]].
    - apply mapM_int_scaling_level.
    - apply int_scaling_level_positive. lia.
    - apply int_scaling_level_upper. lia.
    - intros Hk0. subst k. apply int_scaling_level_0.
    - apply Hlen. }
  { apply Hpart. }
  { rewrite !length_map. reflexivity. }
  { intros k sc z Hk Hz.
    apply nth_error_map_seq in Hk. destruct Hk as [_ Hsc]. subst sc.
    apply nth_error_map_seq in Hz. destruct Hz as [_ Hz]. subst z. reflexivity. }
  unfold lvl in *. clear lvl.
  exists j, zs'. split; [exact Hj|]. split; [exact Hget|]. split; [|split].
  - unfold _compute_and_write_scales. fold shape. rewrite Hget. cbn [bind].
    fold (internal_path_of pc).
    rewrite (create_levels_ok whole (internal_path_of pc) shape (S j) 0 Hwf Hb
               ltac:(unfold sanity_limit in Hj; lia) Hwhole).
    cbn [bind fst snd]. rewrite Hrun. reflexivity.
  - rewrite Hlen', length_map, length_seq. reflexivity.
  - intros i Hi.
    destruct (Hfinal i (level_scaling shape (Z.of_nat i))
                (zarr_empty
                   (arr_shape (decimate whole
                                 (int_scaling (level_scaling shape (Z.of_nat i)))))))
      as [z [Hz [Hs Hat]]].
    { apply (nth_error_map_seq_lt (fun i => level_scaling shape (Z.of_nat i))). lia. }
    { apply (nth_error_map_seq_lt
               (fun i => zarr_empty (A := A)
                           (arr_shape (decimate whole
                                         (int_scaling
                                            (level_scaling shape (Z.of_nat i))))))).
      lia. }
    exists z. split; [exact Hz|]. split; [exact Hs|].
    intros q. rewrite Hat, Hs. cbn [zarr_empty z_at z_shape].
    rewrite existsb_filter.
    cbn [decimate arr_shape].
    rewrite (count_target_rois (int_scaling (level_scaling shape (Z.of_nat i)))
               (arr_shape whole) blocks q).
    + destruct (in_shape _ q); reflexivity.
    + apply int_scaling_level_positive. lia.
    + apply Hlen.
    + exact Hpart.
Qed.

Lemma in_shape_ones (shape : Shape) (ss q : list Z) :
  Forall (fun s => s = 1) ss ->
  List.length shape = List.length ss ->
  in_shape (map (fun '(n, s) => ceil_div n s) (combine shape ss)) q
  = in_shape shape q.
Proof.
  intros Hones Hlen. rewrite ones_coords by assumption. reflexivity.
Qed.

(** X16: the coordinator fills every level of the pyramid without seams.
    For a slot whose axes include t and c, with extents from 1 to 2^53, and
    a streamer that partitions the source, [_compute_and_write_scales]
    succeeds, creates one array per scaling of the planner, and array [i]
    ends up holding the decimation of the source by the integer factors of
    scaling [i] in every cell; array 0 holds the source itself. *)
Theorem export_fills_every_level (determineBlockShape : list Z -> Q -> list Z)
    (A : Type) (pc : PathComponents) (slot : Slot) (whole : ndarray A)
    (blocks : list ROI) (min_length : option Z) :
  determineBlockShape_spec determineBlockShape ->
  Dict.wf (getTaggedShape slot) ->
  Forall (fun n => 1 <= n <= 2 ^ 53) (Dict.values (getTaggedShape slot)) ->
  Dict.contains "t" (getTaggedShape slot) = true ->
  Dict.contains "c" (getTaggedShape slot) = true ->
  arr_shape whole = Dict.values (getTaggedShape slot) ->
  is_partition (arr_shape whole) blocks ->
  exists zarrays meta scalings,
    _compute_and_write_scales determineBlockShape pc slot whole blocks min_length
    = Ok (zarrays, meta)
    /\ _get_scalings (getTaggedShape slot)
         (_get_chunk_shape determineBlockShape slot) min_length = Ok scalings
    /\ List.length zarrays = List.length scalings
    /\ (forall i sc,
          nth_error scalings i = Some sc ->
          exists z,
            nth_error zarrays i = Some z
            /\ z_shape z = arr_shape (decimate whole (int_scaling sc))
            /\ forall q,
                 z_at z q = if in_shape (z_shape z) q
                            then Some (arr_at (decimate whole (int_scaling sc)) q)
                            else None)
    /\ exists z0,
         nth_error zarrays 0 = Some z0
         /\ z_shape z0 = arr_shape whole
         /\ forall q,
              z_at z0 q = if in_shape (arr_shape whole) q
                          then Some (arr_at whole q)
                          else None.
Proof.
  intros Hspec Hwf Hext Ht Hc Hwhole Hpart.
  destruct (compute_and_write_scales_ok determineBlockShape A pc slot whole blocks
              min_length Hspec Hwf Hext Ht Hc Hwhole Hpart)
    as [j [zarrays [_ [Hget [Hrun [Hlen Hlevels]]]]]].
  eexists. eexists. eexists.
  split; [exact Hrun|]. split; [exact Hget|]. split; [|split].
  - rewrite Hlen, length_map, length_seq. reflexivity.
  - intros i sc Hi. apply nth_error_map_seq in Hi. destruct Hi as [Hi Hsc].
    subst sc. apply Hlevels. lia.
  - destruct (Hlevels 0%nat ltac:(lia)) as [z0 [Hz0 [Hs0 Hat0]]].
    change (Z.of_nat 0) with 0 in *.
    pose proof (int_scaling_level_0 (getTaggedShape slot)) as Hones.
    assert (Hl : List.length (arr_shape whole)
                 = List.length (int_scaling (level_scaling (getTaggedShape slot) 0))).
    { rewrite int_scaling_level_length, Hwhole. unfold Dict.values. apply length_map. }
    assert (Hshape0 : z_shape z0 = arr_shape whole).
    { rewrite Hs0. cbn [decimate arr_shape]. apply ones_coords; assumption. }
    exists z0. split; [exact Hz0|]. split; [exact Hshape0|].
    intros q. rewrite Hat0, Hshape0.
    destruct (in_shape (arr_shape whole) q) eqn:Hin; [|reflexivity].
    unfold decimate. cbn [arr_at].
    rewrite scale_index_ones; [reflexivity | exact Hones |].
    apply in_shape_length in Hin. lia.
Qed.

Lemma unit_block_shape_spec : determineBlockShape_spec unit_block_shape.
Proof.
  intros max_shape target Hpos. unfold unit_block_shape.
  induction Hpos as [|m max_shape Hm Hpos IH]; simpl; constructor.
  - lia.
  - exact IH.
Qed.

Lemma row_slot_wf : Dict.wf (getTaggedShape row_slot).
Proof. unfold Dict.wf. repeat constructor; simpl; intuition discriminate. Qed.

Lemma row_blocks_partition : is_partition (arr_shape row_data) row_blocks.
Proof.
  split.
  - repeat constructor.
  - intros [|a [|b [|c [|d p]]]] Hin; try discriminate.
    unfold in_shape in Hin. simpl in Hin. rewrite andb_true_r in Hin.
    apply andb_prop in Hin. destruct Hin as [Ha Hin].
    apply andb_prop in Hin. destruct Hin as [Hb Hc].
    apply andb_prop in Ha. destruct Ha as [Ha0 Ha1].
    apply andb_prop in Hb. destruct Hb as [Hb0 Hb1].
    apply andb_prop in Hc. destruct Hc as [Hc0 Hc1].
    apply Z.leb_le in Ha0, Hb0, Hc0. apply Z.ltb_lt in Ha1, Hb1, Hc1.
    unfold row_blocks, in_roi. simpl.
    destruct (Z.leb_spec 0 a); [|lia]. destruct (Z.ltb_spec a 1); [|lia].
    destruct (Z.leb_spec 0 b); [|lia]. destruct (Z.ltb_spec b 1); [|lia].
    destruct (Z.leb_spec 0 c); [|lia].
    destruct (Z.ltb_spec c 10), (Z.leb_spec 10 c), (Z.ltb_spec c 20);
      simpl; try reflexivity; lia.
Qed.

Lemma export_fills_every_level_witness :
  determineBlockShape_spec unit_block_shape
  /\ is_partition (arr_shape row_data) row_blocks
  /\ exists zarrays meta scalings,
       _compute_and_write_scales unit_block_shape (mkPathComponents "out.zarr" None)
         row_slot row_data row_blocks None = Ok (zarrays, meta)
       /\ _get_scalings (getTaggedShape row_slot)
            (_get_chunk_shape unit_block_shape row_slot) None = Ok scalings
       /\ List.length zarrays = List.length scalings
       /\ (forall i sc,
             nth_error scalings i = Some sc ->
             exists z,
               nth_error zarrays i = Some z
               /\ z_shape z = arr_shape (decimate row_data (int_scaling sc))
               /\ forall q,
                    z_at z q = if in_shape (z_shape z) q
                               then Some (arr_at (decimate row_data (int_scaling sc)) q)
                               else None)
       /\ exists z0,
            nth_error zarrays 0 = Some z0
            /\ z_shape z0 = arr_shape row_data
            /\ forall q,
                 z_at z0 q = if in_shape (arr_shape row_data) q
                             then Some (arr_at row_data q)
                             else None.
Proof.
  split; [exact unit_block_shape_spec|].
  split; [exact row_blocks_partition|].
  apply (export_fills_every_level unit_block_shape Z
           (mkPathComponents "out.zarr" None) row_slot row_data row_blocks None).
  - exact unit_block_shape_spec.
  - exact row_slot_wf.
  - repeat constructor; cbn [snd]; lia.
  - reflexivity.
  - reflexivity.
  - reflexivity.
  - exact row_blocks_partition.
Defined.

Lemma str_of_nat_inj (i j : nat) : str_of_nat i = str_of_nat j -> i = j.
Proof.
  unfold str_of_nat. intros H.
  apply (f_equal NilEmpty.uint_of_string) in H.
  rewrite !NilEmpty.usu in H. inversion H as [Hu].
  apply (f_equal Nat.of_uint) in Hu.
  rewrite !DecimalNat.Unsigned.of_to in Hu. exact Hu.
Qed.

Lemma append_inj_l (p a b : string) : (p ++ a)%string = (p ++ b)%string -> a = b.
Proof.
  induction p as [|c p IH]; simpl; intros H; [exact H|].
  inversion H. apply IH. assumption.
Qed.

Lemma scale_path_inj (internal_path : option string) (i j : nat) :
  scale_path internal_path i = scale_path internal_path j -> i = j.
Proof.
  unfold scale_path. intros H. apply str_of_nat_inj.
  destruct internal_path as [p|].
  - destruct (truthy (Some p)).
    + apply append_inj_l in H. simpl in H. inversion H. reflexivity.
    + simpl in H. inversion H. reflexivity.
  - simpl in H. inversion H. reflexivity.
Qed.

Lemma NoDup_map_inj {X Y : Type} (f : X -> Y) (l : list X) :
  (forall x y, f x = f y -> x = y) -> NoDup l -> NoDup (map f l).
Proof.
  intros Hinj Hl. induction Hl as [|x l Hx Hl IH]; simpl; constructor.
  - intros Hin. apply in_map_iff in Hin. destruct Hin as [y [Hy Hin]].
    apply Hinj in Hy. subst y. contradiction.
  - exact IH.
Qed.

(** X17: the metadata the coordinator returns for a slot with extents from
    1 to 2^53 describes the levels one by one: record [i] carries scaling
    [i] of the planner and the path [s<i>], under the internal path when
    there is one, and no two levels share a path. *)
Theorem export_metadata_lists_levels (determineBlockShape : list Z -> Q -> list Z)
    (A : Type) (pc : PathComponents) (slot : Slot) (whole : ndarray A)
    (blocks : list ROI) (min_length : option Z) :
  determineBlockShape_spec determineBlockShape ->
  Dict.wf (getTaggedShape slot) ->
  Forall (fun n => 1 <= n <= 2 ^ 53) (Dict.values (getTaggedShape slot)) ->
  Dict.contains "t" (getTaggedShape slot) = true ->
  Dict.contains "c" (getTaggedShape slot) = true ->
  arr_shape whole = Dict.values (getTaggedShape slot) ->
  is_partition (arr_shape whole) blocks ->
  exists zarrays meta scalings,
    _compute_and_write_scales determineBlockShape pc slot whole blocks min_length
    = Ok (zarrays, meta)
    /\ _get_scalings (getTaggedShape slot)
         (_get_chunk_shape determineBlockShape slot) min_length = Ok scalings
    /\ map scale meta = scalings
    /\ (forall i m,
          nth_error meta i = Some m ->
          path m = scale_path
                     (if truthy (internalPath pc)
                      then option_map lstrip_slash (internalPath pc) else None) i
          /\ translation m = [])
    /\ NoDup (map path meta).
Proof.
  intros Hspec Hwf Hext Ht Hc Hwhole Hpart.
  destruct (compute_and_write_scales_ok determineBlockShape A pc slot whole blocks
              min_length Hspec Hwf Hext Ht Hc Hwhole Hpart)
    as [j [zarrays [_ [Hget [Hrun _]]]]].
  eexists. eexists. eexists.
  split; [exact Hrun|]. split; [exact Hget|]. split; [|split].
  - rewrite map_map. reflexivity.
  - intros i m Hi. apply nth_error_map_seq in Hi. destruct Hi as [_ Hm].
    subst m. split; reflexivity.
  - rewrite map_map. cbn [path]. apply NoDup_map_inj.
    + apply scale_path_inj.
    + apply seq_NoDup.
Qed.

Lemma export_metadata_lists_levels_witness :
  determineBlockShape_spec unit_block_shape
  /\ exists zarrays meta scalings,
       _compute_and_write_scales unit_block_shape
         (mkPathComponents "out.zarr" (Some "/raw")) row_slot row_data row_blocks None
       = Ok (zarrays, meta)
       /\ _get_scalings (getTaggedShape row_slot)
            (_get_chunk_shape unit_block_shape row_slot) None = Ok scalings
       /\ map scale meta = scalings
       /\ (forall i m,
             nth_error meta i = Some m ->
             path m = scale_path (Some "raw") i /\ translation m = [])
       /\ NoDup (map path meta).
Proof.
  split; [exact unit_block_shape_spec|].
  apply (export_metadata_lists_levels unit_block_shape Z
           (mkPathComponents "out.zarr" (Some "/raw")) row_slot row_data row_blocks None).
  - exact unit_block_shape_spec.
  - exact row_slot_wf.
  - repeat constructor; cbn [snd]; lia.
  - reflexivity.
  - reflexivity.
  - reflexivity.
  - exact row_blocks_partition.
Defined.

(** * Further properties of the metadata writer *)

Lemma write_metadata_explicit (ilastik_version : string)
    (zarr_group : string -> result unit)
    (zarr_Array : string -> string -> result unit) (pc : PathComponents)
    (multiscale_metadata : list ImageMetadata) (ilastik_meta : IlastikMeta) :
  Forall (fun key => Dict.contains key axis_types = true) (axistags ilastik_meta) ->
  Forall (fun image =>
            Forall (fun key => Dict.contains key (scale image) = true)
                   (axistags ilastik_meta))
         multiscale_metadata ->
  zarr_group (externalPath pc) = Ok tt ->
  Forall (fun image => zarr_Array (externalPath pc) (path image) = Ok tt)
         multiscale_metadata ->
  exists out m,
    _write_ome_zarr_and_ilastik_metadata ilastik_version zarr_group zarr_Array pc
      multiscale_metadata ilastik_meta = Ok out
    /\ multiscales out = [m]
    /\ axes m = map axis_entry (axistags ilastik_meta)
    /\ datasets m
       = map (fun image =>
                mkDataset (path image)
                  [mkTransformation "scale" (scale_vector (axistags ilastik_meta) image)])
           multiscale_metadata
    /\ map fst (array_attrs out) = map path multiscale_metadata.
Proof.
  intros Haxes Hscales Hgroup Harrays.
  set (tags := axistags ilastik_meta) in *.
  assert (Hax : mapM (fun key => ty <- Dict.getitem key axis_types ;;
                                 Ok (mkAxisEntry key ty)) tags
                = Ok (map axis_entry tags)).
  { apply mapM_ok_map. intros key Hin.
    rewrite Forall_forall in Haxes.
    destruct (contains_get key axis_types (Haxes key Hin)) as [ty Hty].
    unfold axis_entry, Dict.getitem. rewrite Hty. reflexivity. }
  assert (Hds : mapM (fun image =>
                        sc <- mapM (fun key => Dict.getitem key (scale image)) tags ;;
                        Ok (mkDataset (path image) [mkTransformation "scale" sc]))
                     multiscale_metadata
                = Ok (map (fun image =>
                             mkDataset (path image)
                               [mkTransformation "scale" (scale_vector tags image)])
                        multiscale_metadata)).
  { apply mapM_ok_map. intros image Hin.
    rewrite (mapM_ok_map _ (fun key => match Dict.get key (scale image) with
                                       | Some f => f | None => Finite 0 end)).
    - reflexivity.
    - intros key Hkey.
      rewrite Forall_forall in Hscales. specialize (Hscales image Hin).
      rewrite Forall_forall in Hscales.
      destruct (contains_get key (scale image) (Hscales key Hkey)) as [f Hf].
      unfold Dict.getitem. rewrite Hf. reflexivity. }
  unfold _write_ome_zarr_and_ilastik_metadata. fold tags.
  rewrite Hax. cbn [bind]. rewrite Hds. cbn [bind].
  rewrite Hgroup. cbn [bind].
  rewrite (array_attrs_ok zarr_Array _ _ _ Harrays). cbn [bind].
  eexists. eexists. split; [reflexivity|]. split; [reflexivity|].
  cbn [axes datasets array_attrs].
  split; [reflexivity|]. split; [reflexivity|].
  rewrite map_map. reflexivity.
Qed.

Lemma values_by_keys (d : OrderedScaling) :
  Dict.wf d ->
  map (fun key => match Dict.get key d with Some f => f | None => Finite 0 end)
      (Dict.keys d)
  = Dict.values d.
Proof.
  intros Hwf. unfold Dict.keys, Dict.values. rewrite map_map.
  apply map_ext_in. intros [a f] Hin. cbn [fst snd].
  rewrite (get_wf_in d a f Hwf Hin). reflexivity.
Qed.

Lemma contains_level_scaling (shape : TaggedShape) (k : Z) (key : string) :
  In key (Dict.keys shape) -> Dict.contains key (level_scaling shape k) = true.
Proof.
  intros Hin. unfold Dict.contains. rewrite get_level_scaling.
  destruct (get_in_keys shape key Hin) as [n Hn]. rewrite Hn. reflexivity.
Qed.

(** X18: the two halves of [write_ome_zarr] fit together.  Given the
    metadata [_compute_and_write_scales] returns for a slot whose axes are
    among t, c, z, y, x, with extents from 1 to 2^53, and the axis tags of
    that slot, the metadata writer does not fail when the store opens the
    root group and the array of every level at its path: it lists one axis
    per tag and one dataset per level, with the level's path and, as scale
    vector, the level's factors in axis order. *)
Theorem export_then_metadata (determineBlockShape : list Z -> Q -> list Z)
    (A : Type) (ilastik_version : string) (zarr_group : string -> result unit)
    (zarr_Array : string -> string -> result unit) (pc : PathComponents)
    (slot : Slot) (whole : ndarray A) (blocks : list ROI) (min_length : option Z)
    (display : option string) (range : option (Q * Q)) :
  determineBlockShape_spec determineBlockShape ->
  Dict.wf (getTaggedShape slot) ->
  Forall (fun n => 1 <= n <= 2 ^ 53) (Dict.values (getTaggedShape slot)) ->
  Dict.contains "t" (getTaggedShape slot) = true ->
  Dict.contains "c" (getTaggedShape slot) = true ->
  Forall (fun key => Dict.contains key axis_types = true)
         (Dict.keys (getTaggedShape slot)) ->
  arr_shape whole = Dict.values (getTaggedShape slot) ->
  is_partition (arr_shape whole) blocks ->
  zarr_group (externalPath pc) = Ok tt ->
  (forall i, zarr_Array (externalPath pc) (scale_path (internal_path_of pc) i)
             = Ok tt) ->
  exists zarrays meta scalings out m,
    _compute_and_write_scales determineBlockShape pc slot whole blocks min_length
    = Ok (zarrays, meta)
    /\ _get_scalings (getTaggedShape slot)
         (_get_chunk_shape determineBlockShape slot) min_length = Ok scalings
    /\ _write_ome_zarr_and_ilastik_metadata ilastik_version zarr_group zarr_Array pc
         meta (mkIlastikMeta (Dict.keys (getTaggedShape slot)) display range)
       = Ok out
    /\ multiscales out = [m]
    /\ map axis_name (axes m) = Dict.keys (getTaggedShape slot)
    /\ map ds_path (datasets m) = map path meta
    /\ map coordinateTransformations (datasets m)
       = map (fun sc => [mkTransformation "scale" (Dict.values sc)]) scalings
    /\ map fst (array_attrs out) = map path meta.
Proof.
  intros Hspec Hwf Hext Ht Hc Htypes Hwhole Hpart Hgroup Harrays.
  destruct (compute_and_write_scales_ok determineBlockShape A pc slot whole blocks
              min_length Hspec Hwf Hext Ht Hc Hwhole Hpart)
    as [j [zarrays [_ [Hget [Hrun _]]]]].
  set (shape := getTaggedShape slot) in *.
  set (meta := map (fun i => mkImageMetadata (scale_path (internal_path_of pc) i)
                               (level_scaling shape (Z.of_nat i)) [])
                 (seq 0 (S j))) in *.
  destruct (write_metadata_explicit ilastik_version zarr_group zarr_Array pc meta
              (mkIlastikMeta (Dict.keys shape) display range))
    as [out [m [Hout [Hm [Haxes [Hds Hattrs]]]]]].
  { exact Htypes. }
  { apply Forall_forall. intros image Hin. unfold meta in Hin.
    apply in_map_iff in Hin. destruct Hin as [i [Himage _]]. subst image.
    cbn [axistags scale]. apply Forall_forall. intros key Hkey.
    apply contains_level_scaling. exact Hkey. }
  { exact Hgroup. }
  { apply Forall_forall. intros image Hin. unfold meta in Hin.
    apply in_map_iff in Hin. destruct Hin as [i [Himage _]]. subst image.
    cbn [path]. apply Harrays. }
  cbn [axistags] in *.
  exists zarrays, meta,
    (map (fun i => level_scaling shape (Z.of_nat i)) (seq 0 (S j))), out, m.
  split; [exact Hrun|]. split; [exact Hget|]. split; [exact Hout|].
  split; [exact Hm|]. split; [|split; [|split]].
  - rewrite Haxes, map_map. unfold axis_entry. cbn [axis_name]. apply map_id.
  - rewrite Hds, map_map. reflexivity.
  - rewrite Hds. unfold meta. rewrite !map_map. cbn [coordinateTransformations].
    apply map_ext. intros i. unfold scale_vector. cbn [scale].
    do 2 f_equal.
    rewrite <- (values_by_keys (level_scaling shape (Z.of_nat i))).
    + unfold Dict.keys. rewrite level_scaling_keys. reflexivity.
    + unfold Dict.wf, Dict.keys. rewrite level_scaling_keys. exact Hwf.
  - exact Hattrs.
Qed.

Lemma export_then_metadata_witness :
  determineBlockShape_spec unit_block_shape
  /\ exists zarrays meta scalings out m,
       _compute_and_write_scales unit_block_shape (mkPathComponents "out.zarr" None)
         row_slot row_data row_blocks None = Ok (zarrays, meta)
       /\ _get_scalings (getTaggedShape row_slot)
            (_get_chunk_shape unit_block_shape row_slot) None = Ok scalings
       /\ _write_ome_zarr_and_ilastik_metadata "1.4" (fun _ => Ok tt)
            (fun _ _ => Ok tt) (mkPathComponents "out.zarr" None)
            meta (mkIlastikMeta (Dict.keys (getTaggedShape row_slot)) None None)
          = Ok out
       /\ multiscales out = [m]
       /\ map axis_name (axes m) = Dict.keys (getTaggedShape row_slot)
       /\ map ds_path (datasets m) = map path meta
       /\ map coordinateTransformations (datasets m)
          = map (fun sc => [mkTransformation "scale" (Dict.values sc)]) scalings
       /\ map fst (array_attrs out) = map path meta.
Proof.
  split; [exact unit_block_shape_spec|].
  apply (export_then_metadata unit_block_shape Z "1.4" (fun _ => Ok tt)
           (fun _ _ => Ok tt)
           (mkPathComponents "out.zarr" None) row_slot row_data row_blocks None
           None None).
  - exact unit_block_shape_spec.
  - exact row_slot_wf.
  - repeat constructor; cbn [snd]; lia.
  - reflexivity.
  - reflexivity.
  - repeat constructor.
  - reflexivity.
  - exact row_blocks_partition.
  - reflexivity.
  - intros i. reflexivity.
Defined.

Lemma getitem_ok_or_keyerror {V : Type} (key : string) (d : Dict.t V) :
  (exists v, Dict.getitem key d = Ok v) \/ Dict.getitem key d = Raise KeyError.
Proof.
  unfold Dict.getitem. destruct (Dict.get key d); [left; eauto | right; reflexivity].
Qed.

Lemma array_attrs_raise (zarr_Array : string -> string -> result unit)
    (external_path : string) (attrs : ArrayAttrs) (l : list ImageMetadata) (e : exn) :
  mapM (fun image => za <- zarr_Array external_path (path image) ;;
                     Ok (path image, attrs)) l = Raise e ->
  exists image, In image l /\ zarr_Array external_path (path image) = Raise e.
Proof.
  induction l as [|image l IH]; cbn [mapM]; intros H; [discriminate|].
  destruct (zarr_Array external_path (path image)) as [u|e'] eqn:E; cbn [bind] in H.
  - match type of H with
    | context [mapM ?f l] => destruct (mapM f l) as [ys|e''] eqn:E'
    end; cbn [bind] in H; [discriminate|].
    inversion H; subst e''. destruct (IH eq_refl) as [image' [Hin Hr]].
    exists image'. split; [right; exact Hin | exact Hr].
  - inversion H; subst e'. exists image. split; [left; reflexivity | exact E].
Qed.

(** X19: the failures of the metadata writer.  It raises [KeyError], before
    any call into the store, when an axis tag is not one of t, c, z, y, x,
    and when the scale of some level lacks the factor of an axis tag; every
    other exception it raises is that of a call into the store: of the
    opening of the root group or of the opening of the array of a level,
    which fails when the store does not hold the array. *)
Theorem metadata_fails_with_keyerror (ilastik_version : string)
    (zarr_group : string -> result unit)
    (zarr_Array : string -> string -> result unit) (pc : PathComponents)
    (multiscale_metadata : list ImageMetadata) (ilastik_meta : IlastikMeta) :
  ((exists key, In key (axistags ilastik_meta)
                /\ Dict.contains key axis_types = false)
   \/ (exists image key, In image multiscale_metadata
                         /\ In key (axistags ilastik_meta)
                         /\ Dict.contains key (scale image) = false) ->
   _write_ome_zarr_and_ilastik_metadata ilastik_version zarr_group zarr_Array pc
     multiscale_metadata ilastik_meta = Raise KeyError)
  /\ forall e,
       _write_ome_zarr_and_ilastik_metadata ilastik_version zarr_group zarr_Array pc
         multiscale_metadata ilastik_meta = Raise e ->
       e = KeyError
       \/ zarr_group (externalPath pc) = Raise e
       \/ exists image, In image multiscale_metadata
                        /\ zarr_Array (externalPath pc) (path image) = Raise e.
Proof.
  set (tags := axistags ilastik_meta).
  set (fax := fun key => ty <- Dict.getitem key axis_types ;; Ok (mkAxisEntry key ty)).
  set (fsc := fun image : ImageMetadata =>
                mapM (fun key => Dict.getitem key (scale image)) tags).
  set (fds := fun image : ImageMetadata =>
                sc <- fsc image ;;
                Ok (mkDataset (path image) [mkTransformation "scale" sc])).
  set (attrs := mkArrayAttrs tags
                  (if truthy (display_mode ilastik_meta)
                   then display_mode ilastik_meta else None)
                  (drange ilastik_meta)).
  assert (Hfax : forall key, (exists y, fax key = Ok y) \/ fax key = Raise KeyError).
  { intros key. unfold fax.
    destruct (getitem_ok_or_keyerror key axis_types) as [[ty Hty]|Hr].
    - rewrite Hty. left. eexists. reflexivity.
    - rewrite Hr. right. reflexivity. }
  assert (Hfsc : forall image,
             (exists y, fsc image = Ok y) \/ fsc image = Raise KeyError).
  { intros image. unfold fsc. apply mapM_ok_or_raise.
    intros key _. apply getitem_ok_or_keyerror. }
  assert (Hfds : forall image,
             (exists y, fds image = Ok y) \/ fds image = Raise KeyError).
  { intros image. unfold fds. destruct (Hfsc image) as [[sc Hsc]|Hr].
    - rewrite Hsc. left. eexists. reflexivity.
    - rewrite Hr. right. reflexivity. }
  assert (Hrun : _write_ome_zarr_and_ilastik_metadata ilastik_version zarr_group
                   zarr_Array pc multiscale_metadata ilastik_meta
                 = (axes_ <- mapM fax tags ;;
                    datasets_ <- mapM fds multiscale_metadata ;;
                    root <- zarr_group (externalPath pc) ;;
                    array_attrs_ <-
                      mapM (fun image =>
                              za <- zarr_Array (externalPath pc) (path image) ;;
                              Ok (path image, attrs))
                           multiscale_metadata ;;
                    Ok (mkStoreAttrs
                          [mkMultiscale (mkSignature "ilastik" ilastik_version 1) "0.4"
                             axes_ datasets_
                             (if truthy
                                   (if truthy (internalPath pc)
                                    then option_map lstrip_slash (internalPath pc)
                                    else None)
                              then (if truthy (internalPath pc)
                                    then option_map lstrip_slash (internalPath pc)
                                    else None)
                              else None)]
                          array_attrs_)))
    by reflexivity.
  rewrite Hrun. clear Hrun.
  pose proof (mapM_ok_or_raise fax KeyError tags (fun key _ => Hfax key)) as Hax.
  pose proof (mapM_ok_or_raise fds KeyError multiscale_metadata
                (fun image _ => Hfds image)) as Hds.
  split.
  - intros [[key [Hin Hc]]|[image [key [Himage [Hkey Hc]]]]].
    + rewrite (mapM_raise fax KeyError tags (fun key _ => Hfax key)); [reflexivity|].
      exists key. split; [exact Hin|]. unfold fax, Dict.getitem.
      unfold Dict.contains in Hc. destruct (Dict.get key axis_types); [discriminate|].
      reflexivity.
    + destruct Hax as [[axes_ Haxes]|Hr]; [|rewrite Hr; reflexivity].
      rewrite Haxes. cbn [bind].
      rewrite (mapM_raise fds KeyError multiscale_metadata (fun image _ => Hfds image));
        [reflexivity|].
      exists image. split; [exact Himage|]. unfold fds, fsc.
      rewrite (mapM_raise _ KeyError tags
                 (fun key _ => getitem_ok_or_keyerror key (scale image)));
        [reflexivity|].
      exists key. split; [exact Hkey|]. unfold Dict.getitem.
      unfold Dict.contains in Hc. destruct (Dict.get key (scale image)); [discriminate|].
      reflexivity.
  - intros e He.
    destruct Hax as [[axes_ Haxes]|Hr];
      [|rewrite Hr in He; inversion He; left; reflexivity].
    rewrite Haxes in He. cbn [bind] in He.
    destruct Hds as [[datasets_ Hdatasets]|Hr];
      [|rewrite Hr in He; inversion He; left; reflexivity].
    rewrite Hdatasets in He. cbn [bind] in He.
    destruct (zarr_group (externalPath pc)) as [u|e'] eqn:Eg; cbn [bind] in He.
    + right. right.
      apply (array_attrs_raise zarr_Array (externalPath pc) attrs).
      match type of He with
      | bind ?m _ = _ => remember m as r eqn:Er
      end.
      destruct r as [ys|e'']; cbn [bind] in He; [discriminate|].
      inversion He. reflexivity.
    + right. left. inversion He. reflexivity.
Qed.

Lemma metadata_fails_with_keyerror_witness :
  In "v" ["v"; "x"]
  /\ _write_ome_zarr_and_ilastik_metadata "1.4" (fun _ => Ok tt) (fun _ _ => Ok tt)
       (mkPathComponents "out.zarr" None)
       two_levels (mkIlastikMeta ["v"; "x"] None None) = Raise KeyError.
Proof.
  split; [left; reflexivity|].
  apply (proj1 (metadata_fails_with_keyerror "1.4" (fun _ => Ok tt) (fun _ _ => Ok tt)
                  (mkPathComponents "out.zarr" None)
                  two_levels (mkIlastikMeta ["v"; "x"] None None))).
  left. exists "v". split; [left; reflexivity | reflexivity].
Defined.

(** On a store that holds no array at the paths of the levels the writer
    raises the store's error. *)
Example metadata_fails_on_missing_array :
  _write_ome_zarr_and_ilastik_metadata "1.4" (fun _ => Ok tt)
    (fun _ _ => Raise ArrayNotFoundError) (mkPathComponents "out.zarr" None)
    two_levels (mkIlastikMeta tczyx None None) = Raise ArrayNotFoundError.
Proof.
  reflexivity.
Qed.

Lemma lstrip_slash_no_slash (s : string) (rest : string) :
  lstrip_slash s <> String "/" rest.
Proof.
  induction s as [|c s IH]; [discriminate|].
  destruct (Ascii.ascii_dec c "/") as [->|Hne]; [exact IH|].
  assert (Hkeep : lstrip_slash (String c s) = String c s).
  { destruct c as [[] [] [] [] [] [] [] []]; try reflexivity. contradiction Hne.
    reflexivity. }
  rewrite Hkeep. intros H. inversion H. contradiction.
Qed.

(** X20: the name of the multiscale, when the writer sets one, is the
    internal path of the export without its leading slashes; it is not empty
    and does not begin with a slash.  An export path without an internal
    path, or with one of slashes only, gives a document without a name. *)
Theorem multiscale_name_rule (ilastik_version : string)
    (zarr_group : string -> result unit)
    (zarr_Array : string -> string -> result unit) (pc : PathComponents)
    (multiscale_metadata : list ImageMetadata) (ilastik_meta : IlastikMeta)
    (out : StoreAttrs) (m : Multiscale) :
  _write_ome_zarr_and_ilastik_metadata ilastik_version zarr_group zarr_Array pc
    multiscale_metadata ilastik_meta = Ok out ->
  In m (multiscales out) ->
  (forall n, name m = Some n ->
     exists p, internalPath pc = Some p
               /\ n = lstrip_slash p
               /\ n <> ""
               /\ forall rest, n <> String "/" rest)
  /\ (name m = None <->
      internalPath pc = None
      \/ exists p, internalPath pc = Some p /\ lstrip_slash p = "").
Proof.
  unfold _write_ome_zarr_and_ilastik_metadata. intros Hrun Hin.
  destruct (mapM _ (axistags ilastik_meta)) as [axes_|e]; [|discriminate].
  cbn [bind] in Hrun.
  destruct (mapM _ multiscale_metadata) as [datasets_|e]; [|discriminate].
  cbn [bind] in Hrun.
  destruct (zarr_group (externalPath pc)) as [root|e]; [|discriminate].
  cbn [bind] in Hrun.
  destruct (mapM _ multiscale_metadata) as [attrs|e]; [|discriminate].
  cbn [bind] in Hrun. inversion Hrun; subst out. clear Hrun.
  cbn [multiscales] in Hin. destruct Hin as [Hm|[]]. subst m. cbn [name].
  destruct (internalPath pc) as [p|].
  - destruct p as [|c p].
    + cbn [truthy]. split; [discriminate|].
      split; [intros _; right; exists ""; split; reflexivity | reflexivity].
    + cbn [truthy option_map].
      destruct (lstrip_slash (String c p)) as [|d r] eqn:Hstrip; cbn [truthy].
      * split; [discriminate|].
        split; [intros _; right; eexists; split; [reflexivity | exact Hstrip]
               | reflexivity].
      * split.
        -- intros n Hn. inversion Hn; subst n. exists (String c p).
           split; [reflexivity|]. split; [symmetry; exact Hstrip|].
           split; [discriminate|].
           intros rest. rewrite <- Hstrip. apply lstrip_slash_no_slash.
        -- split; [discriminate|].
           intros [H|[p' [Hp' Hs]]]; [discriminate|].
           inversion Hp'; subst p'. rewrite Hstrip in Hs. discriminate.
  - cbn [truthy]. split; [discriminate|].
    split; [intros _; left; reflexivity | reflexivity].
Qed.

Lemma multiscale_name_rule_witness :
  exists out m,
    _write_ome_zarr_and_ilastik_metadata "1.4" (fun _ => Ok tt) (fun _ _ => Ok tt)
      (mkPathComponents "out.zarr" (Some "//raw")) two_levels
      (mkIlastikMeta tczyx None None) = Ok out
    /\ In m (multiscales out)
    /\ forall n, name m = Some n ->
         exists p, Some "//raw" = Some p
                   /\ n = lstrip_slash p
                   /\ n <> ""
                   /\ forall rest, n <> String "/" rest.
Proof.
  eexists. eexists. split; [reflexivity|].
  split; [left; reflexivity|].
  refine (proj1 (multiscale_name_rule "1.4" (fun _ => Ok tt) (fun _ _ => Ok tt)
                   (mkPathComponents "out.zarr" (Some "//raw"))
                   two_levels (mkIlastikMeta tczyx None None) _ _ _ _)).
  - reflexivity.
  - left. reflexivity.
Defined.

(** * The N5 sequence reader *)

Lemma split_nonempty (sep : ascii) (s : string) : N5.split sep s <> [].
Proof.
  destruct s as [|c s]; simpl; [discriminate|].
  destruct (Ascii.eqb c sep); [discriminate|].
  destruct (N5.split sep s); discriminate.
Qed.

Lemma split_app (sep : ascii) (a b : string) :
  N5.split sep (a ++ String sep b)%string = N5.split sep a ++ N5.split sep b.
Proof.
  induction a as [|c a IH]; simpl.
  - rewrite Ascii.eqb_refl. reflexivity.
  - destruct (Ascii.eqb c sep).
    + rewrite IH. reflexivity.
    + rewrite IH. destruct (N5.split sep a) as [|x xs] eqn:Hs.
      * exfalso. exact (split_nonempty sep a Hs).
      * reflexivity.
Qed.

(** X21: what an accepted glob string guarantees.  If [checkGlobString]
    returns, every path of the list has an N5 extension, all paths name the
    same external file, no external path holds a placeholder, and a list of
    a single path has an internal path with a placeholder. *)
Theorem accepted_glob_string (pathsep : ascii)
    (PathComponents_of : string -> N5.PathComponents) (N5EXTS : list string)
    (globString : string) :
  N5.checkGlobString pathsep PathComponents_of N5EXTS globString = N5.Done tt ->
  let pathComponents :=
    map (fun p => PathComponents_of (N5.strip p)) (N5.split pathsep globString) in
  Forall (fun p => N5.extension_known N5EXTS p = true) pathComponents
  /\ (forall p q, In p pathComponents -> In q pathComponents ->
        N5.externalPath p = N5.externalPath q)
  /\ Forall (fun p => N5.char_in "*" (N5.externalPath p) = false) pathComponents
  /\ (forall p, pathComponents = [p] ->
        exists ip, N5.internalPath p = Some ip /\ N5.char_in "*" ip = true).
Proof.
  intros Hrun pathComponents.
  unfold N5.checkGlobString in Hrun. cbv zeta in Hrun.
  fold pathComponents in Hrun.
  destruct (0 <? List.length pathComponents)%nat; [|discriminate].
  destruct (forallb (N5.extension_known N5EXTS) pathComponents) eqn:Hext;
    cbn [negb] in Hrun; [|discriminate].
  split; [apply Forall_forall; apply forallb_forall; exact Hext|].
  destruct pathComponents as [|p0 [|p1 rest]]; [discriminate| |].
  - destruct (N5.internalPath p0) as [ip|] eqn:Hip; [|discriminate].
    destruct (N5.char_in "*" ip) eqn:Hstar; cbn [negb] in Hrun; [|discriminate].
    destruct (N5.char_in "*" (N5.externalPath p0)) eqn:Hex; [discriminate|].
    split; [|split].
    + intros p q [Hp|[]] [Hq|[]]. subst. reflexivity.
    + repeat constructor. exact Hex.
    + intros p Hp. inversion Hp; subst p. exists ip. split; [exact Hip | exact Hstar].
  - destruct (forallb _ (p1 :: rest)) eqn:Hsame; cbn [negb] in Hrun; [|discriminate].
    destruct (N5.char_in "*" (N5.externalPath p0)) eqn:Hex; [discriminate|].
    assert (Hall : forall p, In p (p0 :: p1 :: rest) ->
                     N5.externalPath p = N5.externalPath p0).
    { intros p [Hp|Hp]; [subst; reflexivity|].
      rewrite forallb_forall in Hsame. specialize (Hsame p Hp).
      apply String.eqb_eq in Hsame. symmetry. exact Hsame. }
    split; [|split].
    + intros p q Hp Hq. rewrite (Hall p Hp), (Hall q Hq). reflexivity.
    + apply Forall_forall. intros p Hp. rewrite (Hall p Hp). exact Hex.
    + intros p Hp. discriminate.
Qed.

Lemma accepted_glob_string_witness :
  N5.checkGlobString ":" example_parse [".n5"] "data.n5/a* : data.n5/b" = N5.Done tt
  /\ Forall (fun p => N5.char_in "*" (N5.externalPath p) = false)
       (map (fun p => example_parse (N5.strip p))
          (N5.split ":" "data.n5/a* : data.n5/b")).
Proof.
  split; [reflexivity|].
  apply (accepted_glob_string ":" example_parse [".n5"] "data.n5/a* : data.n5/b").
  reflexivity.
Defined.

(** X22: the errors of [checkGlobString].  A path whose extension is not
    an N5 extension stops the check before every other test, and what the
    caller sees is a [NameError], raised while the [WrongFileTypeError] is
    constructed.  The assertion on the number of paths never fails, since a
    split string has at least one part. *)
Theorem check_glob_string_errors (pathsep : ascii)
    (PathComponents_of : string -> N5.PathComponents) (N5EXTS : list string)
    (globString : string) :
  ((exists p, In p (N5.split pathsep globString)
              /\ N5.extension_known N5EXTS (PathComponents_of (N5.strip p)) = false) ->
   N5.checkGlobString pathsep PathComponents_of N5EXTS globString
   = N5.Fail N5.NameError)
  /\ N5.checkGlobString pathsep PathComponents_of N5EXTS globString
     <> N5.Fail N5.AssertionError
  /\ N5.checkGlobString pathsep PathComponents_of N5EXTS globString
     <> N5.Fail N5.WrongFileTypeError
  /\ N5.checkGlobString pathsep PathComponents_of N5EXTS globString
     <> N5.Fail N5.IndexError.
Proof.
  unfold N5.checkGlobString. cbv zeta.
  set (pathComponents :=
         map (fun p => PathComponents_of (N5.strip p)) (N5.split pathsep globString)).
  assert (Hne : pathComponents <> []).
  { unfold pathComponents. intros H. apply map_eq_nil in H.
    exact (split_nonempty pathsep globString H). }
  assert (Hlen : (0 <? List.length pathComponents)%nat = true).
  { destruct pathComponents; [contradiction | reflexivity]. }
  rewrite Hlen. split; [|split; [|split]].
  - intros [p [Hin Hext]].
    replace (forallb (N5.extension_known N5EXTS) pathComponents) with false;
      [reflexivity|].
    symmetry. apply not_true_is_false. intros Hall.
    rewrite forallb_forall in Hall.
    rewrite (Hall (PathComponents_of (N5.strip p))) in Hext; [discriminate|].
    unfold pathComponents. apply (in_map (fun p => PathComponents_of (N5.strip p))).
    exact Hin.
  - destruct (forallb _ pathComponents); cbn [negb]; [|discriminate].
    destruct pathComponents as [|p0 [|p1 rest]]; [contradiction| |].
    + destruct (N5.internalPath p0) as [ip|]; [|discriminate].
      destruct (N5.char_in "*" ip); cbn [negb]; [|discriminate].
      destruct (N5.char_in "*" (N5.externalPath p0)); discriminate.
    + destruct (forallb _ (p1 :: rest)); cbn [negb]; [|discriminate].
      destruct (N5.char_in "*" (N5.externalPath p0)); discriminate.
  - destruct (forallb _ pathComponents); cbn [negb]; [|discriminate].
    destruct pathComponents as [|p0 [|p1 rest]]; [contradiction| |].
    + destruct (N5.internalPath p0) as [ip|]; [|discriminate].
      destruct (N5.char_in "*" ip); cbn [negb]; [|discriminate].
      destruct (N5.char_in "*" (N5.externalPath p0)); discriminate.
    + destruct (forallb _ (p1 :: rest)); cbn [negb]; [|discriminate].
      destruct (N5.char_in "*" (N5.externalPath p0)); discriminate.
  - destruct (forallb _ pathComponents); cbn [negb]; [|discriminate].
    destruct pathComponents as [|p0 [|p1 rest]]; [contradiction| |].
    + destruct (N5.internalPath p0) as [ip|]; [|discriminate].
      destruct (N5.char_in "*" ip); cbn [negb]; [|discriminate].
      destruct (N5.char_in "*" (N5.externalPath p0)); discriminate.
    + destruct (forallb _ (p1 :: rest)); cbn [negb]; [|discriminate].
      destruct (N5.char_in "*" (N5.externalPath p0)); discriminate.
Qed.

Lemma check_glob_string_errors_witness :
  (exists p, In p (N5.split ":" "data.h5/a*")
             /\ N5.extension_known [".n5"] (example_parse (N5.strip p)) = false)
  /\ N5.checkGlobString ":" example_parse [".n5"] "data.h5/a*"
     = N5.Fail N5.NameError.
Proof.
  assert (H : exists p, In p (N5.split ":" "data.h5/a*")
                        /\ N5.extension_known [".n5"] (example_parse (N5.strip p))
                           = false).
  { exists "data.h5/a*". split; [left; reflexivity | reflexivity]. }
  split; [exact H|].
  apply (proj1 (check_glob_string_errors ":" example_parse [".n5"] "data.h5/a*") H).
Defined.

Lemma expand_loop_acc (PathComponents_of : string -> N5.PathComponents)
    (glob : string -> list string) (globs : list string) (ret : list string) :
  N5.expand_loop PathComponents_of glob globs ret
  = match N5.expand_loop PathComponents_of glob globs [] with
    | N5.Done r => N5.Done (ret ++ r)
    | N5.Fail e => N5.Fail e
    end.
Proof.
  revert ret. induction globs as [|g globs IH]; intros ret.
  - simpl. rewrite app_nil_r. reflexivity.
  - cbn [N5.expand_loop].
    destruct (N5.internalPath (PathComponents_of (N5.strip g))) as [ip|];
      [|reflexivity].
    rewrite IH. rewrite (IH ([] ++ _)).
    destruct (N5.expand_loop PathComponents_of glob globs []); [|reflexivity].
    rewrite app_assoc. reflexivity.
Qed.

Lemma expand_loop_app (PathComponents_of : string -> N5.PathComponents)
    (glob : string -> list string) (g1 g2 : list string) :
  N5.expand_loop PathComponents_of glob (g1 ++ g2) []
  = match N5.expand_loop PathComponents_of glob g1 [] with
    | N5.Done r1 =>
        match N5.expand_loop PathComponents_of glob g2 [] with
        | N5.Done r2 => N5.Done (r1 ++ r2)
        | N5.Fail e => N5.Fail e
        end
    | N5.Fail e => N5.Fail e
    end.
Proof.
  induction g1 as [|g g1 IH].
  - simpl. destruct (N5.expand_loop PathComponents_of glob g2 []); reflexivity.
  - rewrite <- app_comm_cons. cbn [N5.expand_loop].
    destruct (N5.internalPath (PathComponents_of (N5.strip g))) as [ip|];
      [|reflexivity].
    set (s0 := N5.sorted (glob (lstrip_slash ip))).
    rewrite (expand_loop_acc _ _ (g1 ++ g2) ([] ++ s0)).
    rewrite (expand_loop_acc _ _ g1 ([] ++ s0)).
    rewrite IH.
    destruct (N5.expand_loop PathComponents_of glob g1 []) as [r1|e]; [|reflexivity].
    destruct (N5.expand_loop PathComponents_of glob g2 []) as [r2|e]; [|reflexivity].
    rewrite app_assoc. reflexivity.
Qed.

(** X23: the glob strings of a list are expanded one by one, in their
    order: the expansion of two lists joined by the path separator is the
    expansion of the first followed by the expansion of the second, matches
    found by both included twice, and it fails where the first of them
    fails. *)
Theorem expand_joined_glob_strings (pathsep : ascii)
    (PathComponents_of : string -> N5.PathComponents)
    (globHdf5N5 : string -> list string) (a b : string) :
  N5.expandGlobStrings pathsep PathComponents_of globHdf5N5
    (a ++ String pathsep b)%string
  = match N5.expandGlobStrings pathsep PathComponents_of globHdf5N5 a with
    | N5.Done ra =>
        match N5.expandGlobStrings pathsep PathComponents_of globHdf5N5 b with
        | N5.Done rb => N5.Done (ra ++ rb)
        | N5.Fail e => N5.Fail e
        end
    | N5.Fail e => N5.Fail e
    end.
Proof.
  unfold N5.expandGlobStrings. rewrite split_app. apply expand_loop_app.
Qed.

Lemma accepted_glob_string_single (pathsep : ascii)
    (PathComponents_of : string -> N5.PathComponents) (N5EXTS : list string)
    (globString g : string) :
  N5.checkGlobString pathsep PathComponents_of N5EXTS globString = N5.Done tt ->
  N5.split pathsep globString = [g] ->
  exists ip,
    N5.internalPath (PathComponents_of (N5.strip g)) = Some ip
    /\ N5.char_in "*" ip = true.
Proof.
  unfold N5.checkGlobString. cbv zeta. intros Hrun Hg. rewrite Hg in Hrun.
  cbn [map List.length Nat.ltb Nat.leb] in Hrun.
  destruct (forallb _ _); cbn [negb] in Hrun; [|discriminate].
  destruct (N5.internalPath (PathComponents_of (N5.strip g))) as [ip|];
    [|discriminate].
  destruct (N5.char_in "*" ip) eqn:Hstar; cbn [negb] in Hrun; [|discriminate].
  exists ip. split; [reflexivity | exact Hstar].
Qed.

(** X24: passing [checkGlobString] does not make [expandGlobStrings]
    safe.  For a single path the check guarantees an internal path, and the
    expansion returns the sorted matches of its pattern; in a list the
    internal paths are not checked, and one path without an internal path
    makes the expansion fail with [AttributeError]. *)
Theorem expand_after_check (pathsep : ascii)
    (PathComponents_of : string -> N5.PathComponents) (N5EXTS : list string)
    (globHdf5N5 : string -> list string) (globString : string) :
  N5.checkGlobString pathsep PathComponents_of N5EXTS globString = N5.Done tt ->
  (forall g, N5.split pathsep globString = [g] ->
     exists ip,
       N5.internalPath (PathComponents_of (N5.strip g)) = Some ip
       /\ N5.expandGlobStrings pathsep PathComponents_of globHdf5N5 globString
          = N5.Done (N5.sorted (globHdf5N5 (lstrip_slash ip))))
  /\ ((exists g, In g (N5.split pathsep globString)
                 /\ N5.internalPath (PathComponents_of (N5.strip g)) = None) ->
      N5.expandGlobStrings pathsep PathComponents_of globHdf5N5 globString
      = N5.Fail N5.AttributeError).
Proof.
  intros Hcheck. split.
  - intros g Hg.
    destruct (accepted_glob_string_single pathsep PathComponents_of N5EXTS
                globString g Hcheck Hg) as [ip [Hip _]].
    exists ip. split; [exact Hip|].
    unfold N5.expandGlobStrings. rewrite Hg. cbn [N5.expand_loop].
    rewrite Hip. reflexivity.
  - intros [g [Hin Hnone]]. unfold N5.expandGlobStrings.
    induction (N5.split pathsep globString) as [|g0 globs IH]; [contradiction|].
    cbn [N5.expand_loop].
    destruct (N5.internalPath (PathComponents_of (N5.strip g0))) as [ip|] eqn:Hip;
      [|reflexivity].
    rewrite expand_loop_acc.
    destruct Hin as [Heq|Hin]; [subst g0; congruence|].
    rewrite (IH Hin). reflexivity.
Qed.

Lemma expand_after_check_witness :
  N5.checkGlobString ":" example_parse [".n5"] "data.n5/a*:data.n5" = N5.Done tt
  /\ N5.expandGlobStrings ":" example_parse (fun _ => []) "data.n5/a*:data.n5"
     = N5.Fail N5.AttributeError.
Proof.
  split; [reflexivity|].
  apply (proj2 (expand_after_check ":" example_parse [".n5"] (fun _ => [])
                  "data.n5/a*:data.n5" eq_refl)).
  exists "data.n5". split; [right; left; reflexivity | reflexivity].
Defined.

Lemma str_in_nonempty (a : string) (l : list string) :
  N5.str_in a l = true -> exists x rest, l = x :: rest.
Proof.
  destruct l as [|x rest]; [discriminate | eauto].
Qed.

(** X25: the axis the volumes are stacked along.  Without a given axis
    [setupOutputs] takes the first of t, z, c that the volumes do not have;
    when they have all three it takes the volumes' first axis, which always
    exists then.  A given axis is accepted exactly when it is one of t, z,
    y, x, c, and refused by an assertion otherwise. *)
Theorem stacking_axis (slice_axes : list string) :
  (exists a,
     N5.choose_new_axis None slice_axes = N5.Done a
     /\ ((a = "t" /\ N5.str_in "t" slice_axes = false)
         \/ (a = "z" /\ N5.str_in "t" slice_axes = true
             /\ N5.str_in "z" slice_axes = false)
         \/ (a = "c" /\ N5.str_in "t" slice_axes = true
             /\ N5.str_in "z" slice_axes = true
             /\ N5.str_in "c" slice_axes = false)
         \/ (N5.str_in "t" slice_axes = true
             /\ N5.str_in "z" slice_axes = true
             /\ N5.str_in "c" slice_axes = true
             /\ nth_error slice_axes 0 = Some a)))
  /\ forall given,
       (In given ["t"; "z"; "y"; "x"; "c"] ->
        N5.choose_new_axis (Some given) slice_axes = N5.Done given)
       /\ (~ In given ["t"; "z"; "y"; "x"; "c"] ->
           N5.choose_new_axis (Some given) slice_axes = N5.Fail N5.AssertionError).
Proof.
  split.
  - unfold N5.choose_new_axis. cbn [N5.axis_loop].
    destruct (N5.str_in "t" slice_axes) eqn:Ht; cbn [negb].
    + destruct (N5.str_in "z" slice_axes) eqn:Hz; cbn [negb].
      * destruct (N5.str_in "c" slice_axes) eqn:Hc; cbn [negb].
        -- destruct (str_in_nonempty _ _ Ht) as [x [rest Hx]].
           assert (Hzero : (if negb (N5.str_in "0" slice_axes) then "0" else "0")
                           = "0") by (destruct (negb _); reflexivity).
           rewrite Hzero. cbn [String.eqb Ascii.eqb Bool.eqb andb].
           subst slice_axes. exists x. split; [reflexivity|].
           right. right. right. repeat split; reflexivity.
        -- exists "c". split; [reflexivity|].
           right. right. left. repeat split; reflexivity.
      * exists "z". split; [reflexivity|]. right. left. repeat split; reflexivity.
    + exists "t". split; [reflexivity|]. left. split; reflexivity.
  - intros given. split.
    + intros Hin. simpl in Hin.
      destruct Hin as [H|[H|[H|[H|[H|[]]]]]]; subst given; reflexivity.
    + intros Hnot. unfold N5.choose_new_axis.
      destruct given as [|c [|d r]]; try reflexivity.
      destruct (N5.char_in c "tzyxc") eqn:Hc; [|reflexivity].
      exfalso. apply Hnot. cbn [N5.char_in] in Hc. simpl.
      repeat (apply orb_prop in Hc; destruct Hc as [Hc|Hc];
              [apply Ascii.eqb_eq in Hc; subst c; tauto|]).
      discriminate.
Qed.
